(** * PMD rules catalogue: converter, tier annotator and viewer filter

    A shallow embedding of the conversion script (PMD rule XML to the
    [rules_data.js] data module), of the tier annotation script that rewrites
    that module, and of the viewer's filter and pagination. *)

From Stdlib Require Import ZArith List Bool Lia Permutation Sorted String Ascii.
Import ListNotations.
Open Scope Z_scope.
Set Warnings "-register-all".

(* ------------------------------------------------------------------ *)
(** ** JavaScript strings and numbers *)

(** A JavaScript string is a sequence of UTF-16 code units. *)
Definition jstr := list N.

Definition ch (a : ascii) : N := N.of_nat (nat_of_ascii a).

(** An ASCII literal as a JavaScript string. *)
Definition u (s : string) : jstr := map ch (list_ascii_of_string s).

(** WhiteSpace and LineTerminator code units: the set of [\s] in regular
    expressions, of [String.prototype.trim] and of [parseInt]'s leading
    white space. *)
Definition isWs (c : N) : bool :=
  ((9 <=? c) && (c <=? 13))%N || (c =? 32)%N || (c =? 160)%N || (c =? 5760)%N
  || ((8192 <=? c) && (c <=? 8202))%N || (c =? 8232)%N || (c =? 8233)%N
  || (c =? 8239)%N || (c =? 8287)%N || (c =? 12288)%N || (c =? 65279)%N.

Fixpoint dropWs (s : jstr) : jstr :=
  match s with
  | c :: t => if isWs c then dropWs t else s
  | [] => []
  end.

(** [String.prototype.trim]. *)
Definition trim (s : jstr) : jstr := rev (dropWs (rev (dropWs s))).

(** A JavaScript number value as it arises in this program: parseInt results,
    integer literals and JSON integers are integral, so a finite value is an
    integer (one representable as a double); [-0] is not distinguished from
    [0] (it is printed and compared as [0] everywhere it can occur here). *)
Inductive jsnum := Fin (z : Z) | PosInf | NegInf.

Definition jsnum_eqb (a b : jsnum) : bool :=
  match a, b with
  | Fin x, Fin y => Z.eqb x y
  | PosInf, PosInf | NegInf, NegInf => true
  | _, _ => false
  end.

(** Rounding a positive integer to the nearest double, ties to even, with
    overflow to +Infinity (values from [2^1024 - 2^970] up). *)
Definition roundPos (z : Z) : jsnum :=
  let b := Z.log2 z in
  if b <? 53 then Fin z else
  let sh := b - 52 in
  let q := Z.shiftr z sh in
  let r := z - Z.shiftl q sh in
  let half := Z.shiftl 1 (sh - 1) in
  let q' := if (half <? r) || ((r =? half) && Z.odd q) then q + 1 else q in
  let y := Z.shiftl q' sh in
  if y <? 2 ^ 1024 then Fin y else PosInf.

Definition jsneg (n : jsnum) : jsnum :=
  match n with Fin z => Fin (- z) | PosInf => NegInf | NegInf => PosInf end.

(** "The Number value for" an integer. *)
Definition numberValue (z : Z) : jsnum :=
  if z =? 0 then Fin 0 else if 0 <? z then roundPos z else jsneg (roundPos (- z)).

(** A JavaScript number that is a double (with [-0] read as [0]). *)
Definition isDouble (n : jsnum) : Prop :=
  match n with Fin z => numberValue z = Fin z | _ => True end.

(* ------------------------------------------------------------------ *)
(** ** parseInt *)

Definition digitVal (c : N) : option Z :=
  if ((48 <=? c) && (c <=? 57))%N then Some (Z.of_N c - 48)
  else if ((97 <=? c) && (c <=? 122))%N then Some (Z.of_N c - 87)
  else if ((65 <=? c) && (c <=? 90))%N then Some (Z.of_N c - 55)
  else None.

Definition isRadixDigit (radix : Z) (c : N) : bool :=
  match digitVal c with Some d => d <? radix | None => false end.

Fixpoint takeDigits (radix : Z) (s : jstr) : jstr :=
  match s with
  | c :: t => if isRadixDigit radix c then c :: takeDigits radix t else []
  | [] => []
  end.

Definition digitsValue (radix : Z) (ds : jstr) : Z :=
  fold_left (fun acc c => acc * radix + match digitVal c with Some d => d | None => 0 end)
    ds 0.

(** [parseInt(string)] with no radix: [None] is NaN.  Leading white space, an
    optional sign, a [0x]/[0X] prefix selecting base 16, then the longest run
    of digits; the integer they denote is rounded to a double. *)
Definition parseInt (s0 : jstr) : option jsnum :=
  let s1 := dropWs s0 in
  let '(sign, s2) :=
    match s1 with
    | c :: t => if (c =? ch "-")%N then (-1, t)
                else if (c =? ch "+")%N then (1, t) else (1, s1)
    | [] => (1, s1)
    end in
  let '(radix, s3) :=
    match s2 with
    | c0 :: c1 :: t =>
        if (c0 =? ch "0")%N && ((c1 =? ch "x")%N || (c1 =? ch "X")%N)
        then (16, t) else (10, s2)
    | _ => (10, s2)
    end in
  match takeDigits radix s3 with
  | [] => None
  | ds => Some (numberValue (sign * digitsValue radix ds))
  end.

(** [n || 3] for a number [n] (NaN and zero are falsy). *)
Definition orThree (n : option jsnum) : jsnum :=
  match n with
  | None | Some (Fin 0) => Fin 3
  | Some v => v
  end.

Example parseInt_ex1 : parseInt (u " 7") = Some (Fin 7). Proof. reflexivity. Qed.
Example parseInt_ex2 : parseInt (u "0x1F") = Some (Fin 31). Proof. reflexivity. Qed.
Example parseInt_ex3 : parseInt (u "abc") = None. Proof. reflexivity. Qed.
Example parseInt_ex4 : parseInt (u "-2x") = Some (Fin (-2)). Proof. reflexivity. Qed.
Example roundPos_ex : roundPos (2 ^ 53 + 1) = Fin (2 ^ 53). Proof. reflexivity. Qed.
Example roundPos_ex2 : roundPos (2 ^ 1024) = PosInf. Proof. reflexivity. Qed.

(* ------------------------------------------------------------------ *)
(** ** Regular expressions

    A backtracking matcher following the ECMAScript pattern semantics
    (continuation passing, greedy and lazy quantifiers with the empty-iteration
    check, capture groups).  The [i] flag compares code units through
    [canon], the ASCII upper-casing: every literal of the patterns below is
    ASCII, and ECMAScript's canonicalization never maps a non-ASCII code unit
    to an ASCII one, so the comparison agrees with it on these patterns; the
    character classes used below contain no letters.  No pattern below puts a
    capture group under a quantifier. *)

Inductive regex :=
| REmpty
| RChar (c : N)
| RClass (p : N -> bool)
| RSeq (r1 r2 : regex)
| RAlt (r1 r2 : regex)
| RStar (greedy : bool) (r : regex)
| RGroup (n : nat) (r : regex)
| RBol
| REol
| RWordB.

Fixpoint rsize (r : regex) : nat :=
  match r with
  | RSeq r1 r2 | RAlt r1 r2 => S (rsize r1 + rsize r2)
  | RStar _ r | RGroup _ r => S (rsize r)
  | _ => 1%nat
  end.

(** Matcher state: the current index and the captures set so far. *)
Record mstate := MState { mpos : nat; mcaps : list (nat * (nat * nat)) }.

Definition canon (c : N) : N := if ((97 <=? c) && (c <=? 122))%N then (c - 32)%N else c.

Definition isWordChar (c : N) : bool :=
  ((48 <=? c) && (c <=? 57))%N || ((65 <=? c) && (c <=? 90))%N
  || ((97 <=? c) && (c <=? 122))%N || (c =? 95)%N.

Definition wordAt (inp : jstr) (i : nat) : bool :=
  match nth_error inp i with Some c => isWordChar c | None => false end.

Fixpoint mt (fuel : nat) (ic : bool) (inp : jstr) (r : regex) (st : mstate)
    (k : mstate -> option mstate) : option mstate :=
  match fuel with
  | O => None
  | S f =>
    match r with
    | REmpty => k st
    | RChar c =>
        match nth_error inp (mpos st) with
        | Some d =>
            if (if ic then (canon d =? canon c)%N else (d =? c)%N)
            then k (MState (S (mpos st)) (mcaps st)) else None
        | None => None
        end
    | RClass p =>
        match nth_error inp (mpos st) with
        | Some d => if p d then k (MState (S (mpos st)) (mcaps st)) else None
        | None => None
        end
    | RSeq r1 r2 => mt f ic inp r1 st (fun st1 => mt f ic inp r2 st1 k)
    | RAlt r1 r2 =>
        match mt f ic inp r1 st k with
        | Some res => Some res
        | None => mt f ic inp r2 st k
        end
    | RStar true r1 =>
        match mt f ic inp r1 st (fun st1 =>
                if Nat.eqb (mpos st1) (mpos st) then None
                else mt f ic inp (RStar true r1) st1 k) with
        | Some res => Some res
        | None => k st
        end
    | RStar false r1 =>
        match k st with
        | Some res => Some res
        | None =>
            mt f ic inp r1 st (fun st1 =>
              if Nat.eqb (mpos st1) (mpos st) then None
              else mt f ic inp (RStar false r1) st1 k)
        end
    | RGroup n r1 =>
        mt f ic inp r1 st (fun st1 =>
          k (MState (mpos st1) ((n, (mpos st, mpos st1)) :: mcaps st1)))
    | RBol => if Nat.eqb (mpos st) 0 then k st else None
    | REol => if Nat.eqb (mpos st) (List.length inp) then k st else None
    | RWordB =>
        let a := match mpos st with O => false | S j => wordAt inp j end in
        if Bool.eqb a (wordAt inp (mpos st)) then None else k st
    end
  end.

(** A match: its start, its end and its captures. *)
Record mresult := MResult { mstart : nat; mend : nat; mgroups : list (nat * (nat * nat)) }.

Definition mfuel (r : regex) (inp : jstr) : nat := ((rsize r + 2) * (List.length inp + 2))%nat.

Definition matchAt (ic : bool) (r : regex) (inp : jstr) (i : nat) : option mresult :=
  match mt (mfuel r inp) ic inp r (MState i []) Some with
  | Some st => Some (MResult i (mpos st) (mcaps st))
  | None => None
  end.

(** [RegExpBuiltinExec] from index [from]: the first index at which the
    pattern matches. *)
Fixpoint searchFrom (n : nat) (ic : bool) (r : regex) (inp : jstr) (i : nat)
    : option mresult :=
  match n with
  | O => None
  | S n' =>
      match matchAt ic r inp i with
      | Some m => Some m
      | None => searchFrom n' ic r inp (S i)
      end
  end.

Definition execFrom (ic : bool) (r : regex) (inp : jstr) (from : nat) : option mresult :=
  searchFrom (S (List.length inp - from)) ic r inp from.

Definition substr (inp : jstr) (a b : nat) : jstr := firstn (b - a) (skipn a inp).

(** The text of a match ([m[0]]) and of a capture group ([m[n]]; [None] is
    [undefined]). *)
Definition matchText (inp : jstr) (m : mresult) : jstr := substr inp (mstart m) (mend m).

Definition group (inp : jstr) (m : mresult) (n : nat) : option jstr :=
  match find (fun p => Nat.eqb (fst p) n) (mgroups m) with
  | Some (_, (a, b)) => Some (substr inp a b)
  | None => None
  end.

(** The successive matches of a global regex driven by [lastIndex]
    ([while ((m = re.exec(s)) !== null)]); none of the global patterns below
    can match the empty string, so each match moves [lastIndex] forward. *)
Fixpoint execAll (n : nat) (ic : bool) (r : regex) (inp : jstr) (lastIndex : nat)
    : list mresult :=
  match n with
  | O => []
  | S n' =>
      match execFrom ic r inp lastIndex with
      | Some m => m :: execAll n' ic r inp (mend m)
      | None => []
      end
  end.

Definition execGlobal (ic : bool) (r : regex) (inp : jstr) : list mresult :=
  execAll (S (List.length inp)) ic r inp 0%nat.

(** [s.replace(re, repl)] for a global [re] and a replacement string without
    [$] patterns. *)
Definition replaceGlobal (ic : bool) (r : regex) (repl inp : jstr) : jstr :=
  let fix go (ms : list mresult) (pos : nat) : jstr :=
    match ms with
    | [] => skipn pos inp
    | m :: ms' => substr inp pos (mstart m) ++ repl ++ go ms' (mend m)
    end in
  go (execGlobal ic r inp) 0%nat.

(** Pattern building blocks. *)
Definition lit (s : string) : regex :=
  fold_right (fun a r => RSeq (RChar (ch a)) r) REmpty (list_ascii_of_string s).

Definition seqs (rs : list regex) : regex := fold_right RSeq REmpty rs.

Definition litJ (s : jstr) : regex := fold_right (fun c r => RSeq (RChar c) r) REmpty s.

(** [[^...]], [\s], [[\s\S]]. *)
Definition notIn (s : string) : regex := RClass (fun c => negb (existsb (N.eqb c) (u s))).
Definition reWs : regex := RClass isWs.
Definition anyUnit : regex := RClass (fun _ => true).
Definition star (r : regex) : regex := RStar true r.
Definition lazy (r : regex) : regex := RStar false r.
Definition plus (r : regex) : regex := RSeq r (RStar true r).

Definition quote : N := 34%N.
Definition notQuote : regex := RClass (fun c => negb (c =? quote)%N).

(** An ASCII literal in which the apostrophe stands for the double quote
    (for writing XML and JSON text below). *)
Definition q (s : string) : jstr :=
  map (fun c => if (c =? ch "'")%N then quote else c) (u s).

Definition isEmpty {A : Type} (s : list A) : bool := match s with [] => true | _ => false end.

Definition jstr_eqb (a b : jstr) : bool := if list_eq_dec N.eq_dec a b then true else false.

Definition groupOr (inp : jstr) (m : mresult) (n : nat) : jstr :=
  match group inp m n with Some s => s | None => [] end.

(* ------------------------------------------------------------------ *)
(** ** Attribute and element extractor *)

(** (In the pattern sources quoted in comments, &quot; stands for a double
    quote and &rpar; for a closing parenthesis.)
    [new RegExp(`${name}\\s*=\\s*&quot;([^&quot;]*&rpar;&quot;`, 'i')] *)
Definition attrRe (name : string) : regex :=
  seqs [lit name; star reWs; lit "="; star reWs; RChar quote;
        RGroup 1 (star notQuote); RChar quote].

Definition extractAttr (attrStr : jstr) (name : string) : jstr :=
  match execFrom true (attrRe name) attrStr 0 with
  | Some m => groupOr attrStr m 1
  | None => []
  end.

Definition stripCdata (text : jstr) : jstr :=
  replaceGlobal false (lit "]]>") [] (replaceGlobal false (lit "<![CDATA[") [] text).

(** [new RegExp(`<${tag}[^>]*>([\\s\\S]*?)</${tag}>`, 'i')] *)
Definition elementRe (tag : string) : regex :=
  seqs [lit "<"; lit tag; star (notIn ">"); lit ">"; RGroup 1 (lazy anyUnit);
        lit "</"; lit tag; lit ">"].

Definition extractFirstElement (xml : jstr) (tag : string) : jstr :=
  match execFrom true (elementRe tag) xml 0 with
  | Some m => trim (stripCdata (groupOr xml m 1))
  | None => []
  end.

(** [/<example>([\s\S]*?&rpar;<\/example>/gi] *)
Definition exampleRe : regex :=
  seqs [lit "<example>"; RGroup 1 (lazy anyUnit); lit "</example>"].

Definition extractExamples (xml : jstr) : list jstr :=
  flat_map (fun m => let ex := trim (stripCdata (groupOr xml m 1)) in
                     if isEmpty ex then [] else [ex])
    (execGlobal true exampleRe xml).

Record PropertyDescriptor := {
  propName : jstr;
  defaultValue : jstr;
  propDescription : jstr
}.

(** [/<property\s+name=&quot;([^&quot;]*&rpar;&quot;[^>]*(?:\/>|>([\s\S]*?&rpar;<\/property>)/gi] *)
Definition propRe : regex :=
  seqs [lit "<property"; plus reWs; lit "name="; RChar quote;
        RGroup 1 (star notQuote); RChar quote; star (notIn ">");
        RAlt (lit "/>")
             (seqs [lit ">"; RGroup 2 (lazy anyUnit); lit "</property>"])].

(** [/value=&quot;([^&quot;]*&rpar;&quot;/], [/description=&quot;([^&quot;]*&rpar;&quot;/], [/<value>([\s\S]*?&rpar;<\/value>/i] *)
Definition valueAttrRe : regex :=
  seqs [lit "value="; RChar quote; RGroup 1 (star notQuote); RChar quote].
Definition descAttrRe : regex :=
  seqs [lit "description="; RChar quote; RGroup 1 (star notQuote); RChar quote].
Definition valueElRe : regex :=
  seqs [lit "<value>"; RGroup 1 (lazy anyUnit); lit "</value>"].

Definition propertyOf (xml : jstr) (m : mresult) : option PropertyDescriptor :=
  let name := groupOr xml m 1 in
  if jstr_eqb name (u "xpath") || jstr_eqb name (u "version") then None else
  let m0 := matchText xml m in
  let defaultVal :=
    match execFrom false valueAttrRe m0 0 with
    | Some d => groupOr m0 d 1
    | None =>
        match group xml m 2 with
        | Some body =>
            if isEmpty body then [] else
            match execFrom true valueElRe body 0 with
            | Some v => trim (stripCdata (groupOr body v 1))
            | None => []
            end
        | None => []
        end
    end in
  let descr :=
    match execFrom false descAttrRe m0 0 with
    | Some d => groupOr m0 d 1
    | None => []
    end in
  Some {| propName := name; defaultValue := defaultVal; propDescription := descr |}.

Definition extractProperties (xml : jstr) : list PropertyDescriptor :=
  flat_map (fun m => match propertyOf xml m with Some p => [p] | None => [] end)
    (execGlobal true propRe xml).

(* ------------------------------------------------------------------ *)
(** ** Rule parser *)

(** The locals from which [parseXmlFile] builds the pushed object. *)
Record RuleRecord := {
  name : jstr;
  category : jstr;
  categoryName : jstr;
  since : jstr;
  message : jstr;
  ruleClass : jstr;
  externalInfoUrl : jstr;
  description : jstr;
  priority : jsnum;
  examples : list jstr;
  properties : list PropertyDescriptor;
  maxLangVersion : jstr;
  minLangVersion : jstr
}.

(** [/<ruleset\s+name=&quot;([^&quot;]*&rpar;&quot;/] *)
Definition rulesetRe : regex :=
  seqs [lit "<ruleset"; plus reWs; lit "name="; RChar quote;
        RGroup 1 (star notQuote); RChar quote].

(** [/<rule\s+([^>]*?&rpar;>([\s\S]*?&rpar;<\/rule>/g] *)
Definition ruleRe : regex :=
  seqs [lit "<rule"; plus reWs; RGroup 1 (lazy (notIn ">")); lit ">";
        RGroup 2 (lazy anyUnit); lit "</rule>"].

(** [/\bref\s*=/] *)
Definition refRe : regex := seqs [RWordB; lit "ref"; star reWs; lit "="].

Definition regexTest (ic : bool) (r : regex) (s : jstr) : bool :=
  match execFrom ic r s 0 with Some _ => true | None => false end.

Definition baseUrlRe : regex := lit "${pmd.website.baseurl}".

(** One iteration of the [while] loop of [parseXmlFile]: [None] is
    [continue]. *)
Definition buildRule (rulesetName category attrs body : jstr) : option RuleRecord :=
  if regexTest false refRe attrs then None else
  let name := extractAttr attrs "name" in
  if isEmpty name then None else
  Some {|
    name := name;
    category := category;
    categoryName := rulesetName;
    since := extractAttr attrs "since";
    message := extractAttr attrs "message";
    ruleClass := extractAttr attrs "class";
    externalInfoUrl := replaceGlobal false baseUrlRe (u "https://docs.pmd-code.org/latest")
                         (extractAttr attrs "externalInfoUrl");
    description := extractFirstElement body "description";
    priority := orThree (parseInt (extractFirstElement body "priority"));
    examples := extractExamples body;
    properties := extractProperties body;
    maxLangVersion := extractAttr attrs "maximumLanguageVersion";
    minLangVersion := extractAttr attrs "minimumLanguageVersion" |}.

(** The [<rule>] blocks of a document: [(attrs, body)] of each match. *)
Definition ruleBlocks (xml : jstr) : list (jstr * jstr) :=
  map (fun m => (groupOr xml m 1, groupOr xml m 2)) (execGlobal false ruleRe xml).

Definition rulesetNameOf (xml category : jstr) : jstr :=
  match execFrom false rulesetRe xml 0 with
  | Some m => groupOr xml m 1
  | None => category
  end.

(** [parseXmlFile] on the file's text. *)
Definition parseXmlFile (xml category : jstr) : list RuleRecord :=
  let rulesetName := rulesetNameOf xml category in
  flat_map (fun ab => match buildRule rulesetName category (fst ab) (snd ab) with
                      | Some r => [r]
                      | None => []
                      end)
    (ruleBlocks xml).

Definition sampleDoc : jstr :=
  q "<ruleset name='Best'><rule name='Foo' since='1.0' message='msg'><description>d</description><priority>2</priority></rule><rule ref='rulesets/foo.xml/Bar'/></ruleset>".

Example sample_names : map name (parseXmlFile sampleDoc (u "bestpractices")) = [u "Foo"].
Proof. vm_compute. reflexivity. Qed.
Example sample_fields :
  map (fun r => (since r, message r, description r, priority r, examples r, categoryName r))
      (parseXmlFile sampleDoc (u "bestpractices"))
  = [(u "1.0", u "msg", u "d", Fin 2, [], u "Best")].
Proof. vm_compute. reflexivity. Qed.

(* ------------------------------------------------------------------ *)
(** ** JSON values and JSON.stringify(value, null, 2) *)

(** A JSON-compatible JavaScript value; an object is the list of its own
    properties in [[[OwnPropertyKeys]]] order. *)
Inductive jval :=
| JNull
| JBool (b : bool)
| JNum (n : jsnum)
| JStr (s : jstr)
| JArr (l : list jval)
| JObj (l : list (jstr * jval)).

Definition digitUnit (z : Z) : N := (48 + Z.to_N z)%N.

Fixpoint decimalAux (n : nat) (z : Z) (acc : jstr) : jstr :=
  match n with
  | O => acc
  | S n' => if z <? 10 then digitUnit z :: acc
            else decimalAux n' (z / 10) (digitUnit (z mod 10) :: acc)
  end.

(** The decimal digits of a non-negative integer. *)
Definition decimal (z : Z) : jstr := decimalAux (S (Z.to_nat (Z.log2 z))) z [].

Definition ndigits (z : Z) : Z := Z.of_nat (List.length (decimal z)).

Fixpoint stripZerosAux (n : nat) (z : Z) : Z :=
  match n with
  | O => z
  | S n' => if (0 <? z) && (z mod 10 =? 0) then stripZerosAux n' (z / 10) else z
  end.

Definition stripZeros (z : Z) : Z := stripZerosAux (S (Z.to_nat (Z.log2 z))) z.

(** Number::toString for a positive integral double [x] with [d] digits:
    the value [s * 10^(n-k)] for the least [k] such that it denotes [x],
    the closer of the two candidates when both do (the even [s] on a tie).
    At [k = d] the candidate [x] itself denotes [x]. *)
Fixpoint shortestValue (fuel : nat) (k d x : Z) : Z :=
  match fuel with
  | O => x
  | S f =>
      if d <=? k then x else
      let p := 10 ^ (d - k) in
      let s1 := x / p in
      let v1 := s1 * p in
      let v2 := v1 + p in
      let ok1 := jsnum_eqb (numberValue v1) (Fin x) in
      let ok2 := jsnum_eqb (numberValue v2) (Fin x) in
      if ok1 && ok2 then
        (if x - v1 <? v2 - x then v1
         else if v2 - x <? x - v1 then v2
         else if Z.even s1 then v1 else v2)
      else if ok1 then v1
      else if ok2 then v2
      else shortestValue f (k + 1) d x
  end.

(** Number::toString(x) for an integral double. *)
Definition numToString (x : Z) : jstr :=
  if x =? 0 then u "0" else
  let sign := if x <? 0 then u "-" else [] in
  let a := Z.abs x in
  let d := ndigits a in
  let v := shortestValue (Z.to_nat d) 1 d a in
  let n := ndigits v in
  sign ++
  (if n <=? 21 then decimal v
   else match decimal (stripZeros v) with
        | [d0] => [d0] ++ u "e+" ++ decimal (n - 1)
        | d0 :: rest => [d0] ++ u "." ++ rest ++ u "e+" ++ decimal (n - 1)
        | [] => []
        end).

Definition serNum (n : jsnum) : jstr :=
  match n with Fin z => numToString z | _ => u "null" end.

Definition hexUnit (z : Z) : N := if z <? 10 then digitUnit z else (87 + Z.to_N z)%N.

(** UnicodeEscape: a backslash, [u] and four lower-case hex digits. *)
Definition unicodeEscape (c : N) : jstr :=
  let z := Z.of_N c in
  [92%N; ch "u"; hexUnit (z / 4096); hexUnit (z / 256 mod 16);
   hexUnit (z / 16 mod 16); hexUnit (z mod 16)].

Definition isHighSurrogate (c : N) : bool := ((55296 <=? c) && (c <=? 56319))%N.
Definition isLowSurrogate (c : N) : bool := ((56320 <=? c) && (c <=? 57343))%N.

(** The escape of one code unit that is not part of a surrogate pair. *)
Definition escapeUnit (c : N) : jstr :=
  if (c =? 8)%N then [92%N; ch "b"]
  else if (c =? 9)%N then [92%N; ch "t"]
  else if (c =? 10)%N then [92%N; ch "n"]
  else if (c =? 12)%N then [92%N; ch "f"]
  else if (c =? 13)%N then [92%N; ch "r"]
  else if (c =? quote)%N then [92%N; quote]
  else if (c =? 92)%N then [92%N; 92%N]
  else if (c <? 32)%N || isHighSurrogate c || isLowSurrogate c then unicodeEscape c
  else [c].

Fixpoint quoteUnits (s : jstr) : jstr :=
  match s with
  | [] => []
  | c :: t =>
      if isHighSurrogate c then
        match t with
        | d :: t' => if isLowSurrogate d then c :: d :: quoteUnits t'
                     else escapeUnit c ++ quoteUnits t
        | [] => escapeUnit c
        end
      else escapeUnit c ++ quoteUnits t
  end.

(** QuoteJSONString. *)
Definition quoteJSON (s : jstr) : jstr := quote :: quoteUnits s ++ [quote].

Definition nl : jstr := [10%N].
Definition spaces (n : nat) : jstr := repeat 32%N n.

(** SerializeJSONProperty with the indent [ind] of the enclosing level and
    a gap of two spaces. *)
Fixpoint ser (ind : nat) (v : jval) : jstr :=
  match v with
  | JNull => u "null"
  | JBool true => u "true"
  | JBool false => u "false"
  | JNum n => serNum n
  | JStr s => quoteJSON s
  | JArr [] => u "[]"
  | JArr (x :: xs) =>
      u "[" ++ nl ++ spaces (ind + 2) ++ ser (ind + 2) x
        ++ List.concat (map (fun y => u "," ++ nl ++ spaces (ind + 2) ++ ser (ind + 2) y) xs)
        ++ nl ++ spaces ind ++ u "]"
  | JObj [] => u "{}"
  | JObj ((k, x) :: ps) =>
      u "{" ++ nl ++ spaces (ind + 2) ++ quoteJSON k ++ u ": " ++ ser (ind + 2) x
        ++ List.concat (map (fun p => u "," ++ nl ++ spaces (ind + 2) ++ quoteJSON (fst p)
                                   ++ u ": " ++ ser (ind + 2) (snd p)) ps)
        ++ nl ++ spaces ind ++ u "}"
  end.

Definition stringify (v : jval) : jstr := ser 0 v.

Example numToString_ex1 : numToString 42 = u "42". Proof. reflexivity. Qed.
Example numToString_ex2 : numToString (2 ^ 60) = u "1152921504606847000".
Proof. vm_compute. reflexivity. Qed.
Example numToString_ex3 : numToString (10 ^ 21) = u "1e+21". Proof. vm_compute. reflexivity. Qed.
Example numToString_ex4 : numToString (-(2 ^ 80)) = u "-1.2089258196146292e+24".
Proof. vm_compute. reflexivity. Qed.
Example ser_ex :
  stringify (JArr [JObj [(u "a", JNum (Fin 1)); (u "b", JArr [])]; JStr (q "x'y")])
  = u "[" ++ nl ++ u "  {" ++ nl ++ u "    " ++ q "'a': 1," ++ nl ++ u "    " ++ q "'b': []"
      ++ nl ++ u "  }," ++ nl ++ u "  " ++ [quote] ++ u "x" ++ [92%N; quote] ++ u "y"
      ++ [quote] ++ nl ++ u "]".
Proof. vm_compute. reflexivity. Qed.

(* ------------------------------------------------------------------ *)
(** ** Objects: property order and [[Set]] *)

Definition isDigit (c : N) : bool := ((48 <=? c) && (c <=? 57))%N.

(** The numeric value of an array-index key ("0", or digits without a
    leading zero, below [2^32 - 1]). *)
Definition arrayIndex (k : jstr) : option Z :=
  match k with
  | [] => None
  | c :: t =>
      if forallb isDigit k && (negb (c =? ch "0")%N || isEmpty t) then
        let n := digitsValue 10 k in if n <? 2 ^ 32 - 1 then Some n else None
      else None
  end.

Fixpoint insertIndexKey (i : Z) (k : jstr) (v : jval) (o : list (jstr * jval))
    : list (jstr * jval) :=
  match o with
  | [] => [(k, v)]
  | (k', v') :: o' =>
      match arrayIndex k' with
      | Some j => if i <? j then (k, v) :: o else (k', v') :: insertIndexKey i k v o'
      | None => (k, v) :: o
      end
  end.

Definition hasKey (k : jstr) (o : list (jstr * jval)) : bool :=
  existsb (fun p => jstr_eqb (fst p) k) o.

(** Creating or updating the own data property [k] of an ordinary object:
    an existing property keeps its place; a new array-index key goes among
    the index keys in ascending order, any other new key goes last. *)
Definition objSet (k : jstr) (v : jval) (o : list (jstr * jval)) : list (jstr * jval) :=
  if hasKey k o then map (fun p => if jstr_eqb (fst p) k then (k, v) else p) o
  else match arrayIndex k with
       | Some i => insertIndexKey i k v o
       | None => o ++ [(k, v)]
       end.

Fixpoint objGet (k : jstr) (o : list (jstr * jval)) : option jval :=
  match o with
  | [] => None
  | (k', v) :: o' => if jstr_eqb k' k then Some v else objGet k o'
  end.

(* ------------------------------------------------------------------ *)
(** ** JSON.parse *)

(** [NonIntegerNumber]: a number literal whose value is not an integer;
    such values never occur in the catalogue and are outside this model. *)
Inductive perr := SyntaxError | NonIntegerNumber.

Inductive pres (A : Type) := POk (a : A) (rest : jstr) | PFail (e : perr).
Arguments POk {A}.
Arguments PFail {A}.

Definition isJws (c : N) : bool := ((c =? 32) || (c =? 9) || (c =? 10) || (c =? 13))%N.

Fixpoint skipJws (s : jstr) : jstr :=
  match s with
  | c :: t => if isJws c then skipJws t else s
  | [] => []
  end.

Fixpoint spanDigits (s : jstr) : jstr * jstr :=
  match s with
  | c :: t => if isDigit c then let '(ds, r) := spanDigits t in (c :: ds, r) else ([], s)
  | [] => ([], [])
  end.

Fixpoint stripLit (p s : jstr) : option jstr :=
  match p, s with
  | [], _ => Some s
  | a :: p', b :: s' => if (a =? b)%N then stripLit p' s' else None
  | _ :: _, [] => None
  end.

Definition hexVal (c : N) : option Z :=
  match digitVal c with Some d => if d <? 16 then Some d else None | None => None end.

(** The characters of a string literal after its opening quote. *)
Fixpoint pStringBody (s : jstr) (acc : jstr) : pres jstr :=
  match s with
  | [] => PFail SyntaxError
  | c :: t =>
      if (c =? quote)%N then POk (rev acc) t
      else if (c =? 92)%N then
        match t with
        | [] => PFail SyntaxError
        | e :: t' =>
            if (e =? quote)%N then pStringBody t' (quote :: acc)
            else if (e =? 92)%N then pStringBody t' (92%N :: acc)
            else if (e =? ch "/")%N then pStringBody t' (ch "/" :: acc)
            else if (e =? ch "b")%N then pStringBody t' (8%N :: acc)
            else if (e =? ch "f")%N then pStringBody t' (12%N :: acc)
            else if (e =? ch "n")%N then pStringBody t' (10%N :: acc)
            else if (e =? ch "r")%N then pStringBody t' (13%N :: acc)
            else if (e =? ch "t")%N then pStringBody t' (9%N :: acc)
            else if (e =? ch "u")%N then
              match t' with
              | h1 :: h2 :: h3 :: h4 :: t'' =>
                  match hexVal h1, hexVal h2, hexVal h3, hexVal h4 with
                  | Some a, Some b, Some c', Some d =>
                      pStringBody t'' (Z.to_N (((a * 16 + b) * 16 + c') * 16 + d) :: acc)
                  | _, _, _, _ => PFail SyntaxError
                  end
              | _ => PFail SyntaxError
              end
            else PFail SyntaxError
        end
      else if (c <? 32)%N then PFail SyntaxError
      else pStringBody t (c :: acc)
  end.

(** A number literal [-? (0 | [1-9][0-9]* ) (. [0-9]+)? ([eE] [+-]? [0-9]+)?],
    its exact value rounded to a double. *)
Definition pNumber (s : jstr) : pres jval :=
  let '(neg, s1) :=
    match s with
    | c :: t => if (c =? ch "-")%N then (true, t) else (false, s)
    | [] => (false, s)
    end in
  let intPart :=
    match s1 with
    | c :: t => if (c =? ch "0")%N then Some ([c], t)
                else if isDigit c then Some (spanDigits s1) else None
    | [] => None
    end in
  match intPart with
  | None => PFail SyntaxError
  | Some (ids, s2) =>
    let fracPart :=
      match s2 with
      | c :: t => if (c =? ch ".")%N then
                    match spanDigits t with
                    | ([], _) => None
                    | (fds, s3) => Some (fds, s3)
                    end
                  else Some ([], s2)
      | [] => Some ([], s2)
      end in
    match fracPart with
    | None => PFail SyntaxError
    | Some (fds, s3) =>
      let expPart :=
        match s3 with
        | c :: t =>
            if (c =? ch "e")%N || (c =? ch "E")%N then
              let '(esign, t1) :=
                match t with
                | c1 :: t2 => if (c1 =? ch "+")%N then (1, t2)
                              else if (c1 =? ch "-")%N then (-1, t2) else (1, t)
                | [] => (1, t)
                end in
              match spanDigits t1 with
              | ([], _) => None
              | (eds, s4) => Some (esign * digitsValue 10 eds, s4)
              end
            else Some (0, s3)
        | [] => Some (0, s3)
        end in
      match expPart with
      | None => PFail SyntaxError
      | Some (ex, s4) =>
        let m := digitsValue 10 (ids ++ fds) in
        let e := ex - Z.of_nat (List.length fds) in
        let sgn := if neg then -1 else 1 in
        if 0 <=? e then POk (JNum (numberValue (sgn * (m * 10 ^ e)))) s4
        else if m mod 10 ^ (- e) =? 0 then POk (JNum (numberValue (sgn * (m / 10 ^ (- e))))) s4
        else PFail NonIntegerNumber
      end
    end
  end.

(** The elements of an array after its first one starts, with [pv] parsing
    one element. *)
Fixpoint pElems (pv : jstr -> pres jval) (g : nat) (acc : list jval) (s1 : jstr)
    : pres jval :=
  match g with
  | O => PFail SyntaxError
  | S g' =>
    match pv s1 with
    | PFail e => PFail e
    | POk v r =>
      match skipJws r with
      | c1 :: r1 =>
          if (c1 =? ch ",")%N then pElems pv g' (v :: acc) r1
          else if (c1 =? ch "]")%N then POk (JArr (rev (v :: acc))) r1
          else PFail SyntaxError
      | [] => PFail SyntaxError
      end
    end
  end.

(** The members of an object after its first one starts; each member is
    stored with [objSet] (CreateDataProperty). *)
Fixpoint pMembers (pv : jstr -> pres jval) (g : nat) (acc : list (jstr * jval)) (s1 : jstr)
    : pres jval :=
  match g with
  | O => PFail SyntaxError
  | S g' =>
    match skipJws s1 with
    | c1 :: t1 =>
      if (c1 =? quote)%N then
        match pStringBody t1 [] with
        | PFail e => PFail e
        | POk k r =>
          match skipJws r with
          | c2 :: r2 =>
            if (c2 =? ch ":")%N then
              match pv r2 with
              | PFail e => PFail e
              | POk v r3 =>
                let acc' := objSet k v acc in
                match skipJws r3 with
                | c3 :: r4 =>
                    if (c3 =? ch ",")%N then pMembers pv g' acc' r4
                    else if (c3 =? ch "}")%N then POk (JObj acc') r4
                    else PFail SyntaxError
                | [] => PFail SyntaxError
                end
              end
            else PFail SyntaxError
          | [] => PFail SyntaxError
          end
        end
      else PFail SyntaxError
    | [] => PFail SyntaxError
    end
  end.

Fixpoint pValue (fuel : nat) (s : jstr) : pres jval :=
  match fuel with
  | O => PFail SyntaxError
  | S f =>
    match skipJws s with
    | [] => PFail SyntaxError
    | c :: t =>
      if (c =? quote)%N then
        match pStringBody t [] with
        | POk str r => POk (JStr str) r
        | PFail e => PFail e
        end
      else if (c =? ch "[")%N then
        match skipJws t with
        | c1 :: t1 => if (c1 =? ch "]")%N then POk (JArr []) t1 else pElems (pValue f) f [] t
        | [] => PFail SyntaxError
        end
      else if (c =? ch "{")%N then
        match skipJws t with
        | c1 :: t1 => if (c1 =? ch "}")%N then POk (JObj []) t1 else pMembers (pValue f) f [] t
        | [] => PFail SyntaxError
        end
      else if (c =? ch "n")%N then
        match stripLit (u "ull") t with Some r => POk JNull r | None => PFail SyntaxError end
      else if (c =? ch "t")%N then
        match stripLit (u "rue") t with Some r => POk (JBool true) r | None => PFail SyntaxError end
      else if (c =? ch "f")%N then
        match stripLit (u "alse") t with Some r => POk (JBool false) r | None => PFail SyntaxError end
      else if (c =? ch "-")%N || isDigit c then pNumber (c :: t)
      else PFail SyntaxError
    end
  end.

(** [JSON.parse(text)]. *)
Definition jsonParse (s : jstr) : perr + jval :=
  match pValue (S (List.length s)) s with
  | POk v r => if isEmpty (skipJws r) then inr v else inl SyntaxError
  | PFail e => inl e
  end.

Example jsonParse_ex1 :
  jsonParse (q "[ {'b': 1, '1': 2, 'b': 1e400}, -0, 2.50e1, 'aA\n'] ")
  = inr (JArr [JObj [(u "1", JNum (Fin 2)); (u "b", JNum PosInf)]; JNum (Fin 0);
               JNum (Fin 25); JStr (u "aA" ++ [10%N])]).
Proof. vm_compute. reflexivity. Qed.
Example jsonParse_ex2 : jsonParse (u "[1.5]") = inl NonIntegerNumber.
Proof. vm_compute. reflexivity. Qed.
Example jsonParse_ex3 : jsonParse (u "[1,]") = inl SyntaxError.
Proof. vm_compute. reflexivity. Qed.

(* ------------------------------------------------------------------ *)
(** ** Catalogue builder *)

Definition CATEGORY_MAP : list (string * string) :=
  [("bestpractices_ko.xml", "bestpractices"); ("codestyle_ko.xml", "codestyle");
   ("design_ko.xml", "design"); ("documentation_ko.xml", "documentation");
   ("errorprone_ko.xml", "errorprone"); ("multithreading_ko.xml", "multithreading");
   ("performance_ko.xml", "performance"); ("security_ko.xml", "security")]%string.

Definition categoryOf (file : jstr) : option jstr :=
  match find (fun p => jstr_eqb (u (fst p)) file) CATEGORY_MAP with
  | Some (_, c) => Some (u c)
  | None => None
  end.

Definition endsWith (s suffix : jstr) : bool :=
  Nat.leb (List.length suffix) (List.length s)
  && jstr_eqb (skipn (List.length s - List.length suffix) s) suffix.

(** The object pushed by [parseXmlFile]: the spreads add [properties],
    [maxLanguageVersion] and [minLanguageVersion] only when non-empty. *)
Definition propObject (p : PropertyDescriptor) : jval :=
  JObj [(u "name", JStr (propName p)); (u "defaultValue", JStr (defaultValue p));
        (u "description", JStr (propDescription p))].

Definition ruleObject (r : RuleRecord) : jval :=
  JObj ([(u "name", JStr (name r)); (u "category", JStr (category r));
         (u "categoryName", JStr (categoryName r)); (u "since", JStr (since r));
         (u "message", JStr (message r)); (u "ruleClass", JStr (ruleClass r));
         (u "externalInfoUrl", JStr (externalInfoUrl r));
         (u "description", JStr (description r)); (u "priority", JNum (priority r));
         (u "examples", JArr (map JStr (examples r)))]
        ++ (if Nat.ltb 0 (List.length (properties r))
            then [(u "properties", JArr (map propObject (properties r)))] else [])
        ++ (if isEmpty (maxLangVersion r) then []
            else [(u "maxLanguageVersion", JStr (maxLangVersion r))])
        ++ (if isEmpty (minLangVersion r) then []
            else [(u "minLanguageVersion", JStr (minLangVersion r))])).

(** The sign of [a - b] for two distinct numbers. *)
Definition numCompare (a b : jsnum) : Z :=
  match a, b with
  | Fin x, Fin y => Z.sgn (x - y)
  | NegInf, NegInf | PosInf, PosInf => 0
  | NegInf, _ | _, PosInf => -1
  | PosInf, _ | _, NegInf => 1
  end.

Section Builder.

(** [String.prototype.localeCompare] of the host; only the sign of its result
    is used. *)
Variable localeCompare : jstr -> jstr -> Z.

(** The comparator passed to [allRules.sort]. *)
Definition compareRules (a b : RuleRecord) : Z :=
  if negb (jstr_eqb (category a) (category b)) then localeCompare (category a) (category b)
  else if negb (jsnum_eqb (priority a) (priority b)) then numCompare (priority a) (priority b)
  else localeCompare (name a) (name b).

(** [Array.prototype.sort] is stable; for a consistent comparator its result
    is the stable sort, computed here by insertion. *)
Fixpoint insertSorted (x : RuleRecord) (l : list RuleRecord) : list RuleRecord :=
  match l with
  | [] => [x]
  | y :: l' => if compareRules x y <? 0 then x :: l else y :: insertSorted x l'
  end.

Definition sortRules (l : list RuleRecord) : list RuleRecord :=
  fold_left (fun acc x => insertSorted x acc) l [].

(** The data module text: [const RULES_DATA =\n] and the JSON, then [;\n]. *)
Definition modulePrefix : jstr := u "const RULES_DATA =".

Definition renderModule (v : jval) : jstr := modulePrefix ++ nl ++ stringify v ++ u ";" ++ nl.

(** [allRules]: the records of every recognised [.xml] file, in directory
    order; [files] is [(file name, text)] in [readdirSync] order. *)
Definition collectRules (files : list (jstr * jstr)) : list RuleRecord :=
  flat_map (fun f => match categoryOf (fst f) with
                     | Some c => parseXmlFile (snd f) c
                     | None => []
                     end)
    (filter (fun f => endsWith (fst f) (u ".xml")) files).

(** The catalogue [main] holds in memory before writing it. *)
Definition catalogue (files : list (jstr * jstr)) : jval :=
  JArr (map ruleObject (sortRules (collectRules files))).

(** The text [main] writes to [rules_data.js]. *)
Definition builderMain (files : list (jstr * jstr)) : jstr :=
  renderModule (catalogue files).

End Builder.

(* ------------------------------------------------------------------ *)
(** ** Tier annotator *)

Inductive tierValue := Tier1 | Tier2 | Tier3 | TierSkip.

Record TierInfo := { tier : tierValue; claude_comment : jstr }.

Definition tierJson (t : tierValue) : jval :=
  match t with
  | Tier1 => JNum (Fin 1) | Tier2 => JNum (Fin 2) | Tier3 => JNum (Fin 3)
  | TierSkip => JStr (u "skip")
  end.

(** [raw.replace(/^const RULES_DATA =\s*/, "")] *)
Definition stripDecl (raw : jstr) : jstr :=
  match stripLit modulePrefix raw with
  | Some r => dropWs r
  | None => raw
  end.

(** [.replace(/;\s*$/, "")]: the leftmost [;] followed only by white space is
    removed together with that white space. *)
Fixpoint stripSemi (s : jstr) : jstr :=
  match s with
  | [] => []
  | c :: t => if (c =? ch ";")%N && forallb isWs t then [] else c :: stripSemi t
  end.

(** Process outcome: exit code and the contents of [rules_data.js] afterwards;
    [Unmodelled] when the file holds a non-integral number. *)
Inductive outcome := Exit (code : Z) (file : jstr) | Unmodelled.

Section Annotator.

(** [TIER_MAP]: [Some] for the own keys of the table. *)
Variable TIER_MAP : jstr -> option TierInfo.

(** [r.name] when it is a string. *)
Definition nameOf (r : jval) : option jstr :=
  match r with
  | JObj o => match objGet (u "name") o with Some (JStr s) => Some s | _ => None end
  | _ => None
  end.

(** [tierMapKeys.has(r.name)] *)
Definition inTierMap (r : jval) : bool :=
  match nameOf r with
  | Some s => match TIER_MAP s with Some _ => true | None => false end
  | None => false
  end.

(** [rule.tier = tierInfo.tier; rule.claude_comment = tierInfo.claude_comment;] *)
Definition annotate (r : jval) : jval :=
  match r, nameOf r with
  | JObj o, Some s =>
      match TIER_MAP s with
      | Some info =>
          JObj (objSet (u "claude_comment") (JStr (claude_comment info))
                  (objSet (u "tier") (tierJson (tier info)) o))
      | None => r
      end
  | _, _ => r
  end.

(** [main] of the annotator on the contents [raw] of [rules_data.js].  A
    non-array [rules] or a [null] record throws a TypeError, an uncaught
    exception that also ends the process with status 1. *)
Definition annotatorMain (raw : jstr) : outcome :=
  let jsonStr := stripSemi (stripDecl raw) in
  match jsonParse jsonStr with
  | inl SyntaxError => Exit 1 raw
  | inl NonIntegerNumber => Unmodelled
  | inr (JArr rules) =>
      if forallb inTierMap rules
      then Exit 0 (renderModule (JArr (map annotate rules)))
      else Exit 1 raw
  | inr _ => Exit 1 raw
  end.

End Annotator.

(** The files [rules_data.js] holds in the pipeline: what the builder
    writes (for any [localeCompare] and input files), and what a successful
    annotator run (for any table) writes over such a file. *)
Inductive pipelineFile : jstr -> Prop :=
| pf_builder lc files : pipelineFile (builderMain lc files)
| pf_annotated TIER_MAP raw out : pipelineFile raw ->
    annotatorMain TIER_MAP raw = Exit 0 out -> pipelineFile out.

(* ------------------------------------------------------------------ *)
(** ** Viewer: filters and pagination *)

Definition RULES_PER_PAGE : nat := 20.

(** The fields of a catalogue record the filter reads. *)
Record ViewerRule := {
  vName : jstr; vCategory : jstr; vCategoryName : jstr;
  vMessage : jstr; vDescription : jstr; vPriority : jsnum
}.

(** The checked [data-category] and [data-priority] values and the search
    box text. *)
Record Filters := { fCategories : list jstr; fPriorities : list jstr; searchValue : jstr }.

Definition memJ (x : jstr) (l : list jstr) : bool := existsb (jstr_eqb x) l.

Fixpoint isPrefix (p s : jstr) : bool :=
  match p, s with
  | [], _ => true
  | a :: p', b :: s' => (a =? b)%N && isPrefix p' s'
  | _ :: _, [] => false
  end.

(** [s.includes(t)] *)
Fixpoint includes (s t : jstr) : bool :=
  isPrefix t s || match s with [] => false | _ :: s' => includes s' t end.

(** [String(n)] *)
Definition numString (n : jsnum) : jstr :=
  match n with Fin z => numToString z | PosInf => u "Infinity" | NegInf => u "-Infinity" end.

Section Viewer.

(** [String.prototype.toLowerCase] of the host. *)
Variable toLowerCase : jstr -> jstr.

Definition searchTerm (f : Filters) : jstr := trim (toLowerCase (searchValue f)).

Definition matchesRule (f : Filters) (rule : ViewerRule) : bool :=
  let term := searchTerm f in
  let matchesCategory := isEmpty (fCategories f) || memJ (vCategory rule) (fCategories f) in
  let matchesPriority :=
    isEmpty (fPriorities f) || memJ (numString (vPriority rule)) (fPriorities f) in
  let matchesSearch :=
    isEmpty term
    || includes (toLowerCase (vName rule)) term
    || includes (toLowerCase (vMessage rule)) term
    || includes (toLowerCase (vDescription rule)) term
    || (negb (isEmpty (vCategoryName rule)) && includes (toLowerCase (vCategoryName rule)) term) in
  matchesCategory && matchesPriority && matchesSearch.

(** The viewer's state: [filteredRules] and [currentPage]. *)
Record ViewState := { filteredRules : list ViewerRule; currentPage : nat }.

(** [applyFilters]: recompute [filteredRules] from all [rules], back to page 1. *)
Definition applyFilters (rules : list ViewerRule) (f : Filters) : ViewState :=
  {| filteredRules := filter (matchesRule f) rules; currentPage := 1 |}.

End Viewer.

(** [pageRules] of [renderRules]:
    [filteredRules.slice((currentPage - 1) * RULES_PER_PAGE, ... + RULES_PER_PAGE)]. *)
Definition pageRules (st : ViewState) : list ViewerRule :=
  firstn RULES_PER_PAGE (skipn ((currentPage st - 1) * RULES_PER_PAGE) (filteredRules st)).

Definition totalPages (st : ViewState) : nat :=
  Nat.div (List.length (filteredRules st) + RULES_PER_PAGE - 1) RULES_PER_PAGE.

(** A click on the pagination button for [page]. *)
Definition goToPage (st : ViewState) (page : nat) : ViewState :=
  if Nat.ltb 0 page && negb (Nat.eqb page (currentPage st)) && Nat.leb page (totalPages st)
  then {| filteredRules := filteredRules st; currentPage := page |}
  else st.

(* ------------------------------------------------------------------ *)
(** ** Viewer: pagination buttons *)

(** The items [renderPagination] writes into [pagination.innerHTML]: the
    previous/next buttons (with their [disabled] flag and arrow), the
    buttons for the first and the last page, the buttons of the window
    around the current page (with their [active] class), the ellipses and
    the [current / total] text. *)
Inductive pageItem :=
| NavButton (disabled : bool) (page : Z) (arrow : N)
| EndButton (page : Z)
| WindowButton (active : bool) (page : Z)
| PageEllipsis
| PageInfo (cur total : Z).

(** [for (let i = a; i <= b; i++)] *)
Definition zrange (a b : Z) : list Z :=
  map (fun k => a + Z.of_nat k) (seq 0 (Z.to_nat (b - a + 1))).

Definition paginationItems (st : ViewState) : list pageItem :=
  let totalPages := Z.of_nat (totalPages st) in
  let currentPage := Z.of_nat (currentPage st) in
  if totalPages <=? 1 then [] else
  let maxVisiblePages := 5 in
  let startPage := Z.max 1 (currentPage - maxVisiblePages / 2) in
  let endPage := Z.min totalPages (startPage + maxVisiblePages - 1) in
  let startPage :=
    if endPage - startPage + 1 <? maxVisiblePages
    then Z.max 1 (endPage - maxVisiblePages + 1) else startPage in
  [NavButton (currentPage =? 1) (currentPage - 1) 9664%N]
  ++ (if 1 <? startPage
      then EndButton 1 :: (if 2 <? startPage then [PageEllipsis] else [])
      else [])
  ++ map (fun i => WindowButton (i =? currentPage) i) (zrange startPage endPage)
  ++ (if endPage <? totalPages
      then (if endPage <? totalPages - 1 then [PageEllipsis] else []) ++ [EndButton totalPages]
      else [])
  ++ [NavButton (currentPage =? totalPages) (currentPage + 1) 9654%N;
      PageInfo currentPage totalPages].

Definition itemHtml (it : pageItem) : jstr :=
  match it with
  | NavButton d p a =>
      u "<button " ++ (if d then u "disabled" else []) ++ q " data-page='" ++ numToString p
      ++ q "'>" ++ [a] ++ u "</button>"
  | EndButton p =>
      q "<button data-page='" ++ numToString p ++ q "'>" ++ numToString p ++ u "</button>"
  | WindowButton act p =>
      q "<button class='" ++ (if act then u "active" else []) ++ q "' data-page='"
      ++ numToString p ++ q "'>" ++ numToString p ++ u "</button>"
  | PageEllipsis => q "<span class='page-info'>...</span>"
  | PageInfo c t =>
      q "<span class='page-info'>" ++ numToString c ++ u " / " ++ numToString t ++ u "</span>"
  end.

(** [renderPagination]: the HTML it assigns. *)
Definition renderPagination (st : ViewState) : jstr :=
  List.concat (map itemHtml (paginationItems st)).

(** The number in the [data-page] attribute of a button that receives
    clicks (a [disabled] button receives none). *)
Definition buttonPage (it : pageItem) : option Z :=
  match it with
  | NavButton false p _ | EndButton p | WindowButton _ p => Some p
  | _ => None
  end.

(** The click listener of a pagination button:
    [page = parseInt(btn.dataset.page)], then the test of [goToPage]
    (NaN is falsy; an infinite [page] fails [page >= 1] or
    [page <= totalPages]). *)
Definition clickItem (st : ViewState) (it : pageItem) : ViewState :=
  match buttonPage it with
  | Some p =>
      match parseInt (numToString p) with
      | Some (Fin page) => goToPage st (Z.to_nat page)
      | _ => st
      end
  | None => st
  end.

(** [renderRules] renders the pagination only when the page is not empty. *)
Definition renderedItems (st : ViewState) : list pageItem :=
  match pageRules st with [] => [] | _ => paginationItems st end.

(** The states the viewer goes through: [loadRules], then any sequence of
    [applyFilters] (a checkbox change or the search input) and clicks on
    rendered pagination buttons. *)
Inductive reachable (toLowerCase : jstr -> jstr) (rules : list ViewerRule) : ViewState -> Prop :=
| reach_load : reachable toLowerCase rules {| filteredRules := rules; currentPage := 1 |}
| reach_filter st f : reachable toLowerCase rules st ->
    reachable toLowerCase rules (applyFilters toLowerCase rules f)
| reach_click st it : reachable toLowerCase rules st -> In it (renderedItems st) ->
    reachable toLowerCase rules (clickItem st it).

(** The shape of the strip between the two arrow buttons, after the
    numbered button of page [prev] ([prev = 0]: no button yet): numbered
    buttons in ascending order up to [total], from page [prev + 1] on, with
    an ellipsis exactly between two numbered buttons whose pages are not
    adjacent (so never before the first numbered button). *)
Definition numberedPage (it : pageItem) : option Z :=
  match it with EndButton p | WindowButton _ p => Some p | _ => None end.

Fixpoint stripOk (total prev : Z) (l : list pageItem) : bool :=
  match l with
  | [] => prev =? total
  | PageEllipsis :: l' =>
      match l' with
      | it :: l'' =>
          match numberedPage it with
          | Some p => (0 <? prev) && (prev + 1 <? p) && stripOk total p l''
          | None => false
          end
      | [] => false
      end
  | it :: l' =>
      match numberedPage it with
      | Some p => (p =? prev + 1) && stripOk total p l'
      | None => false
      end
  end.

Definition windowPages (l : list pageItem) : list Z :=
  flat_map (fun it => match it with WindowButton _ p => [p] | _ => [] end) l.

Definition activePages (l : list pageItem) : list Z :=
  flat_map (fun it => match it with WindowButton true p => [p] | _ => [] end) l.

(* ------------------------------------------------------------------ *)
(** ** Viewer: filter counts *)

(** [Object.keys(categoryNames)] *)
Definition categoryKeys : list jstr :=
  map u ["bestpractices"; "codestyle"; "design"; "documentation"; "errorprone";
         "multithreading"; "performance"; "security"]%string.

(** [counts[k] || 0]: the counts held are finite numbers. *)
Definition countValue (o : list (jstr * jval)) (k : jstr) : Z :=
  match objGet k o with Some (JNum (Fin n)) => n | _ => 0 end.

(** [counts[k] = (counts[k] || 0) + 1] *)
Definition bumpCount (k : jstr) (o : list (jstr * jval)) : list (jstr * jval) :=
  objSet k (JNum (Fin (countValue o k + 1))) o.

(** The body of [rules.forEach] in [updateCounts]; a number used as a
    property key is converted by [String]. *)
Definition countStep (categories priorities : list jstr)
    (acc : list (jstr * jval) * list (jstr * jval)) (rule : ViewerRule)
    : list (jstr * jval) * list (jstr * jval) :=
  let '(categoryCounts, priorityCounts) := acc in
  let categoryCounts :=
    if isEmpty priorities || memJ (numString (vPriority rule)) priorities
    then bumpCount (vCategory rule) categoryCounts else categoryCounts in
  let priorityCounts :=
    if isEmpty categories || memJ (vCategory rule) categories
    then bumpCount (numString (vPriority rule)) priorityCounts else priorityCounts in
  (categoryCounts, priorityCounts).

(** [updateCounts]: the numbers written into [count-<cat>] for the keys of
    [categoryNames] and into [count-p1] ... [count-p5]. *)
Definition updateCounts (rules : list ViewerRule) (f : Filters) : list Z * list Z :=
  let '(categoryCounts, priorityCounts) :=
    fold_left (countStep (fCategories f) (fPriorities f)) rules ([], []) in
  (map (countValue categoryCounts) categoryKeys,
   map (fun p => countValue priorityCounts (numString (Fin p))) [1; 2; 3; 4; 5]).

(* ------------------------------------------------------------------ *)
(** ** Viewer: rule details *)

(** [escapeHtml]: [div.textContent = text] then [div.innerHTML].  The
    fragment serialization of a [div] whose only child is a text node
    escapes [&], U+00A0, [<] and [>] and copies every other unit. *)
Definition escapeHtmlUnit (c : N) : jstr :=
  if (c =? ch "&")%N then u "&amp;"
  else if (c =? 160)%N then u "&nbsp;"
  else if (c =? ch "<")%N then u "&lt;"
  else if (c =? ch ">")%N then u "&gt;"
  else [c].

Definition escapeHtml (text : jstr) : jstr :=
  if isEmpty text then [] else flat_map escapeHtmlUnit text.

(** The four character references [escapeHtml] writes, read back. *)
Definition entityAfterAmp (t : jstr) : option (N * jstr) :=
  match stripLit (u "amp;") t with
  | Some r => Some (ch "&", r)
  | None =>
      match stripLit (u "nbsp;") t with
      | Some r => Some (160%N, r)
      | None =>
          match stripLit (u "lt;") t with
          | Some r => Some (ch "<", r)
          | None =>
              match stripLit (u "gt;") t with
              | Some r => Some (ch ">", r)
              | None => None
              end
          end
      end
  end.

Fixpoint unescapeAux (n : nat) (s : jstr) : jstr :=
  match n with
  | O => s
  | S n' =>
      match s with
      | [] => []
      | c :: t =>
          if (c =? ch "&")%N then
            match entityAfterAmp t with
            | Some (d, r) => d :: unescapeAux n' r
            | None => c :: unescapeAux n' t
            end
          else c :: unescapeAux n' t
      end
  end.

Definition unescapeHtml (s : jstr) : jstr := unescapeAux (List.length s) s.

(** [Array.prototype.join(sep)] *)
Fixpoint joinJ (sep : jstr) (l : list jstr) : jstr :=
  match l with
  | [] => []
  | [x] => x
  | x :: l' => x ++ sep ++ joinJ sep l'
  end.

(** [examplesHtml] of [selectRule]: one [<pre><code>] block per example,
    or the "no example code" paragraph. *)
Definition examplesHtml (examples : list jstr) : jstr :=
  if Nat.ltb 0 (List.length examples)
  then joinJ nl (map (fun ex => q "<pre><code class='language-java'>" ++ escapeHtml ex
                                 ++ u "</code></pre>") examples)
  else u "<p>" ++ [50696; 51228; 32; 53076; 46300; 44032; 32; 50630; 49845; 45768; 45796; ch "."]%N
       ++ u "</p>".

(* ------------------------------------------------------------------ *)
(** ** Round trip through the data module: definitions *)

(** What [JSON.stringify] followed by [JSON.parse] makes of a value:
    infinite numbers are written as [null]. *)
Fixpoint normalize (v : jval) : jval :=
  match v with
  | JNum (Fin z) => JNum (Fin z)
  | JNum _ => JNull
  | JArr l => JArr (map normalize l)
  | JObj o => JObj (map (fun p => (fst p, normalize (snd p))) o)
  | _ => v
  end.

(** Property keys that are not array indices. *)
Definition noIndex (ks : list jstr) : bool :=
  forallb (fun k => match arrayIndex k with Some _ => false | None => true end) ks.

(** The key order of an ordinary object: array-index keys first, ascending
    (each at least [lo]), then the other keys. *)
Fixpoint idxOrd (lo : Z) (ks : list jstr) : bool :=
  match ks with
  | [] => true
  | k :: ks' =>
      match arrayIndex k with
      | Some i => (lo <=? i) && idxOrd i ks'
      | None => noIndex ks'
      end
  end.

Fixpoint nodupb (ks : list jstr) : bool :=
  match ks with
  | [] => true
  | k :: ks' => negb (memJ k ks') && nodupb ks'
  end.

Definition canonKeys (ks : list jstr) : bool := nodupb ks && idxOrd 0 ks.

(** A value that an ordinary JavaScript object graph can hold: finite numbers
    are doubles, object keys are distinct and in property order. *)
Fixpoint wfb (v : jval) : bool :=
  match v with
  | JNum (Fin z) => jsnum_eqb (numberValue z) (Fin z)
  | JArr l => forallb wfb l
  | JObj o => canonKeys (map fst o) && forallb (fun p => wfb (snd p)) o
  | _ => true
  end.

Fixpoint jsize (v : jval) : nat :=
  match v with
  | JArr l => S (list_sum (map (fun x => S (jsize x)) l))
  | JObj o => S (list_sum (map (fun p => S (jsize (snd p))) o))
  | _ => 1%nat
  end.

(** A field of a record: [r[k]] for an object [r]. *)
Definition fieldJ (k : jstr) (v : jval) : option jval :=
  match v with JObj o => objGet k o | _ => None end.

(* ------------------------------------------------------------------ *)
(** ** Sample inputs *)

(** A rule whose attribute string has no [name] attribute, only [xname]. *)
Definition xnameDoc : jstr :=
  q "<ruleset name='R'><rule xname='Foo' class='X'><description>d</description></rule></ruleset>".

(** A rule declaring a self-closing property and then a property with a
    nested [<value>] element. *)
Definition propDoc : jstr :=
  q "<ruleset name='R'><rule name='A'><description>d</description><properties><property name='version' value='2.0'/><property name='minimum'><value>3</value></property></properties></rule></ruleset>".

(** A rule with priority 7. *)
Definition prio7Doc : jstr :=
  q "<ruleset name='R'><rule name='A'><description>d</description><priority>7</priority></rule></ruleset>".

(** The field [k] of an object. *)
Definition fieldOf (k : string) (v : jval) : option jval :=
  match v with JObj o => objGet (u k) o | _ => None end.

Definition objKeys (v : jval) : list jstr :=
  match v with JObj o => map fst o | _ => [] end.

(** [t] occurs in [s]. *)
Definition substringOf (t s : jstr) : Prop := exists a b, s = a ++ t ++ b.

(** Comparison of code-unit sequences, a [localeCompare] of the C locale. *)
Fixpoint codeUnitCompare (a b : jstr) : Z :=
  match a, b with
  | [], [] => 0
  | [], _ :: _ => -1
  | _ :: _, [] => 1
  | x :: a', y :: b' =>
      if (x <? y)%N then -1 else if (y <? x)%N then 1 else codeUnitCompare a' b'
  end.

(** The sort key of a record. *)
Definition ruleKey (r : RuleRecord) : jstr * jsnum * jstr := (category r, priority r, name r).

(** [a] and [b] have the same category, priority and name. *)
Definition sameKey (a b : RuleRecord) : bool :=
  jstr_eqb (category a) (category b) && jsnum_eqb (priority a) (priority b)
  && jstr_eqb (name a) (name b).

(** Two rules of one file with the same name and priority. *)
Definition tieDocAB : jstr :=
  q "<ruleset name='R'><rule name='A' since='1'><priority>2</priority></rule><rule name='A' since='2'><priority>2</priority></rule></ruleset>".
Definition tieDocBA : jstr :=
  q "<ruleset name='R'><rule name='A' since='2'><priority>2</priority></rule><rule name='A' since='1'><priority>2</priority></rule></ruleset>".

(** The records of those two rules. *)
Definition tieRule (since : string) : RuleRecord :=
  {| name := u "A"; category := u "design"; categoryName := u "R"; since := u since;
     message := []; ruleClass := []; externalInfoUrl := []; description := [];
     priority := Fin 2; examples := []; properties := []; maxLangVersion := [];
     minLangVersion := [] |}.

(** Two design files with rules of distinct keys. *)
Definition sampleFiles : list (jstr * jstr) :=
  [(u "design_ko.xml",
    q "<ruleset name='D'><rule name='B'><priority>1</priority></rule><rule name='A'><priority>3</priority></rule></ruleset>");
   (u "notes.txt", []);
   (u "codestyle_ko.xml",
    q "<ruleset name='C'><rule name='Z'><priority>2</priority></rule></ruleset>")].

(** A design file with one rule whose priority is a run of 400 nines. *)
Definition bigPrioFiles : list (jstr * jstr) :=
  [(u "design_ko.xml",
    q "<ruleset name='D'><rule name='Big'><priority>" ++ repeat (ch "9") 400
      ++ q "</priority></rule></ruleset>")].

(** The table of the annotator samples: only [A] has an entry. *)
Definition sampleTierMap (s : jstr) : option TierInfo :=
  if jstr_eqb s (u "A") then Some {| tier := Tier1; claude_comment := u "core" |} else None.

(** A data module with records named [A] and [B]. *)
Definition sampleModuleAB : jstr :=
  modulePrefix ++ nl ++ q "[{'name': 'A', 'priority': 1}, {'name': 'B', 'priority': 2}]" ++ u ";" ++ nl.

(** A data module whose only record is named [A]. *)
Definition sampleModuleA : jstr :=
  modulePrefix ++ nl ++ q "[{'name': 'A', 'priority': 1}]" ++ u ";" ++ nl.

(** A table with an entry for every name. *)
Definition allTiers (s : jstr) : option TierInfo :=
  Some {| tier := Tier2; claude_comment := u "c" |}.

(** The file the annotator writes for [sampleModuleA]. *)
Definition annotatedA : jstr :=
  renderModule (JArr [JObj [(u "name", JStr (u "A")); (u "priority", JNum (Fin 1));
                            (u "tier", JNum (Fin 1)); (u "claude_comment", JStr (u "core"))]]).

(** A viewer record of category [design] and priority 3. *)
Definition viewerRuleD : ViewerRule :=
  {| vName := u "A"; vCategory := u "design"; vCategoryName := u "D";
     vMessage := u "m"; vDescription := u "d"; vPriority := Fin 3 |}.

(** 150 records (8 pages), page 5 shown. *)
Definition page5State : ViewState :=
  {| filteredRules := repeat viewerRuleD 150; currentPage := 5 |}.

(** 45 records (3 pages). *)
Definition rules45 : list ViewerRule := repeat viewerRuleD 45.

(** Priority 3 checked, a search box holding only spaces. *)
Definition blankFilters : Filters :=
  {| fCategories := []; fPriorities := [u "3"]; searchValue := u "  " |}.

(** A one-record array. *)
Definition sampleArray : jval := JArr [JObj [(u "name", JStr (u "A"))]].

(* ------------------------------------------------------------------ *)
(** ** Rule parser: structure of the emitted records *)

Lemma in_parseXmlFile : forall xml cat r, In r (parseXmlFile xml cat) ->
  exists attrs body, In (attrs, body) (ruleBlocks xml) /\
    buildRule (rulesetNameOf xml cat) cat attrs body = Some r.
Proof.
  unfold parseXmlFile; intros xml cat r H.
  apply in_flat_map in H as [[attrs body] [Hin Hr]]; simpl in Hr.
  destruct (buildRule _ _ attrs body) eqn:E; [|contradiction].
  destruct Hr as [<-|[]]. eauto.
Qed.

Lemma buildRule_Some : forall rn cat attrs body r,
  buildRule rn cat attrs body = Some r ->
  regexTest false refRe attrs = false /\ isEmpty (extractAttr attrs "name") = false /\
  r = {|
    name := extractAttr attrs "name";
    category := cat;
    categoryName := rn;
    since := extractAttr attrs "since";
    message := extractAttr attrs "message";
    ruleClass := extractAttr attrs "class";
    externalInfoUrl := replaceGlobal false baseUrlRe (u "https://docs.pmd-code.org/latest")
                         (extractAttr attrs "externalInfoUrl");
    description := extractFirstElement body "description";
    priority := orThree (parseInt (extractFirstElement body "priority"));
    examples := extractExamples body;
    properties := extractProperties body;
    maxLangVersion := extractAttr attrs "maximumLanguageVersion";
    minLangVersion := extractAttr attrs "minimumLanguageVersion" |}.
Proof.
  unfold buildRule; intros rn cat attrs body r H.
  destruct (regexTest false refRe attrs); [discriminate|].
  destruct (isEmpty (extractAttr attrs "name")); [discriminate|].
  injection H as <-. auto.
Qed.

(** Every emitted record comes from a block without a [\bref\s*=] match
    and has a non-empty name. *)
Lemma parseXmlFile_name_ref : forall xml cat r, In r (parseXmlFile xml cat) ->
  exists attrs body, In (attrs, body) (ruleBlocks xml) /\
    regexTest false refRe attrs = false /\ name r = extractAttr attrs "name" /\ name r <> [].
Proof.
  intros xml cat r H.
  destruct (in_parseXmlFile _ _ _ H) as (attrs & body & Hin & Hb).
  destruct (buildRule_Some _ _ _ _ _ Hb) as (Href & Hn & ->).
  exists attrs, body; simpl; repeat split; auto.
  intro E; rewrite E in Hn; discriminate.
Qed.

Lemma extractAttr_none : forall attrs nm,
  execFrom true (attrRe nm) attrs 0 = None -> extractAttr attrs nm = [].
Proof. intros attrs nm H; unfold extractAttr; rewrite H; reflexivity. Qed.

Lemma extractFirstElement_none : forall body tag,
  execFrom true (elementRe tag) body 0 = None -> extractFirstElement body tag = [].
Proof. intros body tag H; unfold extractFirstElement; rewrite H; reflexivity. Qed.

Lemma jstr_eqb_spec : forall a b, jstr_eqb a b = true <-> a = b.
Proof.
  intros a b; unfold jstr_eqb; destruct (list_eq_dec N.eq_dec a b); split; congruence.
Qed.

Lemma memJ_In : forall x l, memJ x l = true <-> In x l.
Proof.
  intros x l; unfold memJ; rewrite existsb_exists; split.
  - intros (y & Hy & E); apply jstr_eqb_spec in E; subst; auto.
  - intros H; exists x; split; auto; apply jstr_eqb_spec; auto.
Qed.

Lemma isPrefix_spec : forall p s, isPrefix p s = true <-> exists b, s = p ++ b.
Proof.
  induction p as [|a p IH]; intros s; simpl.
  - split; eauto.
  - destruct s as [|c s].
    + split; [discriminate | intros (b & E); discriminate].
    + rewrite andb_true_iff, N.eqb_eq, IH; split.
      * intros (-> & b & ->); eauto.
      * intros (b & E); injection E as -> ->; eauto.
Qed.

Lemma includes_spec : forall s t, includes s t = true <-> substringOf t s.
Proof.
  unfold substringOf; induction s as [|c s IH]; intros t; simpl.
  - rewrite orb_false_r, isPrefix_spec; split.
    + intros (b & E); exists [], b; auto.
    + intros (a & b & E); destruct a; [simpl in E; eauto | discriminate].
  - rewrite orb_true_iff, isPrefix_spec, IH; split.
    + intros [(b & E) | (a & b & E)].
      * exists [], b; auto.
      * exists (c :: a), b; rewrite E; reflexivity.
    + intros (a & b & E); destruct a as [|c' a].
      * left; eauto.
      * injection E as -> E; right; eauto.
Qed.

Lemma isEmpty_true : forall {A} (l : list A), isEmpty l = true <-> l = [].
Proof. intros A [|x l]; simpl; split; congruence. Qed.

Lemma pages_concat : forall (L : list ViewerRule) n k,
  (List.length L <= (k + n) * RULES_PER_PAGE)%nat ->
  List.concat (map (fun p => pageRules {| filteredRules := L; currentPage := p |})
                 (seq (S k) n))
  = skipn (k * RULES_PER_PAGE) L.
Proof.
  intros L n; induction n as [|n IH]; intros k H; simpl.
  - rewrite Nat.add_0_r in H; symmetry; apply skipn_all2; exact H.
  - unfold pageRules at 1; simpl currentPage; simpl filteredRules.
    replace (S k - 1)%nat with k by lia.
    rewrite IH by (rewrite <- Nat.add_succ_comm in H; exact H).
    replace (S k * RULES_PER_PAGE)%nat with (RULES_PER_PAGE + k * RULES_PER_PAGE)%nat
      by (simpl; lia).
    rewrite <- skipn_skipn, firstn_skipn; reflexivity.
Qed.

Lemma totalPages_cover : forall st,
  (List.length (filteredRules st) <= totalPages st * RULES_PER_PAGE)%nat.
Proof.
  intros st; unfold totalPages, RULES_PER_PAGE.
  set (n := List.length (filteredRules st)).
  pose proof (Nat.div_mod (n + 20 - 1) 20 ltac:(lia)).
  pose proof (Nat.mod_upper_bound (n + 20 - 1) 20 ltac:(lia)).
  lia.
Qed.

Lemma pageRules_length : forall st, (List.length (pageRules st) <= RULES_PER_PAGE)%nat.
Proof. intros st; unfold pageRules; apply firstn_le_length. Qed.

(** Text whose first non-blank unit is neither a decimal digit nor a sign is
    NaN for [parseInt]. *)
Lemma parseInt_nondigit : forall t c rest,
  dropWs t = c :: rest -> isRadixDigit 10 c = false -> c <> ch "-" -> c <> ch "+" ->
  parseInt t = None.
Proof.
  intros t c rest Hd Hc Hm Hp; unfold parseInt; rewrite Hd.
  apply N.eqb_neq in Hm; apply N.eqb_neq in Hp; rewrite Hm, Hp.
  assert (H0 : (c =? ch "0")%N = false).
  { apply N.eqb_neq; intros ->; discriminate. }
  destruct rest as [|c1 rest]; [simpl; rewrite Hc; reflexivity|].
  rewrite H0; simpl; rewrite Hc; reflexivity.
Qed.

Lemma orThree_cases : forall n,
  (n = None -> orThree n = Fin 3) /\ (n = Some (Fin 0) -> orThree n = Fin 3) /\
  (forall v, n = Some v -> v <> Fin 0 -> orThree n = v).
Proof.
  intros n; repeat split; intros; subst; try reflexivity.
  destruct v as [[|z|z]| |]; simpl; congruence.
Qed.

(* ------------------------------------------------------------------ *)
(** ** The builder's sort *)

Lemma numCompare_anti : forall x y, numCompare x y = - numCompare y x.
Proof.
  intros [x| |] [y| |]; simpl; try reflexivity.
  rewrite <- Z.sgn_opp; f_equal; lia.
Qed.

Lemma numCompare_refl : forall x, numCompare x x = 0.
Proof. intros [x| |]; simpl; try reflexivity; rewrite Z.sub_diag; reflexivity. Qed.

Lemma numCompare_zero : forall x y, numCompare x y = 0 -> x = y.
Proof.
  intros [x| |] [y| |]; simpl; try discriminate; try reflexivity.
  intros H; apply Z.sgn_null_iff in H; f_equal; lia.
Qed.

Lemma numCompare_trans : forall x y z,
  numCompare x y < 0 -> numCompare y z < 0 -> numCompare x z < 0.
Proof.
  intros [x| |] [y| |] [z| |]; simpl; lia.
Qed.

Lemma jsnum_eqb_spec : forall x y, jsnum_eqb x y = true <-> x = y.
Proof.
  intros [x| |] [y| |]; simpl; split; intros H; try discriminate; try congruence.
  - apply Z.eqb_eq in H; congruence.
  - injection H as ->; apply Z.eqb_refl.
Qed.

Lemma jstr_eqb_sym : forall a b, jstr_eqb a b = jstr_eqb b a.
Proof.
  intros a b; destruct (jstr_eqb a b) eqn:E, (jstr_eqb b a) eqn:E'; auto;
    [apply jstr_eqb_spec in E | apply jstr_eqb_spec in E']; subst;
    rewrite (proj2 (jstr_eqb_spec _ _) eq_refl) in *; congruence.
Qed.

Lemma jsnum_eqb_sym : forall a b, jsnum_eqb a b = jsnum_eqb b a.
Proof.
  intros a b; destruct (jsnum_eqb a b) eqn:E, (jsnum_eqb b a) eqn:E'; auto;
    [apply jsnum_eqb_spec in E | apply jsnum_eqb_spec in E']; subst;
    rewrite (proj2 (jsnum_eqb_spec _ _) eq_refl) in *; congruence.
Qed.

Section SortOrder.

Variable lc : jstr -> jstr -> Z.
Hypothesis lc_eq : forall a b, lc a b = 0 <-> a = b.
Hypothesis lc_anti : forall a b, lc a b < 0 <-> 0 < lc b a.
Hypothesis lc_trans : forall a b c, lc a b < 0 -> lc b c < 0 -> lc a c < 0.

Lemma lc_refl : forall a, lc a a = 0.
Proof. intros a; apply lc_eq; reflexivity. Qed.

(** The comparator read as the lexicographic order of the keys. *)
Lemma compareRules_lt : forall a b,
  compareRules lc a b < 0 <->
  lc (category a) (category b) < 0
  \/ (category a = category b /\ numCompare (priority a) (priority b) < 0)
  \/ (category a = category b /\ priority a = priority b /\ lc (name a) (name b) < 0).
Proof.
  intros a b; unfold compareRules.
  destruct (jstr_eqb (category a) (category b)) eqn:Ec; simpl.
  - apply jstr_eqb_spec in Ec; rewrite Ec, lc_refl.
    destruct (jsnum_eqb (priority a) (priority b)) eqn:Ep; simpl.
    + apply jsnum_eqb_spec in Ep; rewrite Ep, numCompare_refl; intuition lia.
    + assert (priority a <> priority b) by (intros E; apply jsnum_eqb_spec in E; congruence).
      intuition lia.
  - assert (category a <> category b) by (intros E; apply jstr_eqb_spec in E; congruence).
    intuition.
Qed.

Lemma compareRules_anti : forall a b, compareRules lc a b < 0 <-> 0 < compareRules lc b a.
Proof.
  intros a b; unfold compareRules.
  rewrite (jstr_eqb_sym (category b)), (jsnum_eqb_sym (priority b)).
  destruct (jstr_eqb (category a) (category b)); simpl; [|apply lc_anti].
  destruct (jsnum_eqb (priority a) (priority b)); simpl; [apply lc_anti|].
  rewrite (numCompare_anti (priority b)); lia.
Qed.

Lemma compareRules_zero : forall a b, compareRules lc a b = 0 -> ruleKey a = ruleKey b.
Proof.
  intros a b; unfold compareRules, ruleKey.
  destruct (jstr_eqb (category a) (category b)) eqn:Ec; simpl.
  - apply jstr_eqb_spec in Ec; rewrite Ec.
    destruct (jsnum_eqb (priority a) (priority b)) eqn:Ep; simpl.
    + apply jsnum_eqb_spec in Ep; rewrite Ep; intros H; apply lc_eq in H; rewrite H; reflexivity.
    + intros H; apply numCompare_zero in H; apply jsnum_eqb_spec in H; congruence.
  - intros H; apply lc_eq in H; apply jstr_eqb_spec in H; congruence.
Qed.

Lemma compareRules_key : forall a a' b b', ruleKey a = ruleKey a' -> ruleKey b = ruleKey b' ->
  compareRules lc a b = compareRules lc a' b'.
Proof.
  unfold ruleKey, compareRules; intros a a' b b' Ha Hb.
  injection Ha as Ha1 Ha2 Ha3; injection Hb as Hb1 Hb2 Hb3.
  rewrite Ha1, Ha2, Ha3, Hb1, Hb2, Hb3; reflexivity.
Qed.

Lemma compareRules_refl : forall a, compareRules lc a a = 0.
Proof.
  intros a; unfold compareRules.
  rewrite (proj2 (jstr_eqb_spec _ _) eq_refl), (proj2 (jsnum_eqb_spec _ _) eq_refl).
  apply lc_refl.
Qed.

Lemma compareRules_trans_lt : forall a b c,
  compareRules lc a b < 0 -> compareRules lc b c < 0 -> compareRules lc a c < 0.
Proof.
  intros a b c; rewrite !compareRules_lt.
  intros [H1|[(E1 & H1)|(E1 & P1 & H1)]] [H2|[(E2 & H2)|(E2 & P2 & H2)]];
    try rewrite <- E1 in *; try rewrite <- E2 in *; try rewrite <- P1 in *;
    try rewrite <- P2 in *; eauto 6 using numCompare_trans.
Qed.

Lemma compareRules_trans_le : forall a b c,
  compareRules lc a b <= 0 -> compareRules lc b c <= 0 -> compareRules lc a c <= 0.
Proof.
  intros a b c H1 H2.
  destruct (Z.lt_ge_cases (compareRules lc a b) 0) as [L1|L1];
  destruct (Z.lt_ge_cases (compareRules lc b c) 0) as [L2|L2].
  - pose proof (compareRules_trans_lt _ _ _ L1 L2); lia.
  - assert (E : ruleKey b = ruleKey c) by (apply compareRules_zero; lia).
    rewrite (compareRules_key a a c b eq_refl (eq_sym E)); lia.
  - assert (E : ruleKey a = ruleKey b) by (apply compareRules_zero; lia).
    rewrite (compareRules_key a b c c E eq_refl); lia.
  - assert (E1 : ruleKey a = ruleKey b) by (apply compareRules_zero; lia).
    assert (E2 : ruleKey b = ruleKey c) by (apply compareRules_zero; lia).
    rewrite (compareRules_key a c c c (eq_trans E1 E2) eq_refl), compareRules_refl; lia.
Qed.

Definition ruleLe (a b : RuleRecord) : Prop := compareRules lc a b <= 0.
Definition ruleLt (a b : RuleRecord) : Prop := compareRules lc a b < 0.

Lemma insertSorted_perm : forall x l, Permutation (insertSorted lc x l) (x :: l).
Proof.
  intros x l; induction l as [|y l IH]; simpl; [auto|].
  destruct (compareRules lc x y <? 0); [auto|].
  rewrite IH; apply perm_swap.
Qed.

Lemma sortRules_perm_acc : forall l acc,
  Permutation (fold_left (fun acc x => insertSorted lc x acc) l acc) (l ++ acc).
Proof.
  induction l as [|x l IH]; intros acc; simpl; [auto|].
  rewrite IH, insertSorted_perm; symmetry; apply Permutation_middle.
Qed.

Lemma sortRules_perm : forall l, Permutation (sortRules lc l) l.
Proof.
  intros l; unfold sortRules; rewrite sortRules_perm_acc, app_nil_r; reflexivity.
Qed.

Lemma insertSorted_sorted : forall x l, Sorted ruleLe l -> Sorted ruleLe (insertSorted lc x l).
Proof.
  intros x l; induction l as [|y l IH]; intros Hs; simpl; [auto|].
  destruct (compareRules lc x y <? 0) eqn:E.
  - apply Z.ltb_lt in E; constructor; [exact Hs | constructor; unfold ruleLe; lia].
  - apply Z.ltb_ge in E.
    assert (Hyx : ruleLe y x).
    { unfold ruleLe; destruct (Z.le_gt_cases (compareRules lc y x) 0) as [|G]; [auto|].
      apply compareRules_anti in G; lia. }
    apply Sorted_inv in Hs as (Hs & Hh).
    constructor; [apply IH; exact Hs|].
    destruct l as [|z l]; simpl; [constructor; exact Hyx|].
    destruct (compareRules lc x z <? 0); constructor; [exact Hyx|].
    inversion Hh; assumption.
Qed.

Lemma sortRules_sorted : forall l, Sorted ruleLe (sortRules lc l).
Proof.
  intros l; unfold sortRules.
  assert (G : forall acc, Sorted ruleLe acc ->
            Sorted ruleLe (fold_left (fun acc x => insertSorted lc x acc) l acc)).
  { induction l as [|x l IH]; intros acc H; simpl; [exact H|].
    apply IH, insertSorted_sorted, H. }
  apply G; constructor.
Qed.

Lemma strongly_sorted_lt : forall l, StronglySorted ruleLe l -> NoDup (map ruleKey l) ->
  StronglySorted ruleLt l.
Proof.
  induction l as [|a l IH]; intros Hs Hn; [constructor|].
  apply StronglySorted_inv in Hs as (Hs & Hf); simpl in Hn; apply NoDup_cons_iff in Hn as (Hn1 & Hn2).
  constructor; [apply IH; auto|].
  rewrite Forall_forall in *; intros b Hb; specialize (Hf b Hb); unfold ruleLe, ruleLt in *.
  destruct (Z.lt_ge_cases (compareRules lc a b) 0) as [|G]; [auto|].
  exfalso; apply Hn1; rewrite (compareRules_zero a b ltac:(lia)); apply in_map; exact Hb.
Qed.

Lemma strongly_sorted_unique : forall l1 l2,
  StronglySorted ruleLt l1 -> StronglySorted ruleLt l2 -> Permutation l1 l2 -> l1 = l2.
Proof.
  induction l1 as [|a l1 IH]; intros l2 H1 H2 P.
  - symmetry; apply Permutation_nil, P.
  - destruct l2 as [|b l2]; [apply Permutation_sym, Permutation_nil in P; discriminate|].
    apply StronglySorted_inv in H1 as (H1 & F1); apply StronglySorted_inv in H2 as (H2 & F2).
    assert (Hab : a = b).
    { assert (Ia : In a (b :: l2)) by (apply (Permutation_in _ P); left; reflexivity).
      assert (Ib : In b (a :: l1)) by (apply (Permutation_in _ (Permutation_sym P)); left; reflexivity).
      destruct Ia as [<-|Ia]; [reflexivity|]; destruct Ib as [->|Ib]; [reflexivity|].
      rewrite Forall_forall in F1, F2; specialize (F1 b Ib); specialize (F2 a Ia).
      unfold ruleLt in *; apply compareRules_anti in F1; lia. }
    subst b; f_equal; apply IH; auto; apply Permutation_cons_inv in P; exact P.
Qed.

Lemma sortRules_unique : forall l1 l2, Permutation l1 l2 -> NoDup (map ruleKey l1) ->
  sortRules lc l1 = sortRules lc l2.
Proof.
  intros l1 l2 P N.
  assert (T : forall a b c, ruleLe a b -> ruleLe b c -> ruleLe a c)
    by (unfold ruleLe; apply compareRules_trans_le).
  assert (S : forall l, NoDup (map ruleKey l) -> StronglySorted ruleLt (sortRules lc l)).
  { intros l Nl; apply strongly_sorted_lt.
    - apply Sorted_StronglySorted; [exact T | apply sortRules_sorted].
    - apply (Permutation_NoDup (Permutation_map _ (Permutation_sym (sortRules_perm l)))), Nl. }
  apply strongly_sorted_unique.
  - apply S, N.
  - apply S, (Permutation_NoDup (Permutation_map _ P)), N.
  - rewrite !sortRules_perm; exact P.
Qed.

Lemma sameKey_spec : forall a b, sameKey a b = true <-> ruleKey a = ruleKey b.
Proof.
  intros a b; unfold sameKey, ruleKey; rewrite !andb_true_iff, !jstr_eqb_spec, jsnum_eqb_spec.
  split; [intros ((E1 & E2) & E3); rewrite E1, E2, E3; reflexivity|].
  intros E; injection E as E1 E2 E3; auto.
Qed.

Lemma filter_none : forall {A} (f : A -> bool) l, (forall x, In x l -> f x = false) -> filter f l = [].
Proof.
  intros A f l; induction l as [|x l IH]; intros H; [reflexivity|].
  cbn [filter]; rewrite (H x (or_introl eq_refl)); apply IH; intros y Hy; apply H; right; exact Hy.
Qed.

(** Inserting [x] into a sorted list puts it after every record of its key. *)
Lemma insertSorted_filter : forall k x l, StronglySorted ruleLe l ->
  filter (sameKey k) (insertSorted lc x l)
  = filter (sameKey k) l ++ (if sameKey k x then [x] else []).
Proof.
  intros k x l; induction l as [|y l IH]; intros Hs; [reflexivity|].
  apply StronglySorted_inv in Hs as (Hs & Hf).
  cbn [insertSorted]; destruct (compareRules lc x y <? 0) eqn:E.
  - apply Z.ltb_lt in E.
    assert (F : filter (sameKey k) (x :: y :: l)
                = (if sameKey k x then [x] else []) ++ filter (sameKey k) (y :: l))
      by (cbn [filter]; destruct (sameKey k x); reflexivity).
    rewrite F; destruct (sameKey k x) eqn:Kx; [|rewrite app_nil_r; reflexivity].
    rewrite (filter_none (sameKey k) (y :: l)); [reflexivity|].
    intros z Hz; destruct (sameKey k z) eqn:Kz; [exfalso|reflexivity].
    apply sameKey_spec in Kx, Kz.
    assert (Hyz : ruleLe y z)
      by (destruct Hz as [<-|Hz]; [unfold ruleLe; rewrite compareRules_refl; lia
                                  |rewrite Forall_forall in Hf; apply Hf, Hz]).
    unfold ruleLe in Hyz.
    rewrite (compareRules_key x z y y (eq_trans (eq_sym Kx) Kz) eq_refl) in E.
    apply compareRules_anti in E; lia.
  - cbn [filter]; rewrite IH by exact Hs.
    destruct (sameKey k y); reflexivity.
Qed.

(** The sort keeps the records of one key in their original order. *)
Lemma sortRules_stable : forall k l,
  filter (sameKey k) (sortRules lc l) = filter (sameKey k) l.
Proof.
  intros k l; unfold sortRules.
  assert (T : forall a b c, ruleLe a b -> ruleLe b c -> ruleLe a c)
    by (unfold ruleLe; apply compareRules_trans_le).
  assert (G : forall acc, StronglySorted ruleLe acc ->
            filter (sameKey k) (fold_left (fun acc x => insertSorted lc x acc) l acc)
            = filter (sameKey k) acc ++ filter (sameKey k) l).
  { induction l as [|x l IH]; intros acc Hs; cbn [fold_left filter].
    - rewrite app_nil_r; reflexivity.
    - rewrite IH.
      + rewrite insertSorted_filter by exact Hs; rewrite <- app_assoc.
        destruct (sameKey k x); reflexivity.
      + apply Sorted_StronglySorted; [exact T|].
        apply insertSorted_sorted, StronglySorted_Sorted, Hs. }
  rewrite G by constructor; reflexivity.
Qed.

End SortOrder.

Lemma sortRules_two : forall lc a b, compareRules lc b a = 0 -> sortRules lc [a; b] = [a; b].
Proof.
  intros lc a b H; unfold sortRules; simpl; rewrite H; reflexivity.
Qed.

Lemma codeUnitCompare_anti : forall a b, codeUnitCompare a b = - codeUnitCompare b a.
Proof.
  induction a as [|x a IH]; intros [|y b]; simpl; try reflexivity.
  destruct (N.ltb_spec x y), (N.ltb_spec y x); try lia; apply IH.
Qed.

Lemma codeUnitCompare_eq : forall a b, codeUnitCompare a b = 0 <-> a = b.
Proof.
  induction a as [|x a IH]; intros [|y b]; simpl; split; intros H; try discriminate; auto.
  - destruct (N.ltb_spec x y), (N.ltb_spec y x); try discriminate.
    f_equal; [lia | apply IH, H].
  - injection H as -> ->; rewrite N.ltb_irrefl; apply IH; reflexivity.
Qed.

Lemma codeUnitCompare_trans : forall a b c,
  codeUnitCompare a b < 0 -> codeUnitCompare b c < 0 -> codeUnitCompare a c < 0.
Proof.
  induction a as [|x a IH]; intros [|y b] [|z c]; simpl; try lia.
  destruct (N.ltb_spec x y), (N.ltb_spec y x), (N.ltb_spec y z), (N.ltb_spec z y),
    (N.ltb_spec x z), (N.ltb_spec z x); try lia.
  apply IH.
Qed.

Lemma codeUnitCompare_sign : forall a b, codeUnitCompare a b < 0 <-> 0 < codeUnitCompare b a.
Proof. intros a b; rewrite (codeUnitCompare_anti b a); lia. Qed.

Lemma Sorted_impl : forall {A} (R1 R2 : A -> A -> Prop) l,
  (forall a b, R1 a b -> R2 a b) -> Sorted R1 l -> Sorted R2 l.
Proof.
  intros A R1 R2 l H S; induction S as [|a l S IH Hh]; constructor; [exact IH|].
  destruct Hh; constructor; auto.
Qed.

Lemma tie_collect_AB :
  collectRules [(u "design_ko.xml", tieDocAB)] = [tieRule "1"; tieRule "2"].
Proof. vm_compute. reflexivity. Qed.

Lemma tie_collect_BA :
  collectRules [(u "design_ko.xml", tieDocBA)] = [tieRule "2"; tieRule "1"].
Proof. vm_compute. reflexivity. Qed.

(* ------------------------------------------------------------------ *)
(** ** Decimal digits *)

Lemma digitVal_digitUnit : forall d, 0 <= d < 10 -> digitVal (digitUnit d) = Some d.
Proof.
  intros d Hd; unfold digitVal, digitUnit.
  assert (E : (48 <=? 48 + Z.to_N d)%N && (48 + Z.to_N d <=? 57)%N = true).
  { apply andb_true_iff; split; apply N.leb_le; lia. }
  rewrite E; f_equal; lia.
Qed.

Lemma isDigit_digitUnit : forall d, 0 <= d < 10 -> isDigit (digitUnit d) = true.
Proof.
  intros d Hd; unfold isDigit, digitUnit; apply andb_true_iff; split; apply N.leb_le; lia.
Qed.

Lemma digitsValue_acc : forall ds x,
  fold_left (fun acc c => acc * 10 + match digitVal c with Some d => d | None => 0 end) ds x
  = x * 10 ^ Z.of_nat (List.length ds) + digitsValue 10 ds.
Proof.
  induction ds as [|c ds IH]; intros x; [unfold digitsValue; simpl; lia|].
  unfold digitsValue; simpl fold_left; rewrite !IH.
  change (Datatypes.length (c :: ds)) with (S (Datatypes.length ds)).
  rewrite Nat2Z.inj_succ, Z.pow_succ_r by lia; lia.
Qed.

Lemma digitsValue_app : forall a b,
  digitsValue 10 (a ++ b) = digitsValue 10 a * 10 ^ Z.of_nat (List.length b) + digitsValue 10 b.
Proof.
  intros a b; unfold digitsValue at 1; rewrite fold_left_app.
  apply digitsValue_acc.
Qed.

(** What [decimalAux] produces for a value below [10^n]. *)
Lemma decimalAux_spec : forall n z acc, 0 <= z < 10 ^ Z.of_nat n -> (1 <= n)%nat ->
  exists ds, decimalAux n z acc = ds ++ acc /\ ds <> [] /\
    Forall (fun c => isDigit c = true) ds /\ digitsValue 10 ds = z /\
    (z = 0 -> ds = [48%N]) /\
    (0 < z -> exists c t, ds = c :: t /\ c <> 48%N) /\
    (0 < z -> 10 ^ (Z.of_nat (List.length ds) - 1) <= z) /\
    z < 10 ^ Z.of_nat (List.length ds).
Proof.
  induction n as [|n IH]; intros z acc Hz Hn; [lia|].
  simpl; destruct (Z.ltb_spec z 10) as [L|L].
  - exists [digitUnit z]; repeat split; simpl; auto.
    + discriminate.
    + constructor; [apply isDigit_digitUnit; lia | constructor].
    + unfold digitsValue; simpl; rewrite digitVal_digitUnit by lia; lia.
    + intros ->; reflexivity.
    + intros P; exists (digitUnit z), []; split; [reflexivity|].
      unfold digitUnit; lia.
    + intros; lia.
  - assert (Hn' : (1 <= n)%nat).
    { destruct n; [simpl in Hz; lia | lia]. }
    assert (Hq : 0 <= z / 10 < 10 ^ Z.of_nat n).
    { split; [apply Z.div_pos; lia|].
      apply Z.div_lt_upper_bound; [lia|].
      rewrite Nat2Z.inj_succ, Z.pow_succ_r in Hz by lia; lia. }
    destruct (IH (z / 10) (digitUnit (z mod 10) :: acc) Hq Hn')
      as (ds & E & Hne & Hd & Hv & H0 & Hl & Hlo & Hhi).
    pose proof (Z.mod_pos_bound z 10 ltac:(lia)) as Hm.
    pose proof (Z.div_mod z 10 ltac:(lia)) as Hdm.
    exists (ds ++ [digitUnit (z mod 10)]); rewrite E, <- app_assoc; simpl.
    repeat split.
    + destruct ds; [contradiction | discriminate].
    + apply Forall_app; split; [exact Hd | constructor; [apply isDigit_digitUnit; lia | constructor]].
    + rewrite digitsValue_app, Hv; unfold digitsValue; simpl.
      rewrite digitVal_digitUnit by lia; lia.
    + intros; lia.
    + intros _; destruct (Hl ltac:(apply Z.div_str_pos; lia)) as (c & t & -> & Hc).
      exists c, (t ++ [digitUnit (z mod 10)]); split; [reflexivity | exact Hc].
    + intros _; rewrite length_app, Nat2Z.inj_add; simpl.
      replace (Z.of_nat (List.length ds) + 1 - 1) with (Z.of_nat (List.length ds)) by lia.
      assert (10 ^ (Z.of_nat (List.length ds) - 1) <= z / 10) by (apply Hlo, Z.div_str_pos; lia).
      replace (10 ^ Z.of_nat (List.length ds))
        with (10 * 10 ^ (Z.of_nat (List.length ds) - 1)).
      * lia.
      * rewrite <- Z.pow_succ_r by (destruct ds; [contradiction | cbn [Datatypes.length]; lia]).
        f_equal; lia.
    + rewrite length_app, Nat2Z.inj_add; simpl.
      rewrite Z.pow_add_r by lia; simpl Z.pow; lia.
Qed.

Lemma log2_pow10 : forall z, 0 <= z -> z < 10 ^ Z.of_nat (S (Z.to_nat (Z.log2 z))).
Proof.
  intros z Hz.
  destruct (Z.eq_dec z 0) as [->|Hz0]; [simpl; lia|].
  pose proof (Z.log2_spec z ltac:(lia)) as [_ H].
  pose proof (Z.log2_nonneg z).
  rewrite Nat2Z.inj_succ, Z2Nat.id by lia.
  eapply Z.lt_le_trans; [exact H|].
  rewrite <- Z.add_1_r; apply Z.pow_le_mono_l; lia.
Qed.

Lemma decimal_spec : forall z, 0 <= z ->
  exists ds, decimal z = ds /\ ds <> [] /\
    Forall (fun c => isDigit c = true) ds /\ digitsValue 10 ds = z /\
    (z = 0 -> ds = [48%N]) /\
    (0 < z -> exists c t, ds = c :: t /\ c <> 48%N) /\
    (0 < z -> 10 ^ (Z.of_nat (List.length ds) - 1) <= z) /\
    z < 10 ^ Z.of_nat (List.length ds).
Proof.
  intros z Hz; unfold decimal.
  destruct (decimalAux_spec (S (Z.to_nat (Z.log2 z))) z [] ltac:(split; [lia | apply log2_pow10; lia])
              ltac:(lia)) as (ds & E & R).
  rewrite app_nil_r in E; exists ds; auto.
Qed.

(** The number of digits is determined by the value. *)
Lemma ndigits_unique : forall z k, 0 < z -> 1 <= k ->
  10 ^ (k - 1) <= z < 10 ^ k -> ndigits z = k.
Proof.
  intros z k Hz Hk [Hlo Hhi]; unfold ndigits.
  destruct (decimal_spec z ltac:(lia)) as (ds & -> & Hne & _ & _ & _ & _ & Hlo' & Hhi').
  specialize (Hlo' Hz).
  set (L := Z.of_nat (List.length ds)) in *.
  assert (1 <= L) by (destruct ds; [contradiction | unfold L; simpl; lia]).
  destruct (Z.lt_trichotomy L k) as [C|[C|C]]; [|exact C|].
  - assert (10 ^ L <= 10 ^ (k - 1)) by (apply Z.pow_le_mono_r; lia). lia.
  - assert (10 ^ k <= 10 ^ (L - 1)) by (apply Z.pow_le_mono_r; lia). lia.
Qed.

Lemma ndigits_bounds : forall z, 0 < z ->
  1 <= ndigits z /\ 10 ^ (ndigits z - 1) <= z < 10 ^ ndigits z.
Proof.
  intros z Hz; unfold ndigits.
  destruct (decimal_spec z ltac:(lia)) as (ds & -> & Hne & _ & _ & _ & _ & Hlo & Hhi).
  destruct ds; [contradiction|]; cbn [Datatypes.length] in *; split; [lia | split; auto].
Qed.

Lemma ndigits_shift : forall s t, 0 < s -> 0 <= t -> ndigits (s * 10 ^ t) = ndigits s + t.
Proof.
  intros s t Hs Ht.
  destruct (ndigits_bounds s Hs) as (H1 & H2 & H3).
  assert (P : 0 < 10 ^ t) by (apply Z.pow_pos_nonneg; lia).
  apply ndigits_unique; [nia | lia |].
  rewrite Z.pow_add_r by lia.
  replace (ndigits s + t - 1) with ((ndigits s - 1) + t) by lia.
  rewrite Z.pow_add_r by lia; nia.
Qed.

(* ------------------------------------------------------------------ *)
(** ** Round trip through the data module *)

Lemma roundPos_exact : forall m e, 0 < m < 2 ^ 53 -> 0 <= e -> m * 2 ^ e < 2 ^ 1024 ->
  roundPos (m * 2 ^ e) = Fin (m * 2 ^ e).
Proof.
  intros m e Hm He Hb; unfold roundPos.
  assert (Hl : Z.log2 (m * 2 ^ e) = Z.log2 m + e) by (rewrite Z.log2_mul_pow2 by lia; lia).
  assert (Hlm : Z.log2 m < 53) by (apply Z.log2_lt_pow2; lia).
  pose proof (Z.log2_nonneg m).
  rewrite Hl.
  destruct (Z.ltb_spec (Z.log2 m + e) 53) as [L|L]; [reflexivity|].
  set (sh := Z.log2 m + e - 52).
  assert (Hsh : 0 <= e - sh) by (unfold sh; lia).
  assert (E : m * 2 ^ e = (m * 2 ^ (e - sh)) * 2 ^ sh).
  { rewrite <- Z.mul_assoc, <- Z.pow_add_r by lia; f_equal; f_equal; lia. }
  rewrite Z.shiftr_div_pow2 by lia.
  rewrite E, Z.div_mul by (apply Z.pow_nonzero; lia).
  rewrite !Z.shiftl_mul_pow2 by lia.
  rewrite Z.sub_diag.
  assert (0 < 1 * 2 ^ (sh - 1)) by (rewrite Z.mul_1_l; apply Z.pow_pos_nonneg; lia).
  destruct (Z.ltb_spec (1 * 2 ^ (sh - 1)) 0); [lia|].
  destruct (Z.eqb_spec 0 (1 * 2 ^ (sh - 1))); [lia|].
  cbn [orb andb]. rewrite <- E, (proj2 (Z.ltb_lt _ _) Hb). reflexivity.
Qed.

Lemma roundPos_shape : forall z y, 0 < z -> roundPos z = Fin y ->
  (y = z /\ z < 2 ^ 53) \/
  exists m e, 2 ^ 52 <= m <= 2 ^ 53 /\ 1 <= e /\ y = m * 2 ^ e /\ y < 2 ^ 1024.
Proof.
  intros z y Hz H; unfold roundPos in H.
  pose proof (Z.log2_spec z Hz) as [Hlo Hhi].
  destruct (Z.ltb_spec (Z.log2 z) 53) as [L|L].
  - injection H as <-; left; split; [reflexivity|].
    eapply Z.lt_le_trans; [exact Hhi|]. apply Z.pow_le_mono_r; lia.
  - right. set (sh := Z.log2 z - 52) in *.
    rewrite !Z.shiftl_mul_pow2, Z.shiftr_div_pow2 in H by lia.
    assert (P : 0 < 2 ^ sh) by (apply Z.pow_pos_nonneg; lia).
    assert (Hq : 2 ^ 52 <= z / 2 ^ sh < 2 ^ 53).
    { split.
      - apply Z.div_le_lower_bound; [lia|].
        rewrite <- Z.pow_add_r by lia. replace (sh + 52) with (Z.log2 z) by lia; exact Hlo.
      - apply Z.div_lt_upper_bound; [lia|].
        rewrite <- Z.pow_add_r by lia. replace (sh + 53) with (Z.succ (Z.log2 z)) by lia; exact Hhi. }
    set (q := z / 2 ^ sh) in *.
    assert (Hq' : exists q', (q' = q \/ q' = q + 1) /\
      (if q' * 2 ^ sh <? 2 ^ 1024 then Fin (q' * 2 ^ sh) else PosInf) = Fin y).
    { match type of H with context [if ?c then q + 1 else q] => destruct c; eauto end. }
    clear H; destruct Hq' as (q' & Hq' & H).
    destruct (Z.ltb_spec (q' * 2 ^ sh) (2 ^ 1024)); [|discriminate].
    injection H as <-.
    exists q', sh; repeat split; try lia.
Qed.

Lemma roundPos_pos : forall z y, 0 < z -> roundPos z = Fin y -> 0 < y.
Proof.
  intros z y Hz H; destruct (roundPos_shape z y Hz H) as [[-> _]|(m & e & Hm & He & -> & _)]; [lia|].
  assert (0 < 2 ^ e) by (apply Z.pow_pos_nonneg; lia). nia.
Qed.

Lemma roundPos_idem : forall z y, 0 < z -> roundPos z = Fin y -> roundPos y = Fin y.
Proof.
  intros z y Hz H; destruct (roundPos_shape z y Hz H) as [[-> L]|(m & e & Hm & He & -> & Hb)].
  - rewrite <- (Z.mul_1_r z). change 1 with (2 ^ 0). apply roundPos_exact; lia.
  - destruct (Z.eq_dec m (2 ^ 53)) as [->|Hne].
    + replace (2 ^ 53 * 2 ^ e) with (2 ^ 52 * 2 ^ (e + 1)) in *.
      * apply roundPos_exact; lia.
      * rewrite Z.pow_add_r by lia. change (2 ^ 53) with (2 ^ 52 * 2 ^ 1). ring.
    + apply roundPos_exact; lia.
Qed.

Lemma numberValue_idem : forall z y, numberValue z = Fin y -> numberValue y = Fin y.
Proof.
  intros z y H; unfold numberValue in *.
  destruct (Z.eqb_spec z 0) as [->|Z0].
  - injection H as <-; reflexivity.
  - destruct (Z.ltb_spec 0 z) as [P|P].
    + pose proof (roundPos_pos z y P H).
      rewrite (proj2 (Z.eqb_neq y 0)) by lia; rewrite (proj2 (Z.ltb_lt 0 y)) by lia.
      exact (roundPos_idem z y P H).
    + destruct (roundPos (- z)) as [w| |] eqn:E; simpl in H; try discriminate.
      injection H as <-.
      pose proof (roundPos_pos (- z) w ltac:(lia) E).
      rewrite (proj2 (Z.eqb_neq (- w) 0)) by lia.
      destruct (Z.ltb_spec 0 (- w)); [lia|].
      rewrite Z.opp_involutive, (roundPos_idem (- z) w ltac:(lia) E); reflexivity.
Qed.

Lemma numberValue_double : forall z y, numberValue z = Fin y -> isDouble (Fin y).
Proof. intros z y H; exact (numberValue_idem z y H). Qed.

Lemma shortestValue_ok : forall fuel k d x, numberValue x = Fin x ->
  numberValue (shortestValue fuel k d x) = Fin x.
Proof.
  induction fuel as [|f IH]; intros k d x Hx; simpl; [exact Hx|].
  destruct (d <=? k); [exact Hx|].
  repeat match goal with
  | |- context [jsnum_eqb ?a ?b] =>
      let E := fresh "E" in destruct (jsnum_eqb a b) eqn:E; [apply jsnum_eqb_spec in E|]
  end; simpl;
  repeat match goal with |- context [if ?c then _ else _] => destruct c end; auto.
Qed.

Lemma stripZerosAux_spec : forall n z, 0 < z ->
  exists t, 0 <= t /\ z = stripZerosAux n z * 10 ^ t /\ 0 < stripZerosAux n z.
Proof.
  induction n as [|n IH]; intros z Hz; simpl.
  - exists 0; split; [lia|]; split; [ring | exact Hz].
  - destruct (Z.ltb_spec 0 z); [|lia]; destruct (Z.eqb_spec (z mod 10) 0) as [M|M]; simpl.
    + assert (0 < z / 10).
      { pose proof (Z.div_mod z 10 ltac:(lia)); lia. }
      destruct (IH (z / 10) H0) as (t & Ht & E & P).
      exists (t + 1); split; [lia|]; split; [|exact P].
      rewrite Z.pow_add_r by lia. pose proof (Z.div_mod z 10 ltac:(lia)).
      rewrite M, Z.add_0_r in H1. rewrite H1 at 1. rewrite E at 1. ring.
    + exists 0; split; [lia|]; split; [ring | exact Hz].
Qed.

Lemma stripZeros_spec : forall z, 0 < z ->
  exists t, 0 <= t /\ z = stripZeros z * 10 ^ t /\ 0 < stripZeros z.
Proof. intros z Hz; apply stripZerosAux_spec, Hz. Qed.

Definition notDigitHead (r : jstr) : Prop :=
  match r with [] => True | c :: _ => isDigit c = false end.

Lemma spanDigits_app : forall ds rest, Forall (fun c => isDigit c = true) ds ->
  notDigitHead rest -> spanDigits (ds ++ rest) = (ds, rest).
Proof.
  induction ds as [|c ds IH]; intros rest Hd Hr; simpl.
  - destruct rest as [|c rest]; [reflexivity|]. simpl in Hr; simpl; rewrite Hr; reflexivity.
  - inversion Hd; subst. rewrite H1, IH; auto.
Qed.

Definition numStop (r : jstr) : Prop :=
  match r with
  | [] => True
  | c :: _ => isDigit c = false /\ c <> 46%N /\ c <> 101%N /\ c <> 69%N
  end.

Lemma isDigit_range : forall c, isDigit c = true -> (48 <= c <= 57)%N.
Proof. intros c H; unfold isDigit in H; apply andb_prop in H as [A B]; apply N.leb_le in A, B; lia. Qed.

Lemma pNumber_int : forall (neg : bool) ds rest,
  (exists c t, ds = c :: t /\ c <> 48%N) -> Forall (fun c => isDigit c = true) ds -> numStop rest ->
  pNumber ((if neg then [45%N] else []) ++ ds ++ rest)
  = POk (JNum (numberValue ((if neg then -1 else 1) * digitsValue 10 ds))) rest.
Proof.
  intros neg ds rest (c & t & -> & Hc) Hd Hr.
  assert (Hc' : isDigit c = true) by (inversion Hd; auto).
  pose proof (isDigit_range c Hc').
  assert (Hsp : spanDigits ((c :: t) ++ rest) = (c :: t, rest)).
  { apply spanDigits_app; [exact Hd|]. destruct rest; simpl in *; tauto. }
  unfold pNumber.
  change (ch "-") with 45%N; change (ch "0") with 48%N; change (ch ".") with 46%N;
  change (ch "e") with 101%N; change (ch "E") with 69%N; change (ch "+") with 43%N.
  assert (E45 : (c =? 45)%N = false) by (apply N.eqb_neq; lia).
  assert (E48 : (c =? 48)%N = false) by (apply N.eqb_neq; exact Hc).
  destruct neg; cbn -[spanDigits digitsValue numberValue Z.pow Z.mul]; rewrite ?E45, ?E48, ?Hc'.
  all: change ((c :: t) ++ rest) with (c :: t ++ rest) in Hsp; rewrite Hsp.
  all: destruct rest as [|c' r]; [|destruct Hr as (R1 & R2 & R3 & R4);
         rewrite (proj2 (N.eqb_neq c' 46) R2), (proj2 (N.eqb_neq c' 101) R3),
           (proj2 (N.eqb_neq c' 69) R4)].
  all: cbn -[digitsValue numberValue Z.pow Z.mul]; rewrite app_nil_r, Z.mul_1_r; reflexivity.
Qed.

Lemma pNumber_exp : forall (neg : bool) d0 fr eds rest,
  isDigit d0 = true -> d0 <> 48%N -> Forall (fun c => isDigit c = true) fr ->
  Forall (fun c => isDigit c = true) eds -> eds <> [] -> notDigitHead rest ->
  Z.of_nat (List.length fr) <= digitsValue 10 eds ->
  pNumber ((if neg then [45%N] else []) ++ [d0] ++
           (match fr with [] => [] | _ => 46%N :: fr end) ++ [101%N; 43%N] ++ eds ++ rest)
  = POk (JNum (numberValue ((if neg then -1 else 1) *
           (digitsValue 10 (d0 :: fr) * 10 ^ (digitsValue 10 eds - Z.of_nat (List.length fr))))))
        rest.
Proof.
  intros neg d0 fr eds rest Hd0 H48 Hfr Heds Hne Hr Hle.
  pose proof (isDigit_range d0 Hd0).
  assert (E45 : (d0 =? 45)%N = false) by (apply N.eqb_neq; lia).
  assert (E48 : (d0 =? 48)%N = false) by (apply N.eqb_neq; exact H48).
  assert (Hse : spanDigits (eds ++ rest) = (eds, rest)) by (apply spanDigits_app; auto).
  set (X := (match fr with [] => [] | _ => 46%N :: fr end) ++ [101%N; 43%N] ++ eds ++ rest).
  assert (Hsp : spanDigits (d0 :: X) = ([d0], X)).
  { apply (spanDigits_app [d0]); [constructor; auto|].
    unfold X; destruct fr; reflexivity. }
  assert (Hf : forall f fr', Forall (fun c => isDigit c = true) (f :: fr') ->
     spanDigits (f :: fr' ++ 101%N :: 43%N :: eds ++ rest)
                 = (f :: fr', 101%N :: 43%N :: eds ++ rest))
    by (intros f fr' Hx; exact (spanDigits_app (f :: fr') (101%N :: 43%N :: eds ++ rest) Hx eq_refl)).
  unfold pNumber.
  change (ch "-") with 45%N; change (ch "0") with 48%N; change (ch ".") with 46%N;
  change (ch "e") with 101%N; change (ch "E") with 69%N; change (ch "+") with 43%N.
  change ([d0] ++ X) with (d0 :: X).
  destruct neg; cbn -[spanDigits digitsValue numberValue Z.pow Z.mul]; rewrite ?E45, ?E48, ?Hd0.
  all: rewrite Hsp; unfold X; destruct fr as [|f fr'].
  all: cbn -[spanDigits digitsValue numberValue Z.pow Z.mul].
  all: try (rewrite (Hf f fr' Hfr); cbn -[spanDigits digitsValue numberValue Z.pow Z.mul]).
  all: rewrite Hse; destruct eds as [|e eds']; [contradiction|].
  all: cbn -[spanDigits digitsValue numberValue Z.pow Z.mul List.length].
  all: rewrite Z.mul_1_l.
  all: cbn [Datatypes.length] in Hle; rewrite ?Nat2Z.inj_succ in Hle; rewrite ?Zpos_P_of_succ_nat.
  all: match goal with |- context [0 <=? ?a] => destruct (Z.leb_spec 0 a); [|lia] end.
  all: reflexivity.
Qed.

Lemma pNumber_zero : forall rest, numStop rest ->
  pNumber (48%N :: rest) = POk (JNum (Fin 0)) rest.
Proof.
  intros rest Hr; unfold pNumber.
  change (ch "-") with 45%N; change (ch "0") with 48%N; change (ch ".") with 46%N;
  change (ch "e") with 101%N; change (ch "E") with 69%N; change (ch "+") with 43%N.
  destruct rest as [|c' r]; [reflexivity|]; destruct Hr as (R1 & R2 & R3 & R4).
  cbn -[numberValue Z.pow Z.mul].
  rewrite (proj2 (N.eqb_neq c' 46) R2), (proj2 (N.eqb_neq c' 101) R3),
    (proj2 (N.eqb_neq c' 69) R4); reflexivity.
Qed.

Lemma numberValue_pos : forall v a, 0 < a -> numberValue v = Fin a -> 0 < v /\ roundPos v = Fin a.
Proof.
  intros v a Ha H; unfold numberValue in H.
  destruct (Z.eqb_spec v 0) as [->|Z0]; [injection H; lia|].
  destruct (Z.ltb_spec 0 v) as [P|P]; [auto|].
  destruct (roundPos (- v)) as [w| |] eqn:E; simpl in H; try discriminate.
  injection H as <-; pose proof (roundPos_pos (- v) w ltac:(lia) E); lia.
Qed.

Lemma numberValue_opp : forall v a, 0 < v -> roundPos v = Fin a -> numberValue (- v) = Fin (- a).
Proof.
  intros v a P E; unfold numberValue.
  rewrite (proj2 (Z.eqb_neq (- v) 0)) by lia.
  destruct (Z.ltb_spec 0 (- v)); [lia|]. rewrite Z.opp_involutive, E; reflexivity.
Qed.

Lemma numToString_parse : forall x rest, numberValue x = Fin x -> numStop rest ->
  pNumber (numToString x ++ rest) = POk (JNum (Fin x)) rest.
Proof.
  intros x rest Hx Hr; unfold numToString; cbv beta zeta.
  destruct (Z.eqb_spec x 0) as [->|X0]; [apply pNumber_zero, Hr|].
  set (a := Z.abs x).
  assert (Ha : 0 < a) by (unfold a; lia).
  assert (Hna : numberValue a = Fin a).
  { unfold a; destruct (Z.ltb_spec 0 x).
    - rewrite Z.abs_eq by lia; exact Hx.
    - rewrite Z.abs_neq by lia.
      destruct (numberValue_pos (- x) (- x) ltac:(lia)) as [_ E].
      + unfold numberValue in Hx |- *.
        rewrite (proj2 (Z.eqb_neq x 0)), (proj2 (Z.ltb_nlt 0 x)) in Hx by lia.
        rewrite (proj2 (Z.eqb_neq (- x) 0)), (proj2 (Z.ltb_lt 0 (- x))) by lia.
        destruct (roundPos (- x)) as [w| |]; simpl in Hx; try discriminate.
        injection Hx as Hw; f_equal; lia.
      + unfold numberValue; rewrite (proj2 (Z.eqb_neq (- x) 0)), (proj2 (Z.ltb_lt 0 (- x))) by lia.
        exact E. }
  set (v := shortestValue (Z.to_nat (ndigits a)) 1 (ndigits a) a).
  assert (Hv : numberValue v = Fin a) by apply shortestValue_ok, Hna.
  destruct (numberValue_pos v a Ha Hv) as [Vp Rv].
  assert (Hfin : numberValue ((if x <? 0 then -1 else 1) * v) = Fin x).
  { destruct (Z.ltb_spec x 0).
    - replace (-1 * v) with (- v) by ring. rewrite (numberValue_opp v a Vp Rv).
      unfold a; f_equal; lia.
    - rewrite Z.mul_1_l, Hv; unfold a; f_equal; lia. }
  assert (Hsg : (if x <? 0 then u "-" else []) = (if x <? 0 then [45%N] else [])) by
    (destruct (x <? 0); reflexivity).
  rewrite Hsg; clear Hsg.
  destruct (decimal_spec v ltac:(lia)) as (ds & Eds & Hne & Hd & Hval & _ & Hhd & _ & _).
  destruct (Z.leb_spec (ndigits v) 21) as [L|L].
  - cbv iota; rewrite Eds, <- app_assoc.
    etransitivity; [exact (pNumber_int (x <? 0) ds rest (Hhd Vp) Hd Hr)|].
    rewrite Hval, Hfin; reflexivity.
  - destruct (stripZeros_spec v Vp) as (t & Ht & Ev & Sp).
    set (s := stripZeros v) in *.
    destruct (decimal_spec s ltac:(lia)) as (ss & Ess & Hsne & Hsd & Hsval & _ & Hshd & _ & _).
    destruct (decimal_spec (ndigits v - 1) ltac:(lia))
      as (es & Ees & Hene & Hed & Heval & _ & _ & _ & _).
    cbv iota; rewrite Ess.
    destruct (Hshd Sp) as (d0 & fr & -> & Hd0).
    apply Forall_cons_iff in Hsd as [Hd0d Hfr].
    assert (Hlen : ndigits s = Z.of_nat (S (List.length fr))) by (unfold ndigits; rewrite Ess; reflexivity).
    assert (Hn : ndigits v = ndigits s + t) by (rewrite Ev at 1; apply ndigits_shift; lia).
    transitivity (pNumber ((if x <? 0 then [45%N] else []) ++ [d0] ++
           (match fr with [] => [] | _ => 46%N :: fr end) ++ [101%N; 43%N] ++ es ++ rest)).
    + f_equal. rewrite Ees.
      replace (u "e+") with [101%N; 43%N] by reflexivity.
      replace (u ".") with [46%N] by reflexivity.
      destruct fr; simpl; repeat (rewrite <- app_assoc; simpl); reflexivity.
    + rewrite pNumber_exp; auto.
      * f_equal; f_equal. rewrite <- Hfin; f_equal; f_equal.
        rewrite Heval, Hsval.
        replace (ndigits v - 1 - Z.of_nat (List.length fr)) with t
          by (rewrite Nat2Z.inj_succ in Hlen; lia).
        symmetry; exact Ev.
      * destruct rest as [|c r]; simpl in *; tauto.
      * rewrite Heval. rewrite Nat2Z.inj_succ in Hlen; lia.
Qed.

Lemma hexVal_hexUnit : forall d, 0 <= d < 16 -> hexVal (hexUnit d) = Some d.
Proof.
  intros d Hd; unfold hexVal, hexUnit, digitVal, digitUnit.
  destruct (Z.ltb_spec d 10).
  - rewrite (proj2 (N.leb_le 48 (48 + Z.to_N d))) by lia.
    rewrite (proj2 (N.leb_le (48 + Z.to_N d) 57)) by lia. simpl andb; cbv iota.
    rewrite N2Z.inj_add, Z2N.id by lia.
    replace (Z.of_N 48 + d - 48) with d by lia.
    rewrite (proj2 (Z.ltb_lt d 16)) by lia; reflexivity.
  - rewrite (proj2 (N.leb_gt (87 + Z.to_N d) 57)) by lia. rewrite andb_false_r.
    rewrite (proj2 (N.leb_le 97 (87 + Z.to_N d))) by lia.
    rewrite (proj2 (N.leb_le (87 + Z.to_N d) 122)) by lia. simpl andb; cbv iota.
    rewrite N2Z.inj_add, Z2N.id by lia.
    replace (Z.of_N 87 + d - 87) with d by lia.
    rewrite (proj2 (Z.ltb_lt d 16)) by lia; reflexivity.
Qed.

Lemma escapeUnit_parse : forall c X acc,
  pStringBody (escapeUnit c ++ X) acc = pStringBody X (c :: acc).
Proof.
  intros c X acc; unfold escapeUnit.
  destruct (N.eqb_spec c 8) as [->|N8]; [reflexivity|].
  destruct (N.eqb_spec c 9) as [->|N9]; [reflexivity|].
  destruct (N.eqb_spec c 10) as [->|N10]; [reflexivity|].
  destruct (N.eqb_spec c 12) as [->|N12]; [reflexivity|].
  destruct (N.eqb_spec c 13) as [->|N13]; [reflexivity|].
  destruct (N.eqb_spec c quote) as [->|NQ]; [reflexivity|].
  destruct (N.eqb_spec c 92) as [->|N92]; [reflexivity|].
  destruct ((c <? 32)%N || isHighSurrogate c || isLowSurrogate c) eqn:U.
  - assert (Hc : (c < 57344)%N).
    { unfold isHighSurrogate, isLowSurrogate in U.
      apply orb_true_iff in U as [U|U]; [apply orb_true_iff in U as [U|U]|].
      - apply N.ltb_lt in U; lia.
      - apply andb_prop in U as [_ U]; apply N.leb_le in U; lia.
      - apply andb_prop in U as [_ U]; apply N.leb_le in U; lia. }
    unfold unicodeEscape.
    set (z := Z.of_N c).
    assert (Hz : 0 <= z < 65536) by (unfold z; lia).
    change ([92%N; ch "u"; hexUnit (z / 4096); hexUnit (z / 256 mod 16);
             hexUnit (z / 16 mod 16); hexUnit (z mod 16)] ++ X)
      with (92%N :: ch "u" :: hexUnit (z / 4096) :: hexUnit (z / 256 mod 16)
             :: hexUnit (z / 16 mod 16) :: hexUnit (z mod 16) :: X).
    simpl pStringBody at 1.
    rewrite !hexVal_hexUnit.
    + f_equal. f_equal.
      assert (Hw : ((z / 4096 * 16 + z / 256 mod 16) * 16 + z / 16 mod 16) * 16 + z mod 16 = z).
      { pose proof (Z.div_mod z 16 ltac:(lia)).
        pose proof (Z.div_mod (z / 16) 16 ltac:(lia)).
        pose proof (Z.div_mod (z / 16 / 16) 16 ltac:(lia)).
        rewrite !Z.div_div in * by lia. change (16 * 16) with 256 in *; change (256 * 16) with 4096 in *. lia. }
      rewrite Hw; apply N2Z.id.
    + apply Z.mod_pos_bound; lia.
    + apply Z.mod_pos_bound; lia.
    + apply Z.mod_pos_bound; lia.
    + split; [apply Z.div_pos; lia | apply Z.div_lt_upper_bound; lia].
  - simpl app. simpl pStringBody at 1.
    rewrite (proj2 (N.eqb_neq c quote) NQ), (proj2 (N.eqb_neq c 92) N92).
    apply orb_false_iff in U as [U _]; apply orb_false_iff in U as [U _]. rewrite U. reflexivity.
Qed.

Lemma pStringBody_plain : forall c X acc, (32 <= c)%N -> c <> quote -> c <> 92%N ->
  pStringBody (c :: X) acc = pStringBody X (c :: acc).
Proof.
  intros c X acc H1 H2 H3; simpl.
  rewrite (proj2 (N.eqb_neq c quote) H2), (proj2 (N.eqb_neq c 92) H3).
  destruct (N.ltb_spec c 32); [lia | reflexivity].
Qed.

Lemma quoteUnits_parse : forall s rest acc,
  pStringBody (quoteUnits s ++ quote :: rest) acc = POk (rev acc ++ s) rest.
Proof.
  intros s; remember (List.length s) as n eqn:En.
  assert (Hn : (List.length s <= n)%nat) by lia; clear En; revert s Hn.
  induction n as [|n IH]; intros s Hn rest acc.
  - destruct s; [|simpl in Hn; lia]. simpl. rewrite app_nil_r; reflexivity.
  - destruct s as [|c t]; [simpl; rewrite app_nil_r; reflexivity|].
    simpl in Hn. simpl quoteUnits.
    destruct (isHighSurrogate c) eqn:Hh.
    + destruct t as [|d t'].
      * rewrite escapeUnit_parse; simpl. reflexivity.
      * destruct (isLowSurrogate d) eqn:Hl.
        -- unfold isHighSurrogate, isLowSurrogate in Hh, Hl.
           apply andb_prop in Hh as [Hh _]; apply andb_prop in Hl as [Hl _].
           apply N.leb_le in Hh, Hl.
           simpl app.
           rewrite pStringBody_plain by (unfold quote; lia).
           rewrite pStringBody_plain by (unfold quote; lia).
           rewrite IH by (simpl in Hn; lia). simpl. rewrite <- !app_assoc; reflexivity.
        -- rewrite <- app_assoc, escapeUnit_parse, IH by (simpl in *; lia).
           simpl; rewrite <- app_assoc; reflexivity.
    + rewrite <- app_assoc, escapeUnit_parse, IH by lia.
      simpl; rewrite <- app_assoc; reflexivity.
Qed.

Lemma jval_nested_ind (P : jval -> Prop) :
  P JNull -> (forall b, P (JBool b)) -> (forall n, P (JNum n)) -> (forall s, P (JStr s)) ->
  (forall l, Forall P l -> P (JArr l)) ->
  (forall o, Forall (fun p => P (snd p)) o -> P (JObj o)) -> forall v, P v.
Proof.
  intros HN HB HNum HS HA HO. fix F 1. intros [| b | n | s | l | o].
  - exact HN.
  - apply HB.
  - apply HNum.
  - apply HS.
  - apply HA. revert l. fix G 1. intros [|x l]; constructor; [apply F | apply G].
  - apply HO. revert o. fix G 1. intros [|p o]; constructor; [apply F | apply G].
Qed.

Lemma skipJws_app : forall w s, forallb isJws w = true -> skipJws (w ++ s) = skipJws s.
Proof.
  induction w as [|c w IH]; intros s H; [reflexivity|].
  simpl in H; apply andb_prop in H as [H1 H2]; simpl; rewrite H1; auto.
Qed.

Lemma skipJws_nonws : forall c s, isJws c = false -> skipJws (c :: s) = c :: s.
Proof. intros c s H; simpl; rewrite H; reflexivity. Qed.

Lemma spaces_jws : forall n, forallb isJws (spaces n) = true.
Proof. induction n; simpl; auto. Qed.

Lemma nl_spaces_jws : forall n, forallb isJws (nl ++ spaces n) = true.
Proof. intros n; exact (spaces_jws n). Qed.

(** The characters a serialized value can start with. *)
Definition headChar (c : N) : Prop :=
  c = 110%N \/ c = 116%N \/ c = 102%N \/ c = quote \/ c = 91%N \/ c = 123%N \/ c = 45%N
  \/ isDigit c = true.

Lemma abs_double : forall x, x <> 0 -> numberValue x = Fin x -> numberValue (Z.abs x) = Fin (Z.abs x).
Proof.
  intros x X0 Hx; destruct (Z.ltb_spec 0 x).
  - rewrite Z.abs_eq by lia; exact Hx.
  - rewrite Z.abs_neq by lia.
    unfold numberValue in Hx |- *.
    rewrite (proj2 (Z.eqb_neq x 0)), (proj2 (Z.ltb_nlt 0 x)) in Hx by lia.
    rewrite (proj2 (Z.eqb_neq (- x) 0)), (proj2 (Z.ltb_lt 0 (- x))) by lia.
    destruct (roundPos (- x)) as [w| |] eqn:E; simpl in Hx; try discriminate.
    injection Hx as Hw; f_equal; lia.
Qed.

Lemma numToString_head : forall x, numberValue x = Fin x ->
  exists c t, numToString x = c :: t /\ (c = 45%N \/ isDigit c = true).
Proof.
  intros x Hx; unfold numToString; cbv beta zeta.
  destruct (Z.eqb_spec x 0) as [|X0]; [exists 48%N, []; auto|].
  destruct (Z.ltb_spec x 0); [eexists; eexists; split; [reflexivity | auto]|].
  simpl app.
  assert (Ha : 0 < Z.abs x) by lia.
  pose proof (shortestValue_ok (Z.to_nat (ndigits (Z.abs x))) 1 (ndigits (Z.abs x)) (Z.abs x)
                (abs_double x X0 Hx)) as Hv.
  set (v := shortestValue _ _ _ _) in *.
  destruct (numberValue_pos v (Z.abs x) Ha Hv) as [Vp _].
  destruct (Z.leb_spec (ndigits v) 21).
  - destruct (decimal_spec v ltac:(lia)) as (ds & -> & Hne & Hd & _).
    destruct ds as [|c t]; [contradiction|]. inversion Hd; eauto.
  - destruct (stripZeros_spec v Vp) as (t & _ & _ & Sp).
    destruct (decimal_spec (stripZeros v) ltac:(lia)) as (ds & -> & Hne & Hd & _).
    destruct ds as [|c [|c' t']]; [contradiction| |]; inversion Hd; eauto.
Qed.

Lemma ser_head : forall ind v, wfb v = true -> exists c t, ser ind v = c :: t /\ headChar c.
Proof.
  intros ind [| [|] | [z| |] | s | [|x l] | [|[k x] o]] Hw; simpl;
    try (eexists; eexists; split; [reflexivity | unfold headChar; tauto]).
  simpl in Hw; apply jsnum_eqb_spec in Hw.
  destruct (numToString_head z Hw) as (c & t & -> & H).
  exists c, t; split; [reflexivity | unfold headChar; tauto].
Qed.

Lemma headChar_facts : forall c, headChar c ->
  isJws c = false /\ isWs c = false /\ c <> 93%N /\ c <> 125%N.
Proof.
  intros c H; unfold headChar, quote in H.
  destruct H as [->|[->|[->|[->|[->|[->|[->|Hd]]]]]]].
  1-7: split; [reflexivity | split; [reflexivity | split; discriminate]].
  apply isDigit_range in Hd; unfold isJws, isWs.
  repeat split; try lia.
  - repeat match goal with |- context [(?a =? ?b)%N] => destruct (N.eqb_spec a b); [lia|] end. reflexivity.
  - repeat match goal with
    | |- context [(?a =? ?b)%N] => destruct (N.eqb_spec a b); [lia|]
    | |- context [(?a <=? ?b)%N] => destruct (N.leb_spec a b)
    end; simpl; try reflexivity; lia.
Qed.

Definition stopc (r : jstr) : Prop :=
  match r with [] => True | c :: _ => c = 44%N \/ c = 10%N end.

Lemma stopc_numStop : forall r, stopc r -> numStop r.
Proof.
  intros [|c r] H; simpl in *; auto.
  destruct H as [->| ->]; repeat split; discriminate.
Qed.

Lemma skip_nl_spaces : forall j c rest, isJws c = false ->
  skipJws (10%N :: spaces j ++ c :: rest) = c :: rest.
Proof.
  intros j c rest H.
  change (10%N :: spaces j ++ c :: rest) with ((nl ++ spaces j) ++ c :: rest).
  rewrite skipJws_app by apply nl_spaces_jws. apply skipJws_nonws, H.
Qed.

Lemma pElems_comma : forall pv g acc s1 v X, pv s1 = POk v (u "," ++ X) ->
  pElems pv (S g) acc s1 = pElems pv g (v :: acc) X.
Proof. intros pv g acc s1 v X H; simpl; rewrite H; reflexivity. Qed.

Lemma pElems_close : forall pv g acc s1 v j rest, pv s1 = POk v (nl ++ spaces j ++ u "]" ++ rest) ->
  pElems pv (S g) acc s1 = POk (JArr (rev (v :: acc))) rest.
Proof.
  intros pv g acc s1 v j rest H; cbn [pElems]; rewrite H.
  change (nl ++ spaces j ++ u "]" ++ rest) with ((nl ++ spaces j) ++ 93%N :: rest).
  rewrite skipJws_app by apply nl_spaces_jws; reflexivity.
Qed.

Lemma concat_cons_app : forall {A} (F : A -> jstr) y xs R,
  List.concat (map F (y :: xs)) ++ R = F y ++ List.concat (map F xs) ++ R.
Proof. intros; simpl; rewrite app_assoc; reflexivity. Qed.

Section SerParse.

Variable f : nat.
Hypothesis IHf : forall v ind w rest, wfb v = true -> (jsize v <= f)%nat ->
  forallb isJws w = true -> stopc rest -> pValue f (w ++ ser ind v ++ rest) = POk (normalize v) rest.

Lemma pElems_ser : forall xs x acc g ind j w rest,
  forallb isJws w = true -> wfb x = true -> forallb wfb xs = true ->
  (jsize x <= f)%nat -> Forall (fun y => (jsize y <= f)%nat) xs -> (List.length xs < g)%nat ->
  pElems (pValue f) g acc
    (w ++ ser ind x ++ List.concat (map (fun y => u "," ++ nl ++ spaces ind ++ ser ind y) xs)
       ++ nl ++ spaces j ++ u "]" ++ rest)
  = POk (JArr (rev acc ++ map normalize (x :: xs))) rest.
Proof.
  induction xs as [|y xs IH]; intros x acc g ind j w rest Hw Hx Hxs Hsx Hsxs Hg;
    (destruct g as [|g]; [simpl in Hg; lia|]).
  - rewrite (pElems_close (pValue f) g acc _ (normalize x) j rest); [reflexivity|].
    exact (IHf x ind w (nl ++ spaces j ++ u "]" ++ rest) Hx Hsx Hw (or_intror eq_refl)).
  - rewrite concat_cons_app; cbv beta; rewrite <- !app_assoc.
    simpl in Hxs; apply andb_prop in Hxs as [Hy Hxs]; inversion Hsxs as [|? ? Hsy Hsxs']; subst.
    rewrite (pElems_comma (pValue f) g acc _ (normalize x)
      (nl ++ spaces ind ++ ser ind y ++ List.concat (map (fun y => u "," ++ nl ++ spaces ind ++ ser ind y) xs)
         ++ nl ++ spaces j ++ u "]" ++ rest)).
    + etransitivity; [exact (IH y (normalize x :: acc) g ind j (nl ++ spaces ind) rest
                          (nl_spaces_jws ind) Hy Hxs Hsy Hsxs' ltac:(simpl in Hg; lia))|].
      simpl; rewrite <- app_assoc; reflexivity.
    + exact (IHf x ind w (u "," ++ nl ++ spaces ind ++ ser ind y ++ List.concat (map (fun y => u "," ++ nl ++ spaces ind ++ ser ind y) xs)
         ++ nl ++ spaces j ++ u "]" ++ rest) Hx Hsx Hw (or_introl eq_refl)).
Qed.

End SerParse.

Lemma noIndex_In : forall ks k i, noIndex ks = true -> In k ks -> arrayIndex k = Some i -> False.
Proof.
  intros ks k i H Hin Hk; unfold noIndex in H; rewrite forallb_forall in H.
  specialize (H k Hin); rewrite Hk in H; discriminate.
Qed.

Lemma idxOrd_app_l : forall ks1 ks2 lo, idxOrd lo (ks1 ++ ks2) = true -> idxOrd lo ks1 = true.
Proof.
  induction ks1 as [|k ks1 IH]; intros ks2 lo H; [reflexivity|]. simpl in *.
  destruct (arrayIndex k).
  - apply andb_prop in H as [H1 H2]; rewrite H1; simpl; eauto.
  - unfold noIndex in *; rewrite forallb_app in H; apply andb_prop in H; tauto.
Qed.

Lemma idxOrd_ge : forall ks lo k i, idxOrd lo ks = true -> In k ks -> arrayIndex k = Some i -> lo <= i.
Proof.
  induction ks as [|a ks IH]; intros lo k i H Hin Hk; [destruct Hin|].
  simpl in H; destruct (arrayIndex a) as [z|] eqn:Ea.
  - apply andb_prop in H as [H1 H2]; apply Z.leb_le in H1.
    destruct Hin as [<-|Hin]; [rewrite Ea in Hk; injection Hk; lia|].
    specialize (IH z k i H2 Hin Hk); lia.
  - destruct Hin as [<-|Hin]; [congruence|]. exfalso; eapply noIndex_In; eauto.
Qed.

Lemma insertIndexKey_app : forall o i k v lo, idxOrd lo (map fst o ++ [k]) = true ->
  arrayIndex k = Some i -> insertIndexKey i k v o = o ++ [(k, v)].
Proof.
  induction o as [|[k' v'] o IH]; intros i k v lo H Hk; [reflexivity|].
  simpl in H |- *. destruct (arrayIndex k') as [z|] eqn:E.
  - apply andb_prop in H as [H1 H2].
    assert (z <= i) by (eapply idxOrd_ge; [exact H2 | apply in_or_app; right; left; reflexivity | exact Hk]).
    destruct (Z.ltb_spec i z); [lia|]. f_equal; eapply IH; eauto.
  - exfalso; eapply noIndex_In; [exact H | apply in_or_app; right; left; reflexivity | exact Hk].
Qed.

Lemma hasKey_notin : forall k o, ~ In k (map fst o) -> hasKey k o = false.
Proof.
  intros k o; unfold hasKey; induction o as [|p o IH]; intros H; [reflexivity|]; simpl.
  destruct (jstr_eqb (fst p) k) eqn:E; [apply jstr_eqb_spec in E; simpl in H; tauto|].
  apply IH; simpl in H; tauto.
Qed.

Lemma objSet_app : forall k v o, ~ In k (map fst o) -> idxOrd 0 (map fst o ++ [k]) = true ->
  objSet k v o = o ++ [(k, v)].
Proof.
  intros k v o Hn Ho; unfold objSet; rewrite hasKey_notin by exact Hn.
  destruct (arrayIndex k) eqn:E; [eapply insertIndexKey_app; eauto | reflexivity].
Qed.

Lemma nodupb_NoDup : forall ks, nodupb ks = true <-> NoDup ks.
Proof.
  induction ks as [|k ks IH]; simpl; [split; auto; constructor|].
  split.
  - intros H; apply andb_prop in H as [H1 H2]; constructor; [|apply IH; exact H2].
    intros Hin; apply memJ_In in Hin; rewrite Hin in H1; discriminate.
  - intros H; inversion H; subst. apply andb_true_intro; split; [|apply IH; assumption].
    destruct (memJ k ks) eqn:E; [apply memJ_In in E; contradiction | reflexivity].
Qed.

Lemma pMembers_comma : forall pv g acc w k X v Y,
  forallb isJws w = true -> pv (u " " ++ X) = POk v (u "," ++ Y) ->
  pMembers pv (S g) acc (w ++ quoteJSON k ++ u ": " ++ X) = pMembers pv g (objSet k v acc) Y.
Proof.
  intros pv g acc w k X v Y Hw H.
  assert (E : quoteJSON k ++ u ": " ++ X = quote :: quoteUnits k ++ quote :: 58%N :: 32%N :: X)
    by (unfold quoteJSON; simpl; rewrite <- app_assoc; reflexivity).
  cbn [pMembers]. rewrite skipJws_app by exact Hw. rewrite E.
  change (u " " ++ X) with (32%N :: X) in H.
  cbn -[pStringBody quoteUnits]. rewrite quoteUnits_parse.
  cbn -[pStringBody quoteUnits]. rewrite H. reflexivity.
Qed.

Lemma pMembers_close : forall pv g acc w k X v j rest,
  forallb isJws w = true -> pv (u " " ++ X) = POk v (nl ++ spaces j ++ u "}" ++ rest) ->
  pMembers pv (S g) acc (w ++ quoteJSON k ++ u ": " ++ X) = POk (JObj (objSet k v acc)) rest.
Proof.
  intros pv g acc w k X v j rest Hw H.
  assert (E : quoteJSON k ++ u ": " ++ X = quote :: quoteUnits k ++ quote :: 58%N :: 32%N :: X)
    by (unfold quoteJSON; simpl; rewrite <- app_assoc; reflexivity).
  cbn [pMembers]. rewrite skipJws_app by exact Hw. rewrite E.
  change (u " " ++ X) with (32%N :: X) in H.
  cbn -[pStringBody quoteUnits]. rewrite quoteUnits_parse.
  cbn -[pStringBody quoteUnits]. rewrite H.
  change (nl ++ spaces j ++ u "}" ++ rest) with ((nl ++ spaces j) ++ 125%N :: rest).
  rewrite skipJws_app by apply nl_spaces_jws; reflexivity.
Qed.

Lemma NoDup_middle_notin : forall (l1 l2 : list jstr) a, NoDup (l1 ++ a :: l2) -> ~ In a l1.
Proof.
  intros l1 l2 a H Hin. apply NoDup_remove_2 in H. apply H, in_or_app; left; exact Hin.
Qed.

Lemma objSet_middle : forall k v acc ks,
  nodupb (map fst acc ++ k :: ks) = true -> idxOrd 0 (map fst acc ++ k :: ks) = true ->
  objSet k v acc = acc ++ [(k, v)].
Proof.
  intros k v acc ks Hnd Hio; apply objSet_app.
  - apply nodupb_NoDup in Hnd; eapply NoDup_middle_notin; exact Hnd.
  - apply (idxOrd_app_l _ ks); rewrite <- app_assoc; exact Hio.
Qed.

Section SerParseObj.

Variable f : nat.
Hypothesis IHf : forall v ind w rest, wfb v = true -> (jsize v <= f)%nat ->
  forallb isJws w = true -> stopc rest -> pValue f (w ++ ser ind v ++ rest) = POk (normalize v) rest.

Lemma pMembers_ser : forall ps k x acc g ind j w rest,
  forallb isJws w = true ->
  nodupb (map fst acc ++ k :: map fst ps) = true -> idxOrd 0 (map fst acc ++ k :: map fst ps) = true ->
  wfb x = true -> forallb (fun p => wfb (snd p)) ps = true ->
  (jsize x <= f)%nat -> Forall (fun p => (jsize (snd p) <= f)%nat) ps -> (List.length ps < g)%nat ->
  pMembers (pValue f) g acc
    (w ++ quoteJSON k ++ u ": " ++ ser ind x
       ++ List.concat (map (fun p => u "," ++ nl ++ spaces ind ++ quoteJSON (fst p)
                                  ++ u ": " ++ ser ind (snd p)) ps)
       ++ nl ++ spaces j ++ u "}" ++ rest)
  = POk (JObj (acc ++ map (fun p => (fst p, normalize (snd p))) ((k, x) :: ps))) rest.
Proof.
  induction ps as [|[k' x'] ps IH]; intros k x acc g ind j w rest Hw Hnd Hio Hx Hxs Hsx Hsxs Hg;
    (destruct g as [|g]; [simpl in Hg; lia|]).
  - rewrite (pMembers_close (pValue f) g acc w k _ (normalize x) j rest Hw);
      [rewrite (objSet_middle k (normalize x) acc _ Hnd Hio); reflexivity|].
    apply (IHf x ind (u " ") (nl ++ spaces j ++ u "}" ++ rest)); auto. right; reflexivity.
  - cbn [forallb] in Hxs; apply andb_prop in Hxs as [Hx' Hxs].
    apply Forall_cons_iff in Hsxs as [Hsx' Hsxs].
    rewrite concat_cons_app; cbv beta; cbn [fst snd].
    set (Y := nl ++ spaces ind ++ quoteJSON k' ++ u ": " ++ ser ind x'
          ++ List.concat (map (fun p => u "," ++ nl ++ spaces ind ++ quoteJSON (fst p)
                                  ++ u ": " ++ ser ind (snd p)) ps)
          ++ nl ++ spaces j ++ u "}" ++ rest).
    transitivity (pMembers (pValue f) g (objSet k (normalize x) acc) Y).
    + rewrite <- (pMembers_comma (pValue f) g acc w k (ser ind x ++ u "," ++ Y) (normalize x) Y Hw).
      * unfold Y; rewrite <- !app_assoc; reflexivity.
      * apply (IHf x ind (u " ") (u "," ++ Y)); auto. left; reflexivity.
    + rewrite (objSet_middle k (normalize x) acc _ Hnd Hio).
      unfold Y; rewrite app_assoc.
      etransitivity; [apply (IH k' x' (acc ++ [(k, normalize x)]) g ind j (nl ++ spaces ind) rest)|].
      * apply nl_spaces_jws.
      * rewrite map_app; cbn [map fst]; rewrite <- app_assoc; exact Hnd.
      * rewrite map_app; cbn [map fst]; rewrite <- app_assoc; exact Hio.
      * exact Hx'.
      * exact Hxs.
      * exact Hsx'.
      * exact Hsxs.
      * cbn [Datatypes.length] in Hg; lia.
      * rewrite <- app_assoc; reflexivity.
Qed.

End SerParseObj.

Lemma list_sum_S_len {A} (g : A -> nat) l :
  (List.length l <= list_sum (map (fun x => S (g x)) l))%nat.
Proof. induction l as [|a l IH]; simpl; lia. Qed.

Lemma list_sum_S_in {A} (g : A -> nat) l y : In y l ->
  (S (g y) <= list_sum (map (fun x => S (g x)) l))%nat.
Proof. induction l as [|a l IH]; simpl; [tauto|]. intros [->|H]; [lia|specialize (IH H); lia]. Qed.

Lemma jsize_pos : forall v, (1 <= jsize v)%nat.
Proof. destruct v; simpl; lia. Qed.

Lemma pValue_skip : forall n w s, forallb isJws w = true -> pValue n (w ++ s) = pValue n s.
Proof. intros [|n] w s H; [reflexivity|]. cbn [pValue]. rewrite skipJws_app by exact H. reflexivity. Qed.

Lemma skipJws_nl_spaces : forall j s, skipJws (nl ++ spaces j ++ s) = skipJws s.
Proof. intros j s; rewrite app_assoc; apply skipJws_app, nl_spaces_jws. Qed.

Lemma pValue_arr : forall n t c1 t1, skipJws t = c1 :: t1 -> c1 <> 93%N ->
  pValue (S n) (91%N :: t) = pElems (pValue n) n [] t.
Proof.
  intros n t c1 t1 H Hc; simpl. rewrite H. change (ch "]") with 93%N.
  destruct (N.eqb_spec c1 93); [contradiction|reflexivity].
Qed.

Lemma pValue_obj : forall n t c1 t1, skipJws t = c1 :: t1 -> c1 <> 125%N ->
  pValue (S n) (123%N :: t) = pMembers (pValue n) n [] t.
Proof.
  intros n t c1 t1 H Hc; simpl. rewrite H. change (ch "}") with 125%N.
  destruct (N.eqb_spec c1 125); [contradiction|reflexivity].
Qed.

Lemma pValue_num : forall n c t, (c = 45%N \/ isDigit c = true) ->
  pValue (S n) (c :: t) = pNumber (c :: t).
Proof.
  intros n c t [->|Hd]; [reflexivity|].
  apply isDigit_range in Hd.
  assert (c = 48 \/ c = 49 \/ c = 50 \/ c = 51 \/ c = 52 \/ c = 53 \/ c = 54 \/ c = 55
          \/ c = 56 \/ c = 57)%N as Hc by lia.
  repeat destruct Hc as [->|Hc]; try reflexivity; subst; reflexivity.
Qed.

Lemma ser_parse : forall n v ind w rest, wfb v = true -> (jsize v <= n)%nat ->
  forallb isJws w = true -> stopc rest -> pValue n (w ++ ser ind v ++ rest) = POk (normalize v) rest.
Proof.
  induction n as [|n IH]; intros v ind w rest Hv Hs Hw Hr;
    [pose proof (jsize_pos v); lia|].
  rewrite pValue_skip by exact Hw.
  destruct v as [| [|] | [z| |] | s | [|x xs] | [|[k x] o]].
  - reflexivity.
  - reflexivity.
  - reflexivity.
  - cbn [wfb] in Hv; apply jsnum_eqb_spec in Hv.
    cbn [ser serNum normalize].
    destruct (numToString_head z Hv) as (c & t & Et & Hc).
    pose proof (numToString_parse z rest Hv (stopc_numStop rest Hr)) as Hp.
    rewrite Et in Hp |- *. cbn [app] in Hp |- *.
    rewrite pValue_num by exact Hc. exact Hp.
  - reflexivity.
  - reflexivity.
  - cbn [ser normalize]. unfold quoteJSON. cbn [app]. rewrite <- app_assoc. cbn [app].
    change (pValue (S n) (quote :: quoteUnits s ++ quote :: rest))
      with (match pStringBody (quoteUnits s ++ quote :: rest) [] with
            | POk str r => POk (JStr str) r | PFail e => PFail e end).
    rewrite quoteUnits_parse. reflexivity.
  - reflexivity.
  - cbn [wfb forallb] in Hv; apply andb_prop in Hv as [Hx Hxs].
    change (S (S (jsize x) + list_sum (map (fun x => S (jsize x)) xs)) <= S n)%nat in Hs.
    pose proof (list_sum_S_len jsize xs). pose proof (jsize_pos x).
    cbn [ser]. rewrite <- !app_assoc. change (u "[") with [91%N]. cbn [app].
    destruct (ser_head (ind + 2) x Hx) as (c & t & Ec & Hc).
    destruct (headChar_facts c Hc) as (Hc1 & _ & Hc2 & _).
    rewrite (pValue_arr n _ c (t ++ List.concat (map (fun y => u "," ++ nl ++ spaces (ind + 2) ++ ser (ind + 2) y) xs)
        ++ nl ++ spaces ind ++ u "]" ++ rest)).
    + etransitivity; [apply (pElems_ser n IH xs x [] n (ind + 2) ind (nl ++ spaces (ind + 2)) rest)|].
      * apply nl_spaces_jws.
      * exact Hx.
      * exact Hxs.
      * lia.
      * apply Forall_forall; intros y Hy; pose proof (list_sum_S_in jsize xs y Hy); lia.
      * lia.
      * reflexivity.
    + rewrite skipJws_nl_spaces, Ec; cbn [app]. apply skipJws_nonws, Hc1.
    + exact Hc2.
  - reflexivity.
  - cbn [wfb forallb fst snd map] in Hv; apply andb_prop in Hv as [Hk Hv]; apply andb_prop in Hv as [Hx Hxs].
    unfold canonKeys in Hk; apply andb_prop in Hk as [Hnd Hio].
    change (S (S (jsize x) + list_sum (map (fun p => S (jsize (snd p))) o)) <= S n)%nat in Hs.
    pose proof (list_sum_S_len (fun p => jsize (snd p)) o). pose proof (jsize_pos x).
    cbn [ser]. rewrite <- !app_assoc. change (u "{") with [123%N]. cbn [app].
    rewrite (pValue_obj n _ quote (quoteUnits k ++ quote :: u ": " ++ ser (ind + 2) x ++ List.concat (map (fun p => u "," ++ nl ++ spaces (ind + 2) ++ quoteJSON (fst p)
                                   ++ u ": " ++ ser (ind + 2) (snd p)) o) ++ nl ++ spaces ind ++ u "}" ++ rest)).
    + etransitivity; [apply (pMembers_ser n IH o k x [] n (ind + 2) ind (nl ++ spaces (ind + 2)) rest)|].
      * apply nl_spaces_jws.
      * exact Hnd.
      * exact Hio.
      * exact Hx.
      * exact Hxs.
      * lia.
      * apply Forall_forall; intros p Hp; pose proof (list_sum_S_in (fun p => jsize (snd p)) o p Hp); lia.
      * lia.
      * reflexivity.
    + rewrite skipJws_nl_spaces. unfold quoteJSON. cbn [app]. rewrite <- app_assoc. reflexivity.
    + discriminate.
Qed.

Lemma length_concat_ge {A} (F : A -> jstr) (g : A -> nat) l :
  Forall (fun y => (S (g y) <= List.length (F y))%nat) l ->
  (list_sum (map (fun y => S (g y)) l) <= List.length (List.concat (map F l)))%nat.
Proof.
  induction l as [|a l IH]; intros H; [simpl; lia|].
  apply Forall_cons_iff in H as [Ha H]; specialize (IH H).
  cbn [map List.concat]. rewrite length_app.
  change (list_sum (S (g a) :: map (fun y => S (g y)) l))
    with (S (g a) + list_sum (map (fun y => S (g y)) l))%nat.
  lia.
Qed.

Lemma jsize_le_ser : forall v ind, wfb v = true -> (jsize v <= List.length (ser ind v))%nat.
Proof.
  intros v; pattern v; apply jval_nested_ind; clear v.
  - intros; simpl; lia.
  - intros [|] ind _; simpl; lia.
  - intros [z| |] ind Hw; [|simpl; lia..].
    destruct (ser_head ind (JNum (Fin z)) Hw) as (c & t & E & _); rewrite E; simpl; lia.
  - intros s ind _; cbn [jsize ser]; unfold quoteJSON; cbn [List.length]; lia.
  - intros [|x xs] HP ind Hw; [simpl; lia|].
    cbn [wfb forallb] in Hw; apply andb_prop in Hw as [Hx Hxs].
    apply Forall_cons_iff in HP as [Px HP].
    change (S (S (jsize x) + list_sum (map (fun x => S (jsize x)) xs))
            <= List.length (ser ind (JArr (x :: xs))))%nat.
    cbn [ser]. rewrite !length_app.
    pose proof (Px (ind + 2)%nat Hx).
    assert (list_sum (map (fun x => S (jsize x)) xs) <= List.length (List.concat
      (map (fun y => u "," ++ nl ++ spaces (ind + 2)%nat ++ ser (ind + 2)%nat y) xs)))%nat.
    { apply length_concat_ge. rewrite Forall_forall in HP |- *. intros y Hy.
      rewrite forallb_forall in Hxs. pose proof (HP y Hy (ind + 2)%nat (Hxs y Hy)).
      rewrite !length_app; cbn [Datatypes.length u map list_ascii_of_string nl]. lia. }
    change (Datatypes.length (u "[")) with 1%nat in *; change (Datatypes.length (u "]")) with 1%nat in *;
    change (Datatypes.length nl) with 1%nat in *. lia.
  - intros [|[k x] o] HP ind Hw; [simpl; lia|].
    cbn [wfb forallb fst snd map] in Hw; apply andb_prop in Hw as [_ Hw]; apply andb_prop in Hw as [Hx Hxs].
    apply Forall_cons_iff in HP as [Px HP]; cbn [snd] in Px.
    change (S (S (jsize x) + list_sum (map (fun p => S (jsize (snd p))) o))
            <= List.length (ser ind (JObj ((k, x) :: o))))%nat.
    cbn [ser]. rewrite !length_app.
    pose proof (Px (ind + 2)%nat Hx).
    assert (list_sum (map (fun p => S (jsize (snd p))) o) <= List.length (List.concat
      (map (fun p => u "," ++ nl ++ spaces (ind + 2)%nat ++ quoteJSON (fst p)
                                   ++ u ": " ++ ser (ind + 2)%nat (snd p)) o)))%nat.
    { apply length_concat_ge. rewrite Forall_forall in HP |- *. intros p Hp.
      rewrite forallb_forall in Hxs. pose proof (HP p Hp (ind + 2)%nat (Hxs p Hp)).
      rewrite !length_app; cbn [Datatypes.length u map list_ascii_of_string nl]. lia. }
    change (Datatypes.length (u "{")) with 1%nat in *; change (Datatypes.length (u "}")) with 1%nat in *;
    change (Datatypes.length nl) with 1%nat in *. lia.
Qed.

Lemma jsonParse_stringify : forall v, wfb v = true -> jsonParse (stringify v) = inr (normalize v).
Proof.
  intros v Hv; unfold jsonParse, stringify.
  pose proof (jsize_le_ser v 0 Hv).
  pose proof (ser_parse (S (List.length (ser 0 v))) v 0 [] [] Hv ltac:(lia) eq_refl I) as Hp.
  rewrite app_nil_r in Hp; cbn [app] in Hp. rewrite Hp. reflexivity.
Qed.

Lemma stripSemi_app : forall s, stripSemi (s ++ [59%N; 10%N]) = s.
Proof.
  induction s as [|c s IH]; [reflexivity|].
  cbn [app stripSemi]. rewrite IH.
  assert (E : forallb isWs (s ++ [59%N; 10%N]) = false)
    by (rewrite forallb_app; cbn; apply andb_false_r).
  rewrite E, andb_false_r; reflexivity.
Qed.

Lemma stripLit_app : forall p X, stripLit p (p ++ X) = Some X.
Proof. induction p as [|a p IH]; intros X; [reflexivity|]. cbn [app stripLit]. rewrite N.eqb_refl; apply IH. Qed.

Lemma stripDecl_render : forall v, wfb v = true ->
  stripSemi (stripDecl (renderModule v)) = stringify v.
Proof.
  intros v Hv; unfold stripDecl, renderModule. rewrite stripLit_app.
  destruct (ser_head 0 v Hv) as (c & t & E & Hc).
  destruct (headChar_facts c Hc) as (_ & Hws & _).
  unfold stringify; rewrite E. cbn [nl app dropWs]. change (isWs 10) with true. cbn [dropWs].
  rewrite Hws. rewrite app_comm_cons, <- E. apply stripSemi_app.
Qed.

Lemma render_parse : forall v, wfb v = true ->
  jsonParse (stripSemi (stripDecl (renderModule v))) = inr (normalize v).
Proof. intros v Hv; rewrite stripDecl_render by exact Hv; apply jsonParse_stringify, Hv. Qed.

Lemma parseInt_double : forall s z, parseInt s = Some (Fin z) -> numberValue z = Fin z.
Proof.
  intros s z; unfold parseInt.
  repeat match goal with |- context [let '(_, _) := ?p in _] => destruct p end.
  destruct (takeDigits _ _); [discriminate|].
  intros H; injection H as H; eapply numberValue_idem; exact H.
Qed.

Lemma orThree_double : forall n z, (forall y, n = Some (Fin y) -> numberValue y = Fin y) ->
  orThree n = Fin z -> numberValue z = Fin z.
Proof.
  intros [[[|p|p]| |]|] z H E; simpl in E; try discriminate; injection E as <-;
    try reflexivity; apply H; reflexivity.
Qed.

Lemma collectRules_double : forall files r, In r (collectRules files) -> isDouble (priority r).
Proof.
  intros files r H; unfold collectRules in H.
  apply in_flat_map in H as [f [_ Hf]].
  destruct (categoryOf (fst f)) as [c|]; [|contradiction].
  destruct (in_parseXmlFile _ _ _ Hf) as (attrs & body & _ & Hb).
  destruct (buildRule_Some _ _ _ _ _ Hb) as (_ & _ & ->). cbn [priority].
  destruct (orThree _) as [z| |] eqn:E; cbn [isDouble]; auto.
  eapply orThree_double; [|exact E]. intros y Hy; eapply parseInt_double; exact Hy.
Qed.

Lemma wfb_map_JStr : forall l, wfb (JArr (map JStr l)) = true.
Proof. induction l as [|a l IH]; [reflexivity|]. exact IH. Qed.

Lemma wfb_map_propObject : forall l, wfb (JArr (map propObject l)) = true.
Proof. induction l as [|a l IH]; [reflexivity|]. exact IH. Qed.

Lemma ruleObject_wf : forall r, isDouble (priority r) -> wfb (ruleObject r) = true.
Proof.
  intros r Hd.
  assert (HN : wfb (JNum (priority r)) = true)
    by (destruct (priority r) as [z| |]; cbn [wfb]; auto; apply jsnum_eqb_spec, Hd).
  pose proof (wfb_map_JStr (examples r)) as HE.
  pose proof (wfb_map_propObject (properties r)) as HP.
  revert HN HE HP; unfold ruleObject.
  generalize (JNum (priority r)) (JArr (map JStr (examples r))) (JArr (map propObject (properties r))).
  intros a b c Ha Hb Hc.
  destruct (Nat.ltb _ _), (isEmpty (maxLangVersion r)), (isEmpty (minLangVersion r));
    cbn [wfb]; (apply andb_true_intro; split; [vm_compute; reflexivity|]);
    cbn [forallb app snd wfb]; rewrite Ha, Hb; try rewrite Hc; reflexivity.
Qed.

Lemma catalogue_wf : forall lc files, wfb (catalogue lc files) = true.
Proof.
  intros lc files; unfold catalogue; cbn [wfb]. apply forallb_forall.
  intros x Hx; apply in_map_iff in Hx as (r & <- & Hr).
  apply ruleObject_wf, (collectRules_double files).
  eapply Permutation_in; [apply sortRules_perm | exact Hr].
Qed.

Lemma normalize_ruleObject : forall r z, priority r = Fin z -> normalize (ruleObject r) = ruleObject r.
Proof.
  intros r z Hp; unfold ruleObject.
  assert (E1 : map normalize (map JStr (examples r)) = map JStr (examples r))
    by (rewrite map_map; reflexivity).
  assert (E2 : map normalize (map propObject (properties r)) = map propObject (properties r))
    by (rewrite map_map; reflexivity).
  destruct (Nat.ltb _ _), (isEmpty (maxLangVersion r)), (isEmpty (minLangVersion r));
    cbn [normalize map fst snd app]; rewrite Hp, E1; try rewrite E2; reflexivity.
Qed.

Lemma normalize_catalogue : forall lc files,
  Forall (fun r => exists z, priority r = Fin z) (collectRules files) ->
  normalize (catalogue lc files) = catalogue lc files.
Proof.
  intros lc files H; unfold catalogue; cbn [normalize]. f_equal.
  rewrite map_map. apply map_ext_in. intros r Hr.
  rewrite Forall_forall in H.
  destruct (H r (Permutation_in _ (sortRules_perm lc _) Hr)) as [z Hz].
  eapply normalize_ruleObject; exact Hz.
Qed.

(* ------------------------------------------------------------------ *)
(** ** Objects, JSON.parse and the annotator *)

Lemma hasKey_false_notin : forall k o, hasKey k o = false -> ~ In k (map fst o).
Proof.
  intros k o; unfold hasKey; induction o as [|p o IH]; intros H; simpl; [tauto|].
  simpl in H; apply orb_false_iff in H as [H1 H2].
  intros [E|Hin]; [subst; rewrite (proj2 (jstr_eqb_spec _ _) eq_refl) in H1; discriminate|].
  exact (IH H2 Hin).
Qed.

Lemma hasKey_true_in : forall k o, hasKey k o = true -> In k (map fst o).
Proof.
  intros k o H; destruct (in_dec (list_eq_dec N.eq_dec) k (map fst o)) as [Hin|Hn]; [exact Hin|].
  rewrite hasKey_notin in H by exact Hn; discriminate.
Qed.

Lemma insertIndexKey_perm : forall o i k v, Permutation (insertIndexKey i k v o) ((k, v) :: o).
Proof.
  induction o as [|[k' v'] o IH]; intros i k v; [reflexivity|]. cbn [insertIndexKey].
  destruct (arrayIndex k'); [|reflexivity].
  destruct (i <? z); [reflexivity|].
  rewrite IH; apply perm_swap.
Qed.

Lemma idxOrd_insert : forall o lo i k v, idxOrd lo (map fst o) = true -> lo <= i ->
  arrayIndex k = Some i -> idxOrd lo (map fst (insertIndexKey i k v o)) = true.
Proof.
  induction o as [|[k' v'] o IH]; intros lo i k v H Hi Hk.
  - cbn; rewrite Hk; apply andb_true_intro; split; [apply Z.leb_le; exact Hi | reflexivity].
  - cbn [insertIndexKey map fst idxOrd] in H |- *. destruct (arrayIndex k') as [j|] eqn:Ej.
    + apply andb_prop in H as [H1 H2]; apply Z.leb_le in H1.
      destruct (Z.ltb_spec i j).
      * cbn [map fst idxOrd]; rewrite Hk, Ej.
        apply andb_true_intro; split; [apply Z.leb_le; lia|].
        apply andb_true_intro; split; [apply Z.leb_le; lia | exact H2].
      * cbn [map fst idxOrd]; rewrite Ej.
        apply andb_true_intro; split; [apply Z.leb_le; lia|]. apply IH; auto.
    + cbn [map fst idxOrd]; rewrite Hk, Ej.
      apply andb_true_intro; split; [apply Z.leb_le; lia | exact H].
Qed.

Lemma idxOrd_snoc : forall ks lo k, idxOrd lo ks = true -> arrayIndex k = None ->
  idxOrd lo (ks ++ [k]) = true.
Proof.
  induction ks as [|k' ks IH]; intros lo k H Hk; cbn [app idxOrd] in *.
  - rewrite Hk; reflexivity.
  - destruct (arrayIndex k').
    + apply andb_prop in H as [H1 H2]; rewrite H1; apply IH; auto.
    + unfold noIndex in *; rewrite forallb_app, H; cbn; rewrite Hk; reflexivity.
Qed.

Lemma digitVal_nonneg : forall c d, digitVal c = Some d -> 0 <= d.
Proof.
  intros c d; unfold digitVal.
  destruct ((48 <=? c) && (c <=? 57))%N eqn:E1;
    [intros H; injection H as <-; apply andb_prop in E1 as [E1 _]; apply N.leb_le in E1; lia|].
  destruct ((97 <=? c) && (c <=? 122))%N eqn:E2;
    [intros H; injection H as <-; apply andb_prop in E2 as [E2 _]; apply N.leb_le in E2; lia|].
  destruct ((65 <=? c) && (c <=? 90))%N eqn:E3;
    [intros H; injection H as <-; apply andb_prop in E3 as [E3 _]; apply N.leb_le in E3; lia|].
  discriminate.
Qed.

Lemma digitsValue_nonneg_acc : forall ds acc, 0 <= acc ->
  0 <= fold_left (fun acc c => acc * 10 + match digitVal c with Some d => d | None => 0 end) ds acc.
Proof.
  induction ds as [|c ds IH]; intros acc H; [exact H|]. cbn [fold_left]. apply IH.
  destruct (digitVal c) eqn:E; [apply digitVal_nonneg in E|]; lia.
Qed.

Lemma arrayIndex_nonneg : forall k i, arrayIndex k = Some i -> 0 <= i.
Proof.
  intros [|c t] i; unfold arrayIndex; [discriminate|].
  destruct (_ && _); [|discriminate].
  destruct (_ <? _); [|discriminate]. intros H; injection H as <-.
  apply digitsValue_nonneg_acc; lia.
Qed.

Lemma objSet_in : forall k v o p, In p (objSet k v o) -> In p o \/ p = (k, v).
Proof.
  intros k v o p; unfold objSet. destruct (hasKey k o).
  - intros H; apply in_map_iff in H as (p0 & <- & Hp0).
    destruct (jstr_eqb (fst p0) k); auto.
  - destruct (arrayIndex k).
    + intros H; apply (Permutation_in _ (insertIndexKey_perm o z k v)) in H.
      destruct H as [<-|H]; auto.
    + intros H; apply in_app_or in H as [H|[<-|[]]]; auto.
Qed.

Lemma objSet_keys_has : forall k v o, hasKey k o = true -> map fst (objSet k v o) = map fst o.
Proof.
  intros k v o H; unfold objSet; rewrite H, map_map. apply map_ext_in.
  intros p _. destruct (jstr_eqb (fst p) k) eqn:E; [apply jstr_eqb_spec in E; auto | reflexivity].
Qed.

Lemma objSet_canon : forall k v o, canonKeys (map fst o) = true ->
  canonKeys (map fst (objSet k v o)) = true.
Proof.
  intros k v o H. destruct (hasKey k o) eqn:Hk; [rewrite objSet_keys_has by exact Hk; exact H|].
  unfold canonKeys in *; apply andb_prop in H as [Hnd Hio].
  apply nodupb_NoDup in Hnd. apply hasKey_false_notin in Hk.
  unfold objSet; rewrite (hasKey_notin k o Hk). destruct (arrayIndex k) as [i|] eqn:Ei.
  - apply andb_true_intro; split.
    + apply nodupb_NoDup.
      apply (Permutation_NoDup (Permutation_sym (Permutation_map fst (insertIndexKey_perm o i k v)))).
      constructor; auto.
    + apply idxOrd_insert; auto. eapply arrayIndex_nonneg; exact Ei.
  - rewrite map_app; apply andb_true_intro; split.
    + apply nodupb_NoDup. apply NoDup_app; auto.
      * constructor; [tauto | constructor].
      * intros x Hx [<-|[]]; contradiction.
    + apply idxOrd_snoc; auto.
Qed.

Lemma objSet_wf : forall k v o, wfb (JObj o) = true -> wfb v = true ->
  wfb (JObj (objSet k v o)) = true.
Proof.
  intros k v o H Hv; cbn [wfb] in *; apply andb_prop in H as [Hc Hs].
  apply andb_true_intro; split; [apply objSet_canon, Hc|].
  apply forallb_forall; intros p Hp; apply objSet_in in Hp as [Hp|Hp]; [|subst p; exact Hv].
  rewrite forallb_forall in Hs; apply Hs, Hp.
Qed.

Lemma wfb_numberValue : forall z, wfb (JNum (numberValue z)) = true.
Proof.
  intros z; destruct (numberValue z) as [y| |] eqn:E; cbn [wfb]; auto.
  apply jsnum_eqb_spec; eapply numberValue_idem; exact E.
Qed.

Lemma pNumber_wf : forall s v r, pNumber s = POk v r -> wfb v = true.
Proof.
  intros s v r H; unfold pNumber in H.
  repeat match type of H with
  | context [match ?x with _ => _ end] => destruct x
  end; try discriminate; injection H as <- _; apply wfb_numberValue.
Qed.

Lemma pElems_wf : forall pv, (forall s v r, pv s = POk v r -> wfb v = true) ->
  forall g acc s v r, forallb wfb acc = true -> pElems pv g acc s = POk v r -> wfb v = true.
Proof.
  intros pv Hpv; induction g as [|g IH]; intros acc s v r Ha H; [discriminate|].
  cbn [pElems] in H. destruct (pv s) as [x r0|e] eqn:E; [|discriminate].
  apply Hpv in E.
  destruct (skipJws r0) as [|c1 r1]; [discriminate|].
  destruct (c1 =? ch ",")%N.
  - eapply IH; [|exact H]. cbn [forallb]; rewrite E, Ha; reflexivity.
  - destruct (c1 =? ch "]")%N; [|discriminate]. injection H as <- _.
    cbn [wfb]; apply forallb_forall; intros y Hy; apply in_app_or in Hy as [Hy|[<-|[]]]; [|exact E].
    rewrite <- in_rev in Hy. rewrite forallb_forall in Ha; apply Ha, Hy.
Qed.

Lemma pMembers_wf : forall pv, (forall s v r, pv s = POk v r -> wfb v = true) ->
  forall g acc s v r, wfb (JObj acc) = true -> pMembers pv g acc s = POk v r -> wfb v = true.
Proof.
  intros pv Hpv; induction g as [|g IH]; intros acc s v r Ha H; [discriminate|].
  cbn [pMembers] in H. destruct (skipJws s) as [|c1 t1]; [discriminate|].
  destruct (c1 =? quote)%N; [|discriminate].
  destruct (pStringBody t1 []) as [k r0|e]; [|discriminate].
  destruct (skipJws r0) as [|c2 r2]; [discriminate|].
  destruct (c2 =? ch ":")%N; [|discriminate].
  destruct (pv r2) as [x r3|e] eqn:E; [|discriminate]. apply Hpv in E.
  pose proof (objSet_wf k x acc Ha E) as Hw.
  destruct (skipJws r3) as [|c3 r4]; [discriminate|].
  destruct (c3 =? ch ",")%N; [eapply IH; [exact Hw | exact H]|].
  destruct (c3 =? ch "}")%N; [|discriminate]. injection H as <- _; exact Hw.
Qed.

Lemma pValue_wf : forall n s v r, pValue n s = POk v r -> wfb v = true.
Proof.
  induction n as [|n IH]; intros s v r H; [discriminate|].
  cbn [pValue] in H. destruct (skipJws s) as [|c t]; [discriminate|].
  destruct (c =? quote)%N.
  { destruct (pStringBody t []); [|discriminate]. injection H as <- _; reflexivity. }
  destruct (c =? ch "[")%N.
  { destruct (skipJws t) as [|c1 t1]; [discriminate|].
    destruct (c1 =? ch "]")%N; [injection H as <- _; reflexivity|].
    exact (pElems_wf _ IH _ [] _ _ _ eq_refl H). }
  destruct (c =? ch "{")%N.
  { destruct (skipJws t) as [|c1 t1]; [discriminate|].
    destruct (c1 =? ch "}")%N; [injection H as <- _; reflexivity|].
    exact (pMembers_wf _ IH _ [] _ _ _ eq_refl H). }
  destruct (c =? ch "n")%N.
  { destruct (stripLit _ t); [injection H as <- _; reflexivity | discriminate]. }
  destruct (c =? ch "t")%N.
  { destruct (stripLit _ t); [injection H as <- _; reflexivity | discriminate]. }
  destruct (c =? ch "f")%N.
  { destruct (stripLit _ t); [injection H as <- _; reflexivity | discriminate]. }
  destruct ((c =? ch "-")%N || isDigit c); [eapply pNumber_wf; exact H | discriminate].
Qed.

Lemma jsonParse_wf : forall s v, jsonParse s = inr v -> wfb v = true.
Proof.
  intros s v; unfold jsonParse. destruct (pValue _ s) as [x r|e] eqn:E; [|discriminate].
  destruct (isEmpty (skipJws r)); [|discriminate]. intros H; injection H as <-.
  eapply pValue_wf; exact E.
Qed.

Lemma objGet_mapV : forall f k o,
  objGet k (map (fun p => (fst p, f (snd p))) o) = option_map f (objGet k o).
Proof.
  intros f k; induction o as [|[k' v] o IH]; [reflexivity|]. cbn [map objGet fst snd].
  destruct (jstr_eqb k' k); [reflexivity | exact IH].
Qed.

Lemma insertIndexKey_mapV : forall f i k v o,
  insertIndexKey i k (f v) (map (fun p => (fst p, f (snd p))) o)
  = map (fun p => (fst p, f (snd p))) (insertIndexKey i k v o).
Proof.
  intros f i k v; induction o as [|[k' v'] o IH]; [reflexivity|]. cbn [insertIndexKey map fst snd].
  destruct (arrayIndex k'); [|reflexivity]. destruct (i <? z); [reflexivity|].
  cbn [map fst snd]; rewrite IH; reflexivity.
Qed.

Lemma objSet_mapV : forall f k v o,
  objSet k (f v) (map (fun p => (fst p, f (snd p))) o)
  = map (fun p => (fst p, f (snd p))) (objSet k v o).
Proof.
  intros f k v o; unfold objSet.
  assert (Hk : hasKey k (map (fun p => (fst p, f (snd p))) o) = hasKey k o)
    by (unfold hasKey; induction o as [|p o IH]; [reflexivity|]; cbn [map existsb fst]; rewrite IH; reflexivity).
  rewrite Hk; destruct (hasKey k o).
  - rewrite !map_map; apply map_ext; intros [k' v']; cbn [fst snd].
    destruct (jstr_eqb k' k); reflexivity.
  - destruct (arrayIndex k); [apply insertIndexKey_mapV|].
    rewrite map_app; reflexivity.
Qed.

Lemma objGet_app_other : forall k k' v o, k <> k' -> objGet k' (o ++ [(k, v)]) = objGet k' o.
Proof.
  intros k k' v; induction o as [|[k0 v0] o IH]; intros Hk; cbn [app objGet].
  - destruct (jstr_eqb k k') eqn:E; [apply jstr_eqb_spec in E; contradiction | reflexivity].
  - destruct (jstr_eqb k0 k'); [reflexivity | apply IH, Hk].
Qed.

Lemma objGet_insert_other : forall i k k' v o, k <> k' ->
  objGet k' (insertIndexKey i k v o) = objGet k' o.
Proof.
  intros i k k' v; induction o as [|[k0 v0] o IH]; intros Hk; cbn [insertIndexKey objGet].
  - destruct (jstr_eqb k k') eqn:E; [apply jstr_eqb_spec in E; contradiction | reflexivity].
  - assert (E : jstr_eqb k k' = false)
      by (destruct (jstr_eqb k k') eqn:E; [apply jstr_eqb_spec in E; contradiction | reflexivity]).
    destruct (arrayIndex k0).
    + destruct (i <? z); cbn [objGet]; [rewrite E; reflexivity|].
      destruct (jstr_eqb k0 k'); [reflexivity | apply IH, Hk].
    + cbn [objGet]; rewrite E; reflexivity.
Qed.

Lemma objGet_objSet_other : forall k k' v o, k <> k' -> objGet k' (objSet k v o) = objGet k' o.
Proof.
  intros k k' v o Hk; unfold objSet. destruct (hasKey k o).
  - induction o as [|[k0 v0] o IH]; [reflexivity|]. cbn [map objGet fst].
    destruct (jstr_eqb k0 k) eqn:E; cbn [objGet].
    + apply jstr_eqb_spec in E; subst k0.
      destruct (jstr_eqb k k') eqn:E'; [apply jstr_eqb_spec in E'; contradiction|exact IH].
    + destruct (jstr_eqb k0 k'); [reflexivity | exact IH].
  - destruct (arrayIndex k); [apply objGet_insert_other, Hk | apply objGet_app_other, Hk].
Qed.

Lemma hasKey_iff : forall k o, hasKey k o = true <-> In k (map fst o).
Proof.
  intros k o; split; [apply hasKey_true_in|].
  intros H; destruct (hasKey k o) eqn:E; [reflexivity|]. apply hasKey_false_notin in E; contradiction.
Qed.

Lemma objSet_keys_incl : forall k v o x, In x (map fst o) -> In x (map fst (objSet k v o)).
Proof.
  intros k v o x H. destruct (hasKey k o) eqn:Hk; [rewrite objSet_keys_has by exact Hk; exact H|].
  unfold objSet; rewrite Hk. destruct (arrayIndex k).
  - apply (Permutation_in _ (Permutation_sym (Permutation_map fst (insertIndexKey_perm o z k v)))).
    right; exact H.
  - rewrite map_app; apply in_or_app; left; exact H.
Qed.

Lemma objSet_has : forall k v o, hasKey k (objSet k v o) = true.
Proof.
  intros k v o; apply hasKey_iff. destruct (hasKey k o) eqn:Hk.
  - rewrite objSet_keys_has by exact Hk; apply hasKey_iff, Hk.
  - unfold objSet; rewrite Hk. destruct (arrayIndex k).
    + apply (Permutation_in _ (Permutation_sym (Permutation_map fst (insertIndexKey_perm o z k v)))).
      left; reflexivity.
    + rewrite map_app; apply in_or_app; right; left; reflexivity.
Qed.

Lemma objSet_vals : forall k v o p, In p (objSet k v o) -> fst p = k -> snd p = v.
Proof.
  intros k v o p H Hp. destruct (hasKey k o) eqn:Hk.
  - unfold objSet in H; rewrite Hk in H. apply in_map_iff in H as (p0 & <- & Hp0).
    destruct (jstr_eqb (fst p0) k) eqn:E; [reflexivity|].
    rewrite Hp, (proj2 (jstr_eqb_spec _ _) eq_refl) in E; discriminate.
  - apply objSet_in in H as [H|H]; [|subst p; reflexivity].
    apply hasKey_false_notin in Hk. exfalso; apply Hk; subst k; apply in_map, H.
Qed.

Lemma objSet_same : forall k v o, hasKey k o = true -> (forall p, In p o -> fst p = k -> snd p = v) ->
  objSet k v o = o.
Proof.
  intros k v o Hk H; unfold objSet; rewrite Hk.
  rewrite <- (map_id o) at 2. apply map_ext_in; intros [k' v'] Hin; cbn [fst].
  destruct (jstr_eqb k' k) eqn:E; [|reflexivity].
  apply jstr_eqb_spec in E; subst k'. pose proof (H _ Hin eq_refl) as Hv; cbn [snd] in Hv; subst; reflexivity.
Qed.

Lemma objSet_twice : forall k1 v1 k2 v2 o, k1 <> k2 ->
  let o2 := objSet k2 v2 (objSet k1 v1 o) in objSet k2 v2 (objSet k1 v1 o2) = o2.
Proof.
  intros k1 v1 k2 v2 o Hne o2.
  assert (E1 : objSet k1 v1 o2 = o2).
  { apply objSet_same.
    - apply hasKey_iff, objSet_keys_incl, hasKey_iff, objSet_has.
    - intros p Hp Hf. apply objSet_in in Hp as [Hp|Hp]; [|subst p; cbn in Hf; congruence].
      exact (objSet_vals _ _ _ p Hp Hf). }
  rewrite E1. apply objSet_same; [apply objSet_has|]. apply objSet_vals.
Qed.

Lemma tierJson_normalize : forall t, normalize (tierJson t) = tierJson t.
Proof. intros []; reflexivity. Qed.

Lemma tierJson_wf : forall t, wfb (tierJson t) = true.
Proof. intros []; reflexivity. Qed.

Section AnnotatorFacts.

Variable TIER_MAP : jstr -> option TierInfo.

Lemma nameOf_normalize : forall r, nameOf (normalize r) = nameOf r.
Proof.
  intros [| | [| |] | | | o]; try reflexivity. cbn [normalize nameOf].
  rewrite objGet_mapV. destruct (objGet (u "name") o) as [v|]; [|reflexivity]. cbn [option_map].
  destruct v as [| | [| |] | | |]; reflexivity.
Qed.

Lemma tier_ne_comment : u "tier" <> u "claude_comment".
Proof. discriminate. Qed.

Lemma name_ne_tier : u "tier" <> u "name".
Proof. discriminate. Qed.

Lemma name_ne_comment : u "claude_comment" <> u "name".
Proof. discriminate. Qed.

Lemma nameOf_annotate : forall r, nameOf (annotate TIER_MAP r) = nameOf r.
Proof.
  intros [| | | | | o]; try reflexivity. unfold annotate.
  destruct (nameOf (JObj o)) as [s|] eqn:En; [|exact En].
  destruct (TIER_MAP s); [|exact En].
  rewrite <- En; cbn [nameOf].
  rewrite objGet_objSet_other by exact name_ne_comment.
  rewrite objGet_objSet_other by exact name_ne_tier. reflexivity.
Qed.

Lemma inTierMap_normalize_annotate : forall r,
  inTierMap TIER_MAP (normalize (annotate TIER_MAP r)) = inTierMap TIER_MAP r.
Proof. intros r; unfold inTierMap; rewrite nameOf_normalize, nameOf_annotate; reflexivity. Qed.

Lemma annotate_normalize : forall r, annotate TIER_MAP (normalize r) = normalize (annotate TIER_MAP r).
Proof.
  intros r. destruct r as [| | [| |] | | | o]; try reflexivity.
  pose proof (nameOf_normalize (JObj o)) as Hn. cbn [normalize] in Hn |- *.
  unfold annotate; rewrite Hn.
  destruct (nameOf (JObj o)) as [s|]; [|reflexivity].
  destruct (TIER_MAP s) as [info|]; [|reflexivity]. cbn [normalize].
  rewrite <- (tierJson_normalize (tier info)).
  change (JStr (claude_comment info)) with (normalize (JStr (claude_comment info))).
  rewrite !objSet_mapV, ?tierJson_normalize. reflexivity.
Qed.

Lemma annotate_idem : forall r, annotate TIER_MAP (annotate TIER_MAP r) = annotate TIER_MAP r.
Proof.
  intros r. destruct r as [| | | | | o]; try reflexivity.
  unfold annotate at 2. destruct (nameOf (JObj o)) as [s|] eqn:En; [|unfold annotate; rewrite En; reflexivity].
  destruct (TIER_MAP s) as [info|] eqn:Et; [|unfold annotate; rewrite En, Et; reflexivity].
  assert (En' : nameOf (annotate TIER_MAP (JObj o)) = Some s) by (rewrite nameOf_annotate; exact En).
  unfold annotate in En' at 1; rewrite En, Et in En'.
  unfold annotate; rewrite En', En, Et. f_equal.
  apply (objSet_twice (u "tier") _ (u "claude_comment") _ o tier_ne_comment).
Qed.

Lemma annotate_wf : forall r, wfb r = true -> wfb (annotate TIER_MAP r) = true.
Proof.
  intros r Hr. destruct r as [| | | | | o]; try exact Hr.
  unfold annotate. destruct (nameOf (JObj o)) as [s|]; [|exact Hr].
  destruct (TIER_MAP s) as [info|]; [|exact Hr].
  apply objSet_wf; [|reflexivity]. apply objSet_wf; [exact Hr | apply tierJson_wf].
Qed.

Lemma annotate_field : forall r k, k <> u "tier" -> k <> u "claude_comment" ->
  fieldJ k (normalize (annotate TIER_MAP r)) = option_map normalize (fieldJ k r).
Proof.
  intros r k H1 H2. destruct r as [| | [| |] | | | o]; try reflexivity.
  unfold annotate. destruct (nameOf (JObj o)) as [s|]; [|cbn [normalize fieldJ]; apply objGet_mapV].
  destruct (TIER_MAP s) as [info|]; [|cbn [normalize fieldJ]; apply objGet_mapV].
  cbn [normalize fieldJ]. rewrite objGet_mapV.
  rewrite objGet_objSet_other by congruence. rewrite objGet_objSet_other by congruence.
  reflexivity.
Qed.

End AnnotatorFacts.

Lemma ser_normalize : forall v ind, ser ind (normalize v) = ser ind v.
Proof.
  intros v; pattern v; apply jval_nested_ind; clear v.
  - reflexivity.
  - reflexivity.
  - intros [| |] ind; reflexivity.
  - reflexivity.
  - intros [|x xs] HP ind; [reflexivity|].
    apply Forall_cons_iff in HP as [Px HP]. cbn [normalize map ser]. rewrite Px.
    rewrite map_map. erewrite map_ext_in; [reflexivity|].
    intros y Hy; rewrite Forall_forall in HP; rewrite (HP y Hy); reflexivity.
  - intros [|[k x] o] HP ind; [reflexivity|].
    apply Forall_cons_iff in HP as [Px HP]. cbn [normalize map ser fst snd] in *. rewrite Px.
    rewrite map_map. erewrite map_ext_in; [reflexivity|].
    intros p Hp; rewrite Forall_forall in HP; cbn [fst snd]; rewrite (HP p Hp); reflexivity.
Qed.

Lemma renderModule_normalize : forall v, renderModule (normalize v) = renderModule v.
Proof. intros v; unfold renderModule, stringify; rewrite ser_normalize; reflexivity. Qed.

Lemma Forall2_map_r : forall {A B} (P : A -> B -> Prop) (g : A -> B) l,
  Forall (fun x => P x (g x)) l -> Forall2 P l (map g l).
Proof. intros A B P g l H; induction H; constructor; auto. Qed.

(** One successful run of the annotator: the records it read, and the file
    it wrote. *)
Lemma annotatorMain_ok : forall TM raw out, annotatorMain TM raw = Exit 0 out ->
  exists rules, jsonParse (stripSemi (stripDecl raw)) = inr (JArr rules) /\
    forallb (inTierMap TM) rules = true /\ out = renderModule (JArr (map (annotate TM) rules)).
Proof.
  intros TM raw out H; unfold annotatorMain in H.
  destruct (jsonParse _) as [[|]|v]; try discriminate.
  destruct v as [| | | | rules |]; try discriminate.
  destruct (forallb (inTierMap TM) rules) eqn:E; [|discriminate].
  injection H as <-. eauto.
Qed.

(** What the annotator reads back from the file it wrote. *)
Lemma annotator_reread : forall TM raw out, annotatorMain TM raw = Exit 0 out ->
  exists rules, jsonParse (stripSemi (stripDecl raw)) = inr (JArr rules) /\
    forallb (inTierMap TM) rules = true /\
    jsonParse (stripSemi (stripDecl out)) = inr (JArr (map normalize (map (annotate TM) rules))).
Proof.
  intros TM raw out H.
  destruct (annotatorMain_ok TM raw out H) as (rules & Hp & Hf & ->).
  exists rules; split; [exact Hp|]; split; [exact Hf|].
  apply jsonParse_wf in Hp. rewrite render_parse; [reflexivity|].
  cbn [wfb] in Hp |- *. apply forallb_forall; intros y Hy.
  apply in_map_iff in Hy as (r & <- & Hr). apply annotate_wf.
  rewrite forallb_forall in Hp; apply Hp, Hr.
Qed.

(* ------------------------------------------------------------------ *)
(** ** Viewer: pagination *)

Lemma takeDigits_all : forall l, Forall (fun c => isDigit c = true) l -> takeDigits 10 l = l.
Proof.
  induction l as [|a l IH]; intros Hl; [reflexivity|].
  inversion Hl as [|a' l' Ha Hl']; subst; simpl.
  assert (isRadixDigit 10 a = true).
  { pose proof (isDigit_range a Ha) as Ra. unfold isRadixDigit, digitVal.
    rewrite (proj2 (andb_true_iff _ _) (conj (proj2 (N.leb_le _ _) (proj1 Ra))
                                             (proj2 (N.leb_le _ _) (proj2 Ra)))).
    apply Z.ltb_lt; lia. }
  rewrite H, IH by assumption; reflexivity.
Qed.

Lemma parseInt_numToString : forall x, 0 <= x < 2 ^ 53 -> parseInt (numToString x) = Some (Fin x).
Proof.
  intros x Hx.
  destruct (Z.eq_dec x 0) as [->|X0]; [reflexivity|].
  assert (Hr : roundPos x = Fin x).
  { rewrite <- (Z.mul_1_r x); change 1 with (2 ^ 0); apply roundPos_exact; lia. }
  assert (Hn : numberValue x = Fin x).
  { unfold numberValue; rewrite (proj2 (Z.eqb_neq x 0) X0), (proj2 (Z.ltb_lt 0 x)) by lia.
    exact Hr. }
  unfold numToString; rewrite (proj2 (Z.eqb_neq x 0) X0), (proj2 (Z.ltb_nlt x 0)) by lia.
  rewrite Z.abs_eq by lia.
  set (v := shortestValue (Z.to_nat (ndigits x)) 1 (ndigits x) x).
  assert (Hv : numberValue v = Fin x) by apply shortestValue_ok, Hn.
  destruct (numberValue_pos v x ltac:(lia) Hv) as [Vp Rv].
  assert (Ev : v = x).
  { destruct (roundPos_shape v x Vp Rv) as [[E _]|(m & e & Hm & He & Ex & _)]; [symmetry; exact E|].
    assert (2 ^ 1 <= 2 ^ e) by (apply Z.pow_le_mono_r; lia). nia. }
  rewrite Ev.
  destruct (ndigits_bounds x ltac:(lia)) as (H1 & H2 & H3).
  assert (Hd : (ndigits x <=? 21) = true).
  { apply Z.leb_le. destruct (Z.le_gt_cases (ndigits x) 21) as [L|L]; [exact L|].
    assert (10 ^ 21 <= 10 ^ (ndigits x - 1)) by (apply Z.pow_le_mono_r; lia). lia. }
  rewrite Hd; cbn [app].
  destruct (decimal_spec x ltac:(lia)) as (ds & -> & Hne & Hdg & Hval & _ & Hhd & _ & _).
  destruct (Hhd ltac:(lia)) as (c & t & -> & Hc).
  assert (Hc' : isDigit c = true) by (inversion Hdg; auto).
  pose proof (isDigit_range c Hc') as Rc.
  assert (Hws : isWs c = false).
  { assert (c = 48 \/ c = 49 \/ c = 50 \/ c = 51 \/ c = 52 \/ c = 53 \/ c = 54 \/ c = 55
            \/ c = 56 \/ c = 57)%N as Hcs by lia.
    repeat destruct Hcs as [-> | Hcs]; try reflexivity; rewrite Hcs; reflexivity. }
  unfold parseInt; cbn [dropWs]; rewrite Hws.
  change (ch "-") with 45%N; change (ch "+") with 43%N; change (ch "0") with 48%N.
  rewrite (proj2 (N.eqb_neq c 45)) by lia; rewrite (proj2 (N.eqb_neq c 43)) by lia.
  destruct t as [|c1 t'];
    [|rewrite (proj2 (N.eqb_neq c 48) Hc); cbn [andb]];
    rewrite (takeDigits_all _ Hdg), Hval, Z.mul_1_l, Hn; reflexivity.
Qed.

Lemma zrange_cons : forall a b, a <= b -> zrange a b = a :: zrange (a + 1) b.
Proof.
  intros a b H; unfold zrange.
  replace (Z.to_nat (b - a + 1)) with (S (Z.to_nat (b - (a + 1) + 1))) by lia.
  cbn [seq map]; rewrite Z.add_0_r; f_equal.
  rewrite <- seq_shift, map_map; apply map_ext; intros k; lia.
Qed.

Lemma zrange_nil : forall a b, b < a -> zrange a b = [].
Proof. intros a b H; unfold zrange; replace (Z.to_nat (b - a + 1)) with 0%nat by lia; reflexivity. Qed.

Lemma in_zrange : forall a b i, In i (zrange a b) <-> a <= i <= b.
Proof.
  intros a b i; unfold zrange; rewrite in_map_iff; split.
  - intros (k & <- & Hk); apply in_seq in Hk; lia.
  - intros H; exists (Z.to_nat (i - a)); split; [lia|]; apply in_seq; lia.
Qed.

Lemma paginationItems_eq : forall st, 2 <= Z.of_nat (totalPages st) ->
  let T := Z.of_nat (totalPages st) in let C := Z.of_nat (currentPage st) in
  let s := Z.max 1 (Z.min (C - 2) (T - 4)) in let e := s + Z.min 5 T - 1 in
  paginationItems st =
  [NavButton (C =? 1) (C - 1) 9664%N]
  ++ (if 1 <? s then EndButton 1 :: (if 2 <? s then [PageEllipsis] else []) else [])
  ++ map (fun i => WindowButton (i =? C) i) (zrange s e)
  ++ (if e <? T then (if e <? T - 1 then [PageEllipsis] else []) ++ [EndButton T] else [])
  ++ [NavButton (C =? T) (C + 1) 9654%N; PageInfo C T].
Proof.
  intros st H T C s e.
  unfold paginationItems; cbv zeta; fold T C.
  rewrite (proj2 (Z.leb_nle T 1)) by lia.
  change (5 / 2) with 2.
  assert (E0 : Z.min T (Z.max 1 (C - 2) + 5 - 1) = e) by (unfold e, s; lia).
  rewrite E0.
  assert (S0 : (if e - Z.max 1 (C - 2) + 1 <? 5 then Z.max 1 (e - 5 + 1) else Z.max 1 (C - 2)) = s)
    by (destruct (Z.ltb_spec (e - Z.max 1 (C - 2) + 1) 5); unfold e, s in *; lia).
  rewrite S0; reflexivity.
Qed.

Lemma stripOk_window : forall T n a b prev (f : Z -> bool) rest,
  Z.to_nat (b - a + 1) = n -> a <= b -> a = prev + 1 ->
  stripOk T prev (map (fun i => WindowButton (f i) i) (zrange a b) ++ rest) = stripOk T b rest.
Proof.
  intros T n; induction n as [|n IH]; intros a b prev f rest Hn Hab Ha; [lia|].
  rewrite zrange_cons by lia; cbn [map app stripOk numberedPage].
  rewrite (proj2 (Z.eqb_eq a (prev + 1)) Ha); cbn [andb].
  destruct (Z.eq_dec a b) as [->|Hne].
  - rewrite zrange_nil by lia; reflexivity.
  - apply (IH (a + 1) b a f rest); lia.
Qed.

Lemma stripOk_ellipsis_window : forall T a b prev (f : Z -> bool) rest,
  a <= b -> 0 < prev -> prev + 1 < a ->
  stripOk T prev (PageEllipsis :: map (fun i => WindowButton (f i) i) (zrange a b) ++ rest)
  = stripOk T b rest.
Proof.
  intros T a b prev f rest Hab Hp Ha.
  rewrite zrange_cons by lia; cbn [map app stripOk numberedPage].
  rewrite (proj2 (Z.ltb_lt 0 prev) Hp), (proj2 (Z.ltb_lt (prev + 1) a) Ha); cbn [andb].
  destruct (Z.eq_dec a b) as [->|Hne].
  - rewrite zrange_nil by lia; reflexivity.
  - apply (stripOk_window T (Z.to_nat (b - (a + 1) + 1)) (a + 1) b a f rest); lia.
Qed.

Lemma windowPages_map : forall (f : Z -> bool) l,
  windowPages (map (fun i => WindowButton (f i) i) l) = l.
Proof. intros f l; induction l as [|a l IH]; simpl; [reflexivity|]; rewrite IH; reflexivity. Qed.

Lemma activePages_map : forall C a b, a <= C <= b ->
  activePages (map (fun i => WindowButton (i =? C) i) (zrange a b)) = [C].
Proof.
  intros C a b H.
  assert (G : forall n a, Z.to_nat (b - a + 1) = n -> C < a ->
            activePages (map (fun i => WindowButton (i =? C) i) (zrange a b)) = []).
  { induction n as [|n IH]; intros a' Hn Ha.
    - rewrite zrange_nil by lia; reflexivity.
    - destruct (Z.le_gt_cases a' b).
      + rewrite zrange_cons by lia; cbn [map activePages flat_map].
        rewrite (proj2 (Z.eqb_neq a' C)) by lia.
        apply (IH (a' + 1)); lia.
      + rewrite zrange_nil by lia; reflexivity. }
  assert (F : forall n a, Z.to_nat (C - a) = n -> a <= C ->
            activePages (map (fun i => WindowButton (i =? C) i) (zrange a b)) = [C]).
  { induction n as [|n IH]; intros a' Hn Ha; rewrite zrange_cons by lia;
      cbn [map activePages flat_map].
    - rewrite (proj2 (Z.eqb_eq a' C)) by lia; cbn [app].
      replace a' with C by lia; f_equal.
      apply (G (Z.to_nat (b - (C + 1) + 1))); lia.
    - rewrite (proj2 (Z.eqb_neq a' C)) by lia; cbn [app].
      apply (IH (a' + 1)); lia. }
  apply (F (Z.to_nat (C - a))); lia.
Qed.

(** [renderPagination] writes nothing when there is at most one page.
    Otherwise it writes the previous button (disabled on page 1), then a
    strip of numbered buttons for pages 1, ..., [totalPages] in ascending
    order with an ellipsis exactly where pages are skipped, then the next
    button (disabled on the last page) and the [current / total] text. *)
Theorem pagination_strip : forall st,
  let T := Z.of_nat (totalPages st) in let C := Z.of_nat (currentPage st) in
  (T <= 1 /\ renderPagination st = []) \/
  (2 <= T /\ exists strip,
     paginationItems st = NavButton (C =? 1) (C - 1) 9664%N :: strip
                          ++ [NavButton (C =? T) (C + 1) 9654%N; PageInfo C T]
     /\ stripOk T 0 strip = true).
Proof.
  intros st T C.
  destruct (Z.le_gt_cases T 1) as [L|L].
  - left; split; [exact L|]. unfold renderPagination, paginationItems; cbv zeta; fold T.
    rewrite (proj2 (Z.leb_le T 1) L); reflexivity.
  - right; split; [lia|].
    rewrite paginationItems_eq by (fold T; lia); fold T C.
    set (s := Z.max 1 (Z.min (C - 2) (T - 4))).
    set (e := s + Z.min 5 T - 1).
    set (W := map (fun i => WindowButton (i =? C) i) (zrange s e)).
    set (P := if 1 <? s then EndButton 1 :: (if 2 <? s then [PageEllipsis] else []) else []).
    set (R := if e <? T then (if e <? T - 1 then [PageEllipsis] else []) ++ [EndButton T] else []).
    exists (P ++ W ++ R); split; [rewrite <- !app_assoc; reflexivity|].
    assert (Hs : 1 <= s) by (unfold s; lia).
    assert (He : s + 1 <= e <= T) by (unfold e, s; lia).
    assert (HR : stripOk T e R = true).
    { unfold R; destruct (Z.ltb_spec e T); [destruct (Z.ltb_spec e (T - 1))|].
      - cbn [app stripOk numberedPage].
        rewrite (proj2 (Z.ltb_lt 0 e)), (proj2 (Z.ltb_lt (e + 1) T)) by lia; cbn; apply Z.eqb_refl.
      - cbn [app stripOk numberedPage].
        rewrite (proj2 (Z.eqb_eq T (e + 1))) by lia; cbn; apply Z.eqb_refl.
      - cbn; apply Z.eqb_eq; lia. }
    unfold P; destruct (Z.ltb_spec 1 s); [destruct (Z.ltb_spec 2 s)|].
    + change ((1 =? 0 + 1) && stripOk T 1 (PageEllipsis :: W ++ R) = true).
      cbn [andb Z.eqb Z.add]; unfold W; rewrite stripOk_ellipsis_window by lia; exact HR.
    + cbn [app stripOk numberedPage]; rewrite Z.eqb_refl; cbn [andb].
      unfold W; rewrite (stripOk_window T (Z.to_nat (e - s + 1)) s e 1) by lia; exact HR.
    + cbn [app]; unfold W; rewrite (stripOk_window T (Z.to_nat (e - s + 1)) s e 0) by lia.
      exact HR.
Qed.

(** For at least two pages and a current page in range, the window of
    numbered buttons is the five pages (or all pages, if fewer) starting at
    [max 1 (min (currentPage - 2) (totalPages - 4))]; it contains the
    current page, stays within [1 .. totalPages], and exactly one button,
    that of the current page, has the [active] class. *)
Theorem pagination_window : forall st,
  let T := Z.of_nat (totalPages st) in let C := Z.of_nat (currentPage st) in
  let s := Z.max 1 (Z.min (C - 2) (T - 4)) in
  2 <= T -> 1 <= C <= T ->
  windowPages (paginationItems st) = zrange s (s + Z.min 5 T - 1) /\
  activePages (paginationItems st) = [C] /\
  1 <= s <= C /\ C <= s + Z.min 5 T - 1 <= T.
Proof.
  intros st T C s H2 HC.
  rewrite paginationItems_eq by (fold T; lia); fold T C s.
  assert (W : forall l, windowPages ([NavButton (C =? 1) (C - 1) 9664%N] ++ l) = windowPages l)
    by reflexivity.
  repeat split; try (unfold s; lia).
  - unfold windowPages; rewrite !flat_map_app; fold windowPages.
    rewrite windowPages_map.
    destruct (1 <? s); [destruct (2 <? s)|]; destruct (_ <? T); try destruct (_ <? T - 1);
      cbn; rewrite ?app_nil_r; reflexivity.
  - unfold activePages; rewrite !flat_map_app; fold activePages.
    rewrite activePages_map by (unfold s; lia).
    destruct (1 <? s); [destruct (2 <? s)|]; destruct (_ <? T); try destruct (_ <? T - 1);
      cbn; destruct (C =? 1), (C =? T); reflexivity.
Qed.

Lemma clickItem_page : forall st it p, buttonPage it = Some p ->
  1 <= p <= Z.of_nat (totalPages st) -> Z.of_nat (totalPages st) < 2 ^ 53 ->
  clickItem st it = {| filteredRules := filteredRules st; currentPage := Z.to_nat p |}.
Proof.
  intros st it p Hb Hp HT; unfold clickItem; rewrite Hb, parseInt_numToString by lia.
  unfold goToPage.
  destruct (Nat.eqb_spec (Z.to_nat p) (currentPage st)) as [E|E].
  - rewrite andb_false_r, andb_false_l. destruct st as [L c]; simpl in *; subst; reflexivity.
  - rewrite (proj2 (Nat.ltb_lt 0 (Z.to_nat p))) by lia.
    rewrite (proj2 (Nat.leb_le (Z.to_nat p) (totalPages st))) by lia; reflexivity.
Qed.

Lemma totalPages_bound : forall st, Z.of_nat (List.length (filteredRules st)) < 2 ^ 32 ->
  Z.of_nat (totalPages st) < 2 ^ 53.
Proof.
  intros st H; unfold totalPages, RULES_PER_PAGE.
  set (n := List.length (filteredRules st)) in *.
  pose proof (Nat.div_mod (n + 20 - 1) 20 ltac:(lia)).
  pose proof (Nat.mod_upper_bound (n + 20 - 1) 20 ltac:(lia)).
  lia.
Qed.

Lemma paginationItems_short : forall st, Z.of_nat (totalPages st) <= 1 -> paginationItems st = [].
Proof.
  intros st H; unfold paginationItems; cbv zeta.
  rewrite (proj2 (Z.leb_le _ 1) H); reflexivity.
Qed.

Lemma click_core : forall st it,
  let T := Z.of_nat (totalPages st) in let C := Z.of_nat (currentPage st) in
  Z.of_nat (List.length (filteredRules st)) < 2 ^ 32 -> 1 <= C <= T ->
  In it (paginationItems st) ->
  filteredRules (clickItem st it) = filteredRules st /\
  match buttonPage it with
  | Some p => 1 <= p <= T /\ Z.of_nat (currentPage (clickItem st it)) = p
  | None => clickItem st it = st
  end.
Proof.
  intros st it T C Hlen HC Hin.
  assert (HT : 2 <= T).
  { destruct (Z.le_gt_cases T 1) as [L|L]; [|lia].
    rewrite paginationItems_short in Hin by exact L; destruct Hin. }
  assert (Hr : forall p, buttonPage it = Some p -> 1 <= p <= T).
  { intros p Hp. rewrite paginationItems_eq in Hin by (fold T; lia); fold T C in Hin.
    set (s := Z.max 1 (Z.min (C - 2) (T - 4))) in Hin.
    set (e := s + Z.min 5 T - 1) in Hin.
    assert (Hs : 1 <= s) by (unfold s; lia).
    assert (He : s <= e <= T) by (unfold e, s; lia).
    rewrite !in_app_iff in Hin.
    destruct Hin as [Hin|[Hin|[Hin|[Hin|Hin]]]].
    - destruct Hin as [<-|[]]; simpl in Hp.
      destruct (Z.eqb_spec C 1); [discriminate|]; injection Hp as <-; lia.
    - destruct (1 <? s); [destruct (2 <? s)|]; simpl in Hin;
        repeat destruct Hin as [<-|Hin]; try contradiction; simpl in Hp; try discriminate;
        injection Hp as <-; lia.
    - apply in_map_iff in Hin as (i & <- & Hi); apply in_zrange in Hi; simpl in Hp;
        injection Hp as <-; lia.
    - destruct (e <? T); [destruct (e <? T - 1)|]; simpl in Hin;
        repeat destruct Hin as [<-|Hin]; try contradiction; simpl in Hp; try discriminate;
        injection Hp as <-; lia.
    - destruct Hin as [<-|[<-|[]]]; simpl in Hp; [|discriminate].
      destruct (Z.eqb_spec C T); [discriminate|]; injection Hp as <-; lia. }
  pose proof (totalPages_bound st Hlen) as Hb.
  destruct (buttonPage it) as [p|] eqn:Eb.
  - rewrite (clickItem_page st it p Eb (Hr p eq_refl) Hb); simpl.
    split; [reflexivity|]; split; [exact (Hr p eq_refl)|]. pose proof (Hr p eq_refl); lia.
  - unfold clickItem; rewrite Eb; auto.
Qed.

Lemma firstn_nonempty : forall {A} n (l : list A), (0 < n)%nat -> (firstn n l = [] <-> l = []).
Proof.
  intros A [|n] [|x l] H; simpl; split; intros; try reflexivity; try discriminate; lia.
Qed.

Lemma pageRules_empty : forall st,
  (1 <= currentPage st <= Nat.max 1 (totalPages st))%nat ->
  (pageRules st = [] <-> filteredRules st = []).
Proof.
  intros st Hc; unfold pageRules; split.
  - intros H; apply firstn_nonempty in H; [|unfold RULES_PER_PAGE; lia].
    destruct (filteredRules st) as [|r L] eqn:EL; [reflexivity|exfalso].
    pose proof (totalPages_cover st) as Hcov; rewrite EL in Hcov.
    assert (HT : totalPages st = ((List.length (r :: L) + RULES_PER_PAGE - 1) / RULES_PER_PAGE)%nat)
      by (unfold totalPages; rewrite EL; reflexivity).
    set (T := totalPages st) in *; set (n := List.length (r :: L)) in *.
    assert (Hn : (1 <= n)%nat) by (unfold n; simpl; lia).
    unfold RULES_PER_PAGE in *.
    pose proof (Nat.div_mod (n + 20 - 1) 20 ltac:(lia)).
    pose proof (Nat.mod_upper_bound (n + 20 - 1) 20 ltac:(lia)).
    assert (Hk : ((currentPage st - 1) * 20 < n)%nat) by (clearbody T n; subst T; lia).
    apply (f_equal (@List.length ViewerRule)) in H.
    rewrite length_skipn in H; fold n in H; clearbody n; simpl in H; lia.
  - intros ->; rewrite skipn_nil; reflexivity.
Qed.



(** A click on a rendered pagination button of a state whose current page
    is in range keeps [filteredRules]; for an enabled button with page [p],
    [p] is within [1 .. totalPages] and the current page becomes [p]; a
    click on anything else changes nothing. *)
Theorem pagination_click : forall st it,
  let T := Z.of_nat (totalPages st) in let C := Z.of_nat (currentPage st) in
  Z.of_nat (List.length (filteredRules st)) < 2 ^ 32 -> 1 <= C <= T ->
  In it (paginationItems st) ->
  filteredRules (clickItem st it) = filteredRules st /\
  match buttonPage it with
  | Some p => 1 <= p <= T /\ Z.of_nat (currentPage (clickItem st it)) = p
  | None => clickItem st it = st
  end.
Proof. exact click_core. Qed.

(** In every state reached from [loadRules] by filter changes and clicks on
    rendered pagination buttons, [filteredRules] is no longer than [rules],
    the current page is within [1 .. max 1 totalPages], and the rendered page
    is empty only when no rule passes the filters. *)
Theorem viewer_reachable : forall toLowerCase rules st,
  reachable toLowerCase rules st -> Z.of_nat (List.length rules) < 2 ^ 32 ->
  (List.length (filteredRules st) <= List.length rules)%nat /\
  (1 <= currentPage st <= Nat.max 1 (totalPages st))%nat /\
  (pageRules st = [] <-> filteredRules st = []).
Proof.
  intros tl rules st R Hlen.
  assert (Inv : (List.length (filteredRules st) <= List.length rules)%nat /\
                (1 <= currentPage st <= Nat.max 1 (totalPages st))%nat).
  { induction R as [|st f R IH|st it R IH Hin].
    - cbn [filteredRules currentPage]; split; [lia|]; split; [lia | apply Nat.le_max_l].
    - cbn [filteredRules currentPage applyFilters]; split; [apply filter_length_le|].
      split; [lia | apply Nat.le_max_l].
    - destruct IH as [IH1 IH2].
      unfold renderedItems in Hin.
      destruct (pageRules st) eqn:Ep; [destruct Hin|].
      assert (Hne : filteredRules st <> []).
      { intros E; apply (pageRules_empty st IH2) in E; congruence. }
      assert (HT : (1 <= totalPages st)%nat).
      { pose proof (totalPages_cover st). destruct (filteredRules st); [contradiction|].
        simpl in *; lia. }
      destruct (click_core st it ltac:(lia) ltac:(lia) Hin) as [E1 E2].
      rewrite E1; split; [exact IH1|].
      destruct (buttonPage it).
      + destruct E2 as [Hp Ec].
        assert (Et : totalPages (clickItem st it) = totalPages st)
          by (unfold totalPages; rewrite E1; reflexivity).
        rewrite Et; lia.
      + rewrite E2; exact IH2. }
  destruct Inv as [I1 I2]; split; [exact I1|]; split; [exact I2|].
  apply pageRules_empty, I2.
Qed.

(* ------------------------------------------------------------------ *)
(** ** Viewer: filter counts *)

Lemma objGet_In : forall k o v, objGet k o = Some v -> In (k, v) o.
Proof.
  intros k o v; induction o as [|[k' v'] o IH]; cbn [objGet]; [discriminate|].
  destruct (jstr_eqb k' k) eqn:E; [intros H; injection H as <-; apply jstr_eqb_spec in E; subst; left; reflexivity|].
  intros H; right; apply IH, H.
Qed.

Lemma objGet_has : forall k o, hasKey k o = true -> exists v, objGet k o = Some v.
Proof.
  intros k o; induction o as [|[k' v'] o IH]; cbn [hasKey existsb objGet fst]; [discriminate|].
  destruct (jstr_eqb k' k); [eauto|]. cbn [orb]; exact IH.
Qed.

Lemma objGet_objSet_same : forall k v o, objGet k (objSet k v o) = Some v.
Proof.
  intros k v o.
  destruct (objGet_has k (objSet k v o) (objSet_has k v o)) as [w Hw].
  rewrite Hw; f_equal.
  exact (objSet_vals k v o (k, w) (objGet_In _ _ _ Hw) eq_refl).
Qed.

Lemma countValue_bump_same : forall k o, countValue (bumpCount k o) k = countValue o k + 1.
Proof. intros k o; unfold bumpCount, countValue at 1; rewrite objGet_objSet_same; reflexivity. Qed.

Lemma countValue_bump_other : forall k k' o, k <> k' ->
  countValue (bumpCount k o) k' = countValue o k'.
Proof. intros k k' o H; unfold bumpCount, countValue at 1; rewrite objGet_objSet_other by exact H; reflexivity. Qed.

Lemma countValue_bump : forall k k' o,
  countValue (bumpCount k o) k' = countValue o k' + (if jstr_eqb k k' then 1 else 0).
Proof.
  intros k k' o; destruct (jstr_eqb k k') eqn:E.
  - apply jstr_eqb_spec in E; subst; apply countValue_bump_same.
  - rewrite countValue_bump_other; [lia|]. intros ->; rewrite (proj2 (jstr_eqb_spec k' k') eq_refl) in E; discriminate.
Qed.

Lemma countStep_fold : forall cs ps rules acc k,
  countValue (fst (fold_left (countStep cs ps) rules acc)) k
  = countValue (fst acc) k + Z.of_nat (List.length (filter (fun r =>
      jstr_eqb (vCategory r) k && (isEmpty ps || memJ (numString (vPriority r)) ps)) rules)) /\
  countValue (snd (fold_left (countStep cs ps) rules acc)) k
  = countValue (snd acc) k + Z.of_nat (List.length (filter (fun r =>
      jstr_eqb (numString (vPriority r)) k && (isEmpty cs || memJ (vCategory r) cs)) rules)).
Proof.
  intros cs ps rules; induction rules as [|r rules IH]; intros [cc pc] k; cbn [fold_left filter].
  - simpl; lia.
  - destruct (IH (countStep cs ps (cc, pc) r) k) as [IH1 IH2]; rewrite IH1, IH2; clear IH1 IH2.
    unfold countStep; cbn [fst snd].
    destruct (isEmpty ps || memJ (numString (vPriority r)) ps);
    destruct (isEmpty cs || memJ (vCategory r) cs);
    rewrite ?countValue_bump, ?andb_true_r, ?andb_false_r;
    destruct (jstr_eqb (vCategory r) k); destruct (jstr_eqb (numString (vPriority r)) k);
    cbn [List.length]; lia.
Qed.

(** A sum of per-key counts over distinct keys. *)
Lemma sum_counts : forall {A} (key : A -> jstr) (P : A -> bool) keys l, NoDup keys ->
  fold_right Z.add 0 (map (fun k => Z.of_nat (List.length (filter (fun r => jstr_eqb (key r) k && P r) l))) keys)
  = Z.of_nat (List.length (filter (fun r => memJ (key r) keys && P r) l)).
Proof.
  intros A key P keys l Hnd; induction l as [|r l IH]; cbn [filter].
  - clear Hnd; induction keys as [|k keys IHk]; [reflexivity|]; cbn [map fold_right filter List.length] in *; lia.
  - assert (Split : forall ks, NoDup ks ->
      fold_right Z.add 0 (map (fun k => Z.of_nat (List.length (if jstr_eqb (key r) k && P r
            then r :: filter (fun r => jstr_eqb (key r) k && P r) l
            else filter (fun r => jstr_eqb (key r) k && P r) l))) ks)
      = (if memJ (key r) ks && P r then 1 else 0)
        + fold_right Z.add 0 (map (fun k => Z.of_nat (List.length (filter (fun r => jstr_eqb (key r) k && P r) l))) ks)).
    { induction ks as [|k ks IHk]; intros Hks; [reflexivity|].
      inversion Hks as [|k' ks' Hk Hks']; subst.
      cbn [map fold_right memJ existsb]; rewrite (IHk Hks').
      fold (memJ (key r) ks).
      destruct (jstr_eqb (key r) k) eqn:E; destruct (memJ (key r) ks) eqn:M; destruct (P r);
        cbn [andb orb List.length]; try lia;
        apply jstr_eqb_spec in E; subst k; apply memJ_In in M; contradiction. }
    rewrite (Split keys Hnd), IH.
    destruct (memJ (key r) keys && P r); cbn [List.length]; lia.
Qed.

Lemma categoryKeys_NoDup : NoDup categoryKeys.
Proof.
  unfold categoryKeys; cbn [map].
  repeat constructor; cbn; intros H; repeat destruct H as [H|H]; try discriminate; contradiction.
Qed.

Lemma priorityKeys_NoDup : NoDup (map (fun p => numString (Fin p)) [1; 2; 3; 4; 5]).
Proof.
  cbn; repeat constructor; cbn; intros H; repeat destruct H as [H|H]; try discriminate; contradiction.
Qed.

Lemma updateCounts_fold : forall rules f,
  updateCounts rules f =
  (map (countValue (fst (fold_left (countStep (fCategories f) (fPriorities f)) rules ([], [])))) categoryKeys,
   map (fun p => countValue (snd (fold_left (countStep (fCategories f) (fPriorities f)) rules ([], [])))
                   (numString (Fin p))) [1; 2; 3; 4; 5]).
Proof.
  intros rules f; unfold updateCounts.
  destruct (fold_left (countStep (fCategories f) (fPriorities f)) rules ([], [])); reflexivity.
Qed.

(** [updateCounts] writes, for each key of [categoryNames], the number of
    rules of that category that pass the priority filter, and for each
    priority 1 to 5 the number of rules of that priority that pass the
    category filter; the search term is ignored. *)
Theorem updateCounts_spec : forall rules f,
  updateCounts rules f =
  (map (fun c => Z.of_nat (List.length (filter (fun r =>
          jstr_eqb (vCategory r) c
          && (isEmpty (fPriorities f) || memJ (numString (vPriority r)) (fPriorities f))) rules)))
       categoryKeys,
   map (fun p => Z.of_nat (List.length (filter (fun r =>
          jstr_eqb (numString (vPriority r)) (numString (Fin p))
          && (isEmpty (fCategories f) || memJ (vCategory r) (fCategories f))) rules)))
       [1; 2; 3; 4; 5]).
Proof.
  intros rules f; rewrite updateCounts_fold; f_equal; apply map_ext.
  - intros k; destruct (countStep_fold (fCategories f) (fPriorities f) rules ([], []) k) as [E1 _].
    rewrite E1; reflexivity.
  - intros p.
    destruct (countStep_fold (fCategories f) (fPriorities f) rules ([], []) (numString (Fin p)))
      as [_ E2].
    rewrite E2; reflexivity.
Qed.

(** The category counts add up to the number of rules with a category among
    the keys of [categoryNames] that pass the priority filter; the priority
    counts add up to the number of rules with a priority from 1 to 5 that
    pass the category filter. *)
Theorem updateCounts_sums : forall rules f,
  fold_right Z.add 0 (fst (updateCounts rules f))
  = Z.of_nat (List.length (filter (fun r => memJ (vCategory r) categoryKeys
      && (isEmpty (fPriorities f) || memJ (numString (vPriority r)) (fPriorities f))) rules)) /\
  fold_right Z.add 0 (snd (updateCounts rules f))
  = Z.of_nat (List.length (filter (fun r =>
      memJ (numString (vPriority r)) (map (fun p => numString (Fin p)) [1; 2; 3; 4; 5])
      && (isEmpty (fCategories f) || memJ (vCategory r) (fCategories f))) rules)).
Proof.
  intros rules f; rewrite updateCounts_spec; cbn [fst snd]; split.
  - apply (sum_counts vCategory), categoryKeys_NoDup.
  - rewrite <- (sum_counts (fun r => numString (vPriority r)) _ _ rules priorityKeys_NoDup).
    rewrite map_map; reflexivity.
Qed.

(** With an empty search term, the count shown for a category is the size
    of [filteredRules] after checking only that category (keeping the
    priorities), and the count shown for a priority is its size after
    checking only that priority (keeping the categories). *)
Theorem updateCounts_filtered : forall toLowerCase rules f,
  searchTerm toLowerCase f = [] ->
  updateCounts rules f =
  (map (fun c => Z.of_nat (List.length (filteredRules (applyFilters toLowerCase rules
          {| fCategories := [c]; fPriorities := fPriorities f; searchValue := searchValue f |}))))
       categoryKeys,
   map (fun p => Z.of_nat (List.length (filteredRules (applyFilters toLowerCase rules
          {| fCategories := fCategories f; fPriorities := [numString (Fin p)];
             searchValue := searchValue f |}))))
       [1; 2; 3; 4; 5]).
Proof.
  intros tl rules f Ht; rewrite updateCounts_spec; f_equal; apply map_ext; intros k;
    unfold applyFilters; cbn [filteredRules]; do 2 f_equal; apply filter_ext; intros r;
    unfold matchesRule, searchTerm in *; cbn [searchValue fCategories fPriorities] in *; rewrite Ht;
    cbn [isEmpty memJ existsb].
  - rewrite orb_false_r, !andb_true_r; reflexivity.
  - rewrite orb_false_r, !andb_true_r, andb_comm; reflexivity.
Qed.

(* ------------------------------------------------------------------ *)
(** ** Viewer: rule details *)

Lemma unescape_amp : forall n X, unescapeAux (S n) (u "&amp;" ++ X) = 38%N :: unescapeAux n X.
Proof. reflexivity. Qed.
Lemma unescape_nbsp : forall n X, unescapeAux (S n) (u "&nbsp;" ++ X) = 160%N :: unescapeAux n X.
Proof. reflexivity. Qed.
Lemma unescape_lt : forall n X, unescapeAux (S n) (u "&lt;" ++ X) = 60%N :: unescapeAux n X.
Proof. reflexivity. Qed.
Lemma unescape_gt : forall n X, unescapeAux (S n) (u "&gt;" ++ X) = 62%N :: unescapeAux n X.
Proof. reflexivity. Qed.

Lemma unescapeAux_escape : forall t n, (List.length t <= n)%nat ->
  unescapeAux n (flat_map escapeHtmlUnit t) = t.
Proof.
  induction t as [|c t IH]; intros n Hn; [destruct n; reflexivity|].
  destruct n as [|n]; [cbn in Hn; lia|].
  assert (Hn' : (List.length t <= n)%nat) by (cbn in Hn; lia).
  cbn [flat_map]; unfold escapeHtmlUnit.
  change (ch "&") with 38%N; change (ch "<") with 60%N; change (ch ">") with 62%N.
  destruct (N.eqb_spec c 38) as [->|C38]; [rewrite unescape_amp, IH by exact Hn'; reflexivity|].
  destruct (N.eqb_spec c 160) as [->|C160]; [rewrite unescape_nbsp, IH by exact Hn'; reflexivity|].
  destruct (N.eqb_spec c 60) as [->|C60]; [rewrite unescape_lt, IH by exact Hn'; reflexivity|].
  destruct (N.eqb_spec c 62) as [->|C62]; [rewrite unescape_gt, IH by exact Hn'; reflexivity|].
  cbn [app unescapeAux]. change (ch "&") with 38%N.
  rewrite (proj2 (N.eqb_neq c 38) C38), IH by exact Hn'; reflexivity.
Qed.

Lemma escapeHtml_flat : forall t, escapeHtml t = flat_map escapeHtmlUnit t.
Proof. intros [|c t]; reflexivity. Qed.

Lemma length_escape : forall t, (List.length t <= List.length (flat_map escapeHtmlUnit t))%nat.
Proof.
  induction t as [|c t IH]; [reflexivity|]. cbn [flat_map]; rewrite length_app.
  assert (1 <= List.length (escapeHtmlUnit c))%nat.
  { unfold escapeHtmlUnit; repeat (destruct (_ =? _)%N); cbn; lia. }
  cbn [List.length]; lia.
Qed.

(** Decoding the four character references [escapeHtml] writes gives the
    input text back: [escapeHtml] loses nothing. *)
Theorem escapeHtml_roundtrip : forall t, unescapeHtml (escapeHtml t) = t.
Proof.
  intros t; unfold unescapeHtml; rewrite escapeHtml_flat.
  apply unescapeAux_escape, length_escape.
Qed.

Lemma escapeHtml_units : forall t c, In c (escapeHtml t) -> c <> ch "<" /\ c <> ch ">".
Proof.
  intros t c; rewrite escapeHtml_flat; intros H.
  apply in_flat_map in H as (d & _ & Hd). unfold escapeHtmlUnit in Hd.
  change (ch "<") with 60%N in *; change (ch ">") with 62%N in *; change (ch "&") with 38%N in Hd.
  destruct (N.eqb_spec d 38); [vm_compute in Hd; repeat destruct Hd as [<-|Hd]; try contradiction; split; discriminate|].
  destruct (N.eqb_spec d 160); [vm_compute in Hd; repeat destruct Hd as [<-|Hd]; try contradiction; split; discriminate|].
  destruct (N.eqb_spec d 60); [vm_compute in Hd; repeat destruct Hd as [<-|Hd]; try contradiction; split; discriminate|].
  destruct (N.eqb_spec d 62); [vm_compute in Hd; repeat destruct Hd as [<-|Hd]; try contradiction; split; discriminate|].
  destruct Hd as [<-|[]]; split; assumption.
Qed.

(** The output of [escapeHtml] contains no [<] and no [>]. *)
Theorem escapeHtml_no_tags : forall t c, In c (escapeHtml t) -> c <> ch "<" /\ c <> ch ">".
Proof. exact escapeHtml_units. Qed.

Lemma count_occ_escapeHtml : forall t, count_occ N.eq_dec (escapeHtml t) 60%N = 0%nat.
Proof.
  intros t; apply count_occ_not_In; intros H.
  apply (escapeHtml_units t) in H as [H _]; apply H; reflexivity.
Qed.

Lemma count_lt_pre : count_occ N.eq_dec (q "<pre><code class='language-java'>") 60%N = 2%nat.
Proof. reflexivity. Qed.
Lemma count_lt_post : count_occ N.eq_dec (u "</code></pre>") 60%N = 2%nat.
Proof. reflexivity. Qed.
Lemma count_lt_nl : count_occ N.eq_dec nl 60%N = 0%nat.
Proof. reflexivity. Qed.

(** For a non-empty list of examples, the HTML [selectRule] builds has
    exactly four [<] per example: those of the [pre] and [code] tags. *)
Theorem examplesHtml_tags : forall examples, examples <> [] ->
  count_occ N.eq_dec (examplesHtml examples) (ch "<") = (4 * List.length examples)%nat.
Proof.
  intros exs Hne; unfold examplesHtml.
  destruct exs as [|ex exs]; [contradiction|]; clear Hne; cbn [List.length Nat.ltb Nat.leb].
  change (ch "<") with 60%N.
  revert ex; induction exs as [|ex' exs IH]; intros ex.
  - cbn [map joinJ]; rewrite !count_occ_app, count_occ_escapeHtml, count_lt_pre, count_lt_post.
    reflexivity.
  - change (joinJ nl (map (fun ex0 => q "<pre><code class='language-java'>" ++ escapeHtml ex0
                                     ++ u "</code></pre>") (ex :: ex' :: exs)))
      with ((q "<pre><code class='language-java'>" ++ escapeHtml ex ++ u "</code></pre>") ++ nl
            ++ joinJ nl (map (fun ex0 => q "<pre><code class='language-java'>" ++ escapeHtml ex0
                                     ++ u "</code></pre>") (ex' :: exs))).
    rewrite !count_occ_app, IH, count_occ_escapeHtml, count_lt_pre, count_lt_post, count_lt_nl.
    cbn [List.length]; lia.
Qed.

(* ------------------------------------------------------------------ *)
(** ** Builder and annotator: further properties *)

Lemma normalize_idem : forall v, normalize (normalize v) = normalize v.
Proof.
  intros v; pattern v; apply jval_nested_ind; clear v.
  - reflexivity.
  - reflexivity.
  - intros [| |]; reflexivity.
  - reflexivity.
  - intros l HP; cbn [normalize]; rewrite map_map; f_equal.
    apply map_ext_in; intros y Hy; rewrite Forall_forall in HP; apply HP, Hy.
  - intros o HP; cbn [normalize]; rewrite map_map; f_equal.
    apply map_ext_in; intros [k y] Hy; rewrite Forall_forall in HP; cbn [fst snd].
    f_equal; exact (HP (k, y) Hy).
Qed.

Lemma fieldJ_normalize : forall k r, fieldJ k (normalize r) = option_map normalize (fieldJ k r).
Proof.
  intros k [| | [| |] | | | o]; try reflexivity. apply objGet_mapV.
Qed.

Lemma map_fixed_In : forall {A} (f : A -> A) l x, map f l = l -> In x l -> f x = x.
Proof.
  intros A f l x; induction l as [|y l IH]; intros E H; [destruct H|].
  injection E as E1 E2; destruct H as [<-|H]; [exact E1|apply IH; assumption].
Qed.

(** A file of the pipeline holds an array of values without infinite
    numbers. *)
Lemma pipeline_parse : forall raw, pipelineFile raw ->
  exists rules, jsonParse (stripSemi (stripDecl raw)) = inr (JArr rules) /\
    map normalize rules = rules.
Proof.
  intros raw H; induction H as [lc files|TM raw out H IH E].
  - unfold builderMain; rewrite render_parse by apply catalogue_wf.
    unfold catalogue; cbn [normalize].
    eexists; split; [reflexivity|]; rewrite map_map; apply map_ext; apply normalize_idem.
  - destruct (annotator_reread TM raw out E) as (rules & _ & _ & Hp).
    eexists; split; [exact Hp|]; rewrite map_map; apply map_ext; apply normalize_idem.
Qed.

Lemma dropWs_app_ws : forall w x, forallb isWs w = true -> dropWs (w ++ x) = dropWs x.
Proof.
  induction w as [|c w IH]; intros x H; [reflexivity|].
  cbn [forallb] in H; apply andb_prop in H as [H1 H2].
  cbn [app dropWs]; rewrite H1; apply IH, H2.
Qed.

Lemma stripSemi_ws : forall s w, forallb isWs w = true -> stripSemi (s ++ 59%N :: w) = s.
Proof.
  induction s as [|c s IH]; intros w Hw.
  - cbn [app stripSemi]; change (ch ";") with 59%N; rewrite N.eqb_refl, Hw; reflexivity.
  - cbn [app stripSemi]. rewrite IH by exact Hw.
    assert (E : forallb isWs (s ++ 59%N :: w) = false)
      by (rewrite forallb_app; cbn [forallb]; change (isWs 59) with false; apply andb_false_r).
    rewrite E, andb_false_r; reflexivity.
Qed.

(** The annotator reads back the array of a data module whatever white
    space surrounds the JSON text: after [const RULES_DATA =] and after the
    final [;]. *)
Theorem annotator_reads_ws : forall v w1 w2, wfb v = true ->
  forallb isWs w1 = true -> forallb isWs w2 = true ->
  jsonParse (stripSemi (stripDecl (modulePrefix ++ w1 ++ stringify v ++ u ";" ++ w2)))
  = inr (normalize v).
Proof.
  intros v w1 w2 Hv H1 H2; unfold stripDecl. rewrite stripLit_app.
  rewrite dropWs_app_ws by exact H1.
  destruct (ser_head 0 v Hv) as (c & t & E & Hc).
  destruct (headChar_facts c Hc) as (_ & Hws & _).
  unfold stringify; rewrite E; cbn [app dropWs]; rewrite Hws.
  rewrite app_comm_cons, <- E.
  change (u ";" ++ w2) with (59%N :: w2); rewrite stripSemi_ws by exact H2.
  apply jsonParse_stringify, Hv.
Qed.

(** On a file of the pipeline, the annotator always parses an array; it
    exits with status 1 leaving the file as it was when some record's name
    has no entry in [TIER_MAP], and otherwise exits with status 0 writing
    the array with every record annotated. *)
Theorem annotatorMain_pipeline : forall TM raw, pipelineFile raw ->
  exists rules, jsonParse (stripSemi (stripDecl raw)) = inr (JArr rules) /\
    annotatorMain TM raw =
      if forallb (inTierMap TM) rules
      then Exit 0 (renderModule (JArr (map (annotate TM) rules)))
      else Exit 1 raw.
Proof.
  intros TM raw H; destruct (pipeline_parse raw H) as (rules & Hp & _).
  exists rules; split; [exact Hp|]; unfold annotatorMain; rewrite Hp; reflexivity.
Qed.

(** Every rule the builder collects has a category among the keys of the
    viewer's [categoryNames], and comes from a listed file that
    [CATEGORY_MAP] maps to that category. *)
Theorem collectRules_category : forall files r, In r (collectRules files) ->
  In (category r) categoryKeys /\
  exists file text, In (file, text) files /\ categoryOf file = Some (category r) /\
    In r (parseXmlFile text (category r)).
Proof.
  intros files r H; unfold collectRules in H.
  apply in_flat_map in H as ([file text] & Hf & Hr); cbn [fst snd] in Hr.
  apply filter_In in Hf as [Hf _].
  destruct (categoryOf file) as [c|] eqn:Ec; [|contradiction].
  destruct (in_parseXmlFile _ _ _ Hr) as (attrs & body & _ & Hb).
  destruct (buildRule_Some _ _ _ _ _ Hb) as (_ & _ & Er).
  assert (Hc : category r = c) by (rewrite Er; reflexivity).
  rewrite Hc; split.
  - unfold categoryOf in Ec.
    destruct (find _ CATEGORY_MAP) as [[fn cn]|] eqn:Efind; [|discriminate].
    injection Ec as <-. apply find_some in Efind as [Hin _].
    unfold categoryKeys. apply in_map.
    unfold CATEGORY_MAP in Hin; cbn in Hin.
    repeat destruct Hin as [Hin|Hin]; try contradiction; injection Hin as _ <-; cbn; tauto.
  - exists file, text; auto.
Qed.

Lemma dropWs_split : forall s, exists p, s = p ++ dropWs s /\ forallb isWs p = true.
Proof.
  induction s as [|c s IH]; [exists []; auto|].
  cbn [dropWs]; destruct (isWs c) eqn:Ec.
  - destruct IH as (p & E & Hp); exists (c :: p); cbn; rewrite Ec, Hp, <- E; auto.
  - exists []; auto.
Qed.

Lemma dropWs_head : forall s, dropWs s = [] \/ exists c t, dropWs s = c :: t /\ isWs c = false.
Proof.
  induction s as [|c s IH]; [left; reflexivity|].
  cbn [dropWs]; destruct (isWs c) eqn:Ec; [exact IH|right; eauto].
Qed.

Lemma dropWs_idem : forall s, dropWs (dropWs s) = dropWs s.
Proof.
  intros s; destruct (dropWs_head s) as [E|(c & t & E & Hc)]; rewrite E; [reflexivity|].
  cbn [dropWs]; rewrite Hc; reflexivity.
Qed.

Lemma trim_idem : forall s, trim (trim s) = trim s.
Proof.
  intros s; unfold trim.
  destruct (dropWs_split (rev (dropWs s))) as (p & Ep & _).
  remember (dropWs (rev (dropWs s))) as B eqn:EB.
  destruct B as [|b B']; [reflexivity|].
  assert (HA : dropWs s = rev (b :: B') ++ rev p)
    by (rewrite <- (rev_involutive (dropWs s)), Ep, rev_app_distr; reflexivity).
  assert (Hr : dropWs (rev (b :: B')) = rev (b :: B')).
  { destruct (dropWs_head s) as [E|(c & t & E & Hc)]; rewrite HA in E.
    - destruct (rev (b :: B')) eqn:R; [apply (f_equal (@List.length N)) in R; rewrite length_rev in R; discriminate|discriminate].
    - destruct (rev (b :: B')) as [|d t'] eqn:R;
        [apply (f_equal (@List.length N)) in R; rewrite length_rev in R; discriminate|].
      injection E as -> _; cbn [dropWs]; rewrite Hc; reflexivity. }
  rewrite Hr, rev_involutive, EB, dropWs_idem; reflexivity.
Qed.

(** The description of every parsed rule has no leading or trailing white
    space, and its examples are non-empty and have none either. *)
Theorem parseXmlFile_trimmed : forall xml cat r, In r (parseXmlFile xml cat) ->
  trim (description r) = description r /\
  Forall (fun ex => ex <> [] /\ trim ex = ex) (examples r).
Proof.
  intros xml cat r H.
  destruct (in_parseXmlFile _ _ _ H) as (attrs & body & _ & Hb).
  destruct (buildRule_Some _ _ _ _ _ Hb) as (_ & _ & ->); cbn [description examples].
  split.
  - unfold extractFirstElement; destruct (execFrom _ _ _ _); [apply trim_idem|reflexivity].
  - unfold extractExamples; apply Forall_forall; intros ex Hex.
    apply in_flat_map in Hex as (m & _ & Hm).
    destruct (isEmpty _) eqn:Ee in Hm; [contradiction|].
    destruct Hm as [<-|[]]; split; [|apply trim_idem].
    intros E; rewrite E in Ee; discriminate.
Qed.

(* ------------------------------------------------------------------ *)
(** ** Instances of the properties above *)

Lemma pagination_window_witness :
  let T := Z.of_nat (totalPages page5State) in let C := Z.of_nat (currentPage page5State) in
  let s := Z.max 1 (Z.min (C - 2) (T - 4)) in
  (2 <= T /\ 1 <= C <= T) /\
  windowPages (paginationItems page5State) = zrange s (s + Z.min 5 T - 1) /\
  activePages (paginationItems page5State) = [C] /\
  1 <= s <= C /\ C <= s + Z.min 5 T - 1 <= T.
Proof.
  split; [vm_compute; split; [discriminate|split; discriminate]|].
  apply (pagination_window page5State); vm_compute; [discriminate|split; discriminate].
Defined.

Lemma pagination_click_witness :
  let st := page5State in let it := NavButton false 6 9654%N in
  let T := Z.of_nat (totalPages st) in let C := Z.of_nat (currentPage st) in
  (Z.of_nat (List.length (filteredRules st)) < 2 ^ 32 /\ 1 <= C <= T /\
   In it (paginationItems st)) /\
  filteredRules (clickItem st it) = filteredRules st /\
  match buttonPage it with
  | Some p => 1 <= p <= T /\ Z.of_nat (currentPage (clickItem st it)) = p
  | None => clickItem st it = st
  end.
Proof.
  split.
  - split; [reflexivity|split; [vm_compute; split; discriminate|vm_compute; tauto]].
  - apply (pagination_click page5State (NavButton false 6 9654%N));
      [reflexivity|vm_compute; split; discriminate|vm_compute; tauto].
Defined.

Lemma viewer_reachable_witness :
  let st := clickItem {| filteredRules := rules45; currentPage := 1 |} (NavButton false 2 9654%N) in
  (reachable (fun s => s) rules45 st /\ Z.of_nat (List.length rules45) < 2 ^ 32) /\
  (List.length (filteredRules st) <= List.length rules45)%nat /\
  (1 <= currentPage st <= Nat.max 1 (totalPages st))%nat /\
  (pageRules st = [] <-> filteredRules st = []).
Proof.
  assert (R : reachable (fun s => s) rules45
                (clickItem {| filteredRules := rules45; currentPage := 1 |} (NavButton false 2 9654%N)))
    by (apply reach_click; [apply reach_load | vm_compute; tauto]).
  split; [split; [exact R|reflexivity]|].
  apply (viewer_reachable (fun s => s) rules45 _ R); reflexivity.
Defined.

Lemma updateCounts_filtered_witness :
  searchTerm (fun s => s) blankFilters = [] /\
  updateCounts rules45 blankFilters =
  (map (fun c => Z.of_nat (List.length (filteredRules (applyFilters (fun s => s) rules45
          {| fCategories := [c]; fPriorities := fPriorities blankFilters;
             searchValue := searchValue blankFilters |}))))
       categoryKeys,
   map (fun p => Z.of_nat (List.length (filteredRules (applyFilters (fun s => s) rules45
          {| fCategories := fCategories blankFilters; fPriorities := [numString (Fin p)];
             searchValue := searchValue blankFilters |}))))
       [1; 2; 3; 4; 5]).
Proof.
  split; [reflexivity|].
  apply (updateCounts_filtered (fun s => s) rules45 blankFilters); reflexivity.
Defined.

Lemma escapeHtml_no_tags_witness :
  In (ch "&") (escapeHtml (u "<")) /\ ch "&" <> ch "<" /\ ch "&" <> ch ">".
Proof.
  split; [vm_compute; tauto|].
  apply (escapeHtml_no_tags (u "<") (ch "&")); vm_compute; tauto.
Defined.

Lemma examplesHtml_tags_witness :
  [u "a<b"; u "c"] <> [] /\
  count_occ N.eq_dec (examplesHtml [u "a<b"; u "c"]) (ch "<") = (4 * 2)%nat.
Proof.
  split; [discriminate|].
  apply (examplesHtml_tags [u "a<b"; u "c"]); discriminate.
Defined.

Lemma annotator_reads_ws_witness :
  (wfb sampleArray = true /\ forallb isWs [32; 10]%N = true /\ forallb isWs [10]%N = true) /\
  jsonParse (stripSemi (stripDecl (modulePrefix ++ [32; 10]%N ++ stringify sampleArray
                                    ++ u ";" ++ [10]%N)))
  = inr (normalize sampleArray).
Proof.
  split; [split; [reflexivity|split; reflexivity]|].
  apply annotator_reads_ws; reflexivity.
Defined.

Lemma annotatorMain_pipeline_witness :
  pipelineFile (builderMain codeUnitCompare sampleFiles) /\
  exists rules,
    jsonParse (stripSemi (stripDecl (builderMain codeUnitCompare sampleFiles))) = inr (JArr rules) /\
    annotatorMain sampleTierMap (builderMain codeUnitCompare sampleFiles) =
      if forallb (inTierMap sampleTierMap) rules
      then Exit 0 (renderModule (JArr (map (annotate sampleTierMap) rules)))
      else Exit 1 (builderMain codeUnitCompare sampleFiles).
Proof.
  assert (P : pipelineFile (builderMain codeUnitCompare sampleFiles)) by apply pf_builder.
  split; [exact P|].
  exact (annotatorMain_pipeline sampleTierMap _ P).
Defined.

Lemma collectRules_category_witness :
  let r := nth 0 (collectRules sampleFiles) (tieRule "") in
  In r (collectRules sampleFiles) /\
  In (category r) categoryKeys /\
  exists file text, In (file, text) sampleFiles /\ categoryOf file = Some (category r) /\
    In r (parseXmlFile text (category r)).
Proof.
  assert (H : In (nth 0 (collectRules sampleFiles) (tieRule "")) (collectRules sampleFiles))
    by (vm_compute; left; reflexivity).
  split; [exact H|].
  exact (collectRules_category sampleFiles _ H).
Defined.

Lemma parseXmlFile_trimmed_witness :
  let r := nth 0 (parseXmlFile sampleDoc (u "design")) (tieRule "") in
  In r (parseXmlFile sampleDoc (u "design")) /\
  trim (description r) = description r /\
  Forall (fun ex => ex <> [] /\ trim ex = ex) (examples r).
Proof.
  assert (H : In (nth 0 (parseXmlFile sampleDoc (u "design")) (tieRule ""))
                 (parseXmlFile sampleDoc (u "design")))
    by (vm_compute; left; reflexivity).
  split; [exact H|].
  exact (parseXmlFile_trimmed sampleDoc (u "design") _ H).
Defined.

(* ================================================================== *)
(** * The specification's claims *)

(** C1 (as the code behaves): the priority of an emitted record is the value
    [parseInt] gives for the trimmed text of the first [<priority>] element
    of its block when that value is a non-zero number, and exactly 3
    otherwise: when the element is absent, when its text does not start
    (after white space) with a digit or a sign, and whenever [parseInt]
    gives NaN or 0.  No range check applies (see [C1_priority_seven]). *)
Theorem C1_priority_parsed_or_three : forall xml cat r, In r (parseXmlFile xml cat) ->
  exists attrs body, In (attrs, body) (ruleBlocks xml) /\
    buildRule (rulesetNameOf xml cat) cat attrs body = Some r /\
    let t := extractFirstElement body "priority" in
    (execFrom true (elementRe "priority") body 0 = None -> priority r = Fin 3) /\
    (forall c rest, dropWs t = c :: rest -> isRadixDigit 10 c = false ->
       c <> ch "-" -> c <> ch "+" -> priority r = Fin 3) /\
    (parseInt t = None -> priority r = Fin 3) /\
    (parseInt t = Some (Fin 0) -> priority r = Fin 3) /\
    (forall v, parseInt t = Some v -> v <> Fin 0 -> priority r = v).
Proof.
  intros xml cat r H.
  destruct (in_parseXmlFile _ _ _ H) as (attrs & body & Hin & Hb).
  exists attrs, body; split; [exact Hin|]; split; [exact Hb|].
  destruct (buildRule_Some _ _ _ _ _ Hb) as (_ & _ & ->).
  simpl; destruct (orThree_cases (parseInt (extractFirstElement body "priority")))
    as (H1 & H2 & H3).
  repeat split; auto.
  - intros He; rewrite (extractFirstElement_none _ _ He); reflexivity.
  - intros c rest Hd Hc Hm Hp; apply H1; eapply parseInt_nondigit; eauto.
Qed.

Lemma C1_priority_parsed_or_three_witness :
  exists r, In r (parseXmlFile sampleDoc (u "bestpractices")) /\
  exists attrs body, In (attrs, body) (ruleBlocks sampleDoc) /\
    buildRule (rulesetNameOf sampleDoc (u "bestpractices")) (u "bestpractices") attrs body = Some r /\
    let t := extractFirstElement body "priority" in
    (execFrom true (elementRe "priority") body 0 = None -> priority r = Fin 3) /\
    (forall c rest, dropWs t = c :: rest -> isRadixDigit 10 c = false ->
       c <> ch "-" -> c <> ch "+" -> priority r = Fin 3) /\
    (parseInt t = None -> priority r = Fin 3) /\
    (parseInt t = Some (Fin 0) -> priority r = Fin 3) /\
    (forall v, parseInt t = Some v -> v <> Fin 0 -> priority r = v).
Proof.
  destruct (parseXmlFile sampleDoc (u "bestpractices")) as [|r l] eqn:E.
  - vm_compute in E; discriminate.
  - assert (H : In r (parseXmlFile sampleDoc (u "bestpractices")))
      by (rewrite E; left; reflexivity).
    exists r; split; [left; reflexivity | exact (C1_priority_parsed_or_three _ _ _ H)].
Defined.

(** C1 (counterexample): a [<priority>7</priority>] element gives a record
    with priority 7, outside [1,5]. *)
Lemma C1_priority_seven :
  map priority (parseXmlFile prio7Doc (u "design")) = [Fin 7].
Proof. vm_compute. reflexivity. Qed.

(** C3: when the data module parses to an array in which some record's name
    has no entry in the table (or is not a string), the annotator exits
    with status 1 and the file keeps its previous contents. *)
Theorem C3_missing_entry_aborts : forall TIER_MAP raw rules,
  jsonParse (stripSemi (stripDecl raw)) = inr (JArr rules) ->
  (exists r, In r rules /\ inTierMap TIER_MAP r = false) ->
  annotatorMain TIER_MAP raw = Exit 1 raw.
Proof.
  intros TM raw rules Hp (r & Hr & Hn); unfold annotatorMain; rewrite Hp.
  destruct (forallb (inTierMap TM) rules) eqn:E; [|reflexivity].
  rewrite forallb_forall in E; rewrite (E r Hr) in Hn; discriminate.
Qed.

Lemma C3_missing_entry_aborts_witness :
  jsonParse (stripSemi (stripDecl sampleModuleAB))
    = inr (JArr [JObj [(u "name", JStr (u "A")); (u "priority", JNum (Fin 1))];
                 JObj [(u "name", JStr (u "B")); (u "priority", JNum (Fin 2))]]) /\
  annotatorMain sampleTierMap sampleModuleAB = Exit 1 sampleModuleAB.
Proof.
  assert (Hp : jsonParse (stripSemi (stripDecl sampleModuleAB))
    = inr (JArr [JObj [(u "name", JStr (u "A")); (u "priority", JNum (Fin 1))];
                 JObj [(u "name", JStr (u "B")); (u "priority", JNum (Fin 2))]]))
    by (vm_compute; reflexivity).
  split; [exact Hp|].
  apply (C3_missing_entry_aborts sampleTierMap _ _ Hp).
  exists (JObj [(u "name", JStr (u "B")); (u "priority", JNum (Fin 2))]).
  split; [right; left; reflexivity | vm_compute; reflexivity].
Defined.

(** C6 (divergence): the name is looked up with [name\s*=] without a word
    boundary, so a block with no [name] attribute but an [xname] attribute
    still yields a record, named after the [xname] value. *)
Theorem C6_xname_block_emitted :
  map name (parseXmlFile xnameDoc (u "design")) = [u "Foo"].
Proof. vm_compute. reflexivity. Qed.

(** C7 (divergence): the property pattern's [[^>]*] runs past the end of a
    self-closing [<property .../>], so that declaration swallows the next
    property up to its [</property>]; the qualifying property [minimum]
    (which alone yields a descriptor) is lost and the record has no
    [properties] field. *)
Theorem C7_qualifying_property_lost :
  extractProperties (q "<property name='minimum'><value>3</value></property>")
    = [{| propName := u "minimum"; defaultValue := u "3"; propDescription := [] |}] /\
  map (fun r => fieldOf "properties" (ruleObject r)) (parseXmlFile propDoc (u "design"))
    = [None].
Proof. split; vm_compute; reflexivity. Qed.

(** C8: a rule is in the filtered list exactly when the category filter is
    empty or contains its category, the priority filter is empty or
    contains its priority, and the trimmed lower-cased search term is empty
    or occurs in the lower-cased name, message, description or category
    name (for a [toLowerCase] that maps the empty string to itself);
    filtering returns to page 1, page [p] shows the [p]-th run of 20
    records, the pages [1 .. totalPages] together list the filtered rules in
    order, and no page holds more than 20. *)
Theorem C8_filter_and_pages : forall (toLowerCase : jstr -> jstr) rules f rule,
  toLowerCase [] = [] -> In rule rules ->
  (In rule (filteredRules (applyFilters toLowerCase rules f)) <->
     (fCategories f = [] \/ In (vCategory rule) (fCategories f)) /\
     (fPriorities f = [] \/ In (numString (vPriority rule)) (fPriorities f)) /\
     (searchTerm toLowerCase f = []
      \/ substringOf (searchTerm toLowerCase f) (toLowerCase (vName rule))
      \/ substringOf (searchTerm toLowerCase f) (toLowerCase (vMessage rule))
      \/ substringOf (searchTerm toLowerCase f) (toLowerCase (vDescription rule))
      \/ substringOf (searchTerm toLowerCase f) (toLowerCase (vCategoryName rule)))) /\
  currentPage (applyFilters toLowerCase rules f) = 1%nat /\
  (forall st p, pageRules {| filteredRules := filteredRules st; currentPage := S p |}
                = firstn RULES_PER_PAGE (skipn (p * RULES_PER_PAGE) (filteredRules st))) /\
  (forall st, List.concat (map (fun p => pageRules {| filteredRules := filteredRules st;
                                                      currentPage := p |})
                              (seq 1 (totalPages st)))
              = filteredRules st) /\
  (forall st, (List.length (pageRules st) <= RULES_PER_PAGE)%nat).
Proof.
  intros tl rules f rule Hnil Hin.
  split; [|split; [reflexivity | split; [|split]]].
  - unfold applyFilters; simpl; rewrite filter_In.
    unfold matchesRule; rewrite !andb_true_iff, !orb_true_iff, !isEmpty_true, !memJ_In,
      !includes_spec.
    split.
    + intros (_ & (Hc & Hp) & Hs); repeat split; auto.
      destruct Hs as [[[[Hs|Hs]|Hs]|Hs]|Hs]; auto.
      rewrite andb_true_iff, includes_spec in Hs; destruct Hs as [_ Hs]; auto 6.
    + intros (Hc & Hp & Hs); split; [exact Hin|]; repeat split; auto.
      destruct Hs as [Hs|[Hs|[Hs|[Hs|Hs]]]]; auto 6.
      destruct (searchTerm tl f) as [|c t] eqn:Et; [auto 6|].
      destruct (vCategoryName rule) as [|c' n] eqn:En.
      * rewrite Hnil in Hs; destruct Hs as (a & b & E).
        destruct a; discriminate.
      * right; rewrite andb_true_iff, includes_spec; simpl; auto.
  - intros st p; unfold pageRules; simpl; rewrite Nat.sub_0_r; reflexivity.
  - intros st; apply (pages_concat _ _ 0); simpl; apply totalPages_cover.
  - apply pageRules_length.
Qed.

Definition sampleViewerRule : ViewerRule :=
  {| vName := u "avoiddeeplynestedifstmts"; vCategory := u "design";
     vCategoryName := u "design"; vMessage := u "deep"; vDescription := u "nested if";
     vPriority := Fin 3 |}.

Lemma C8_filter_and_pages_witness :
  let f := {| fCategories := [u "design"]; fPriorities := []; searchValue := u " nested " |} in
  (In sampleViewerRule (filteredRules (applyFilters (fun s => s) [sampleViewerRule] f)) <->
     (fCategories f = [] \/ In (vCategory sampleViewerRule) (fCategories f)) /\
     (fPriorities f = [] \/ In (numString (vPriority sampleViewerRule)) (fPriorities f)) /\
     (searchTerm (fun s => s) f = []
      \/ substringOf (searchTerm (fun s => s) f) (vName sampleViewerRule)
      \/ substringOf (searchTerm (fun s => s) f) (vMessage sampleViewerRule)
      \/ substringOf (searchTerm (fun s => s) f) (vDescription sampleViewerRule)
      \/ substringOf (searchTerm (fun s => s) f) (vCategoryName sampleViewerRule))) /\
  In sampleViewerRule (filteredRules (applyFilters (fun s => s) [sampleViewerRule] f)).
Proof.
  intros f.
  pose proof (C8_filter_and_pages (fun s => s) [sampleViewerRule] f sampleViewerRule
                eq_refl (or_introl eq_refl)) as (H & _).
  split; [exact H|].
  vm_compute; left; reflexivity.
Defined.

(** C10: every emitted record becomes an object with string fields
    [name], [category], [categoryName], [since], [message], [ruleClass],
    [externalInfoUrl] and [description], a number [priority] and an array of
    strings [examples]; its other keys can only be [properties],
    [maxLanguageVersion] and [minLanguageVersion]; its name is non-empty, and
    [since], [message], [ruleClass], [externalInfoUrl] and [description]
    are empty when the record's own [<rule>] block (the one [buildRule]
    turns into it) has no such attribute or element. *)
Theorem C10_record_fields : forall xml cat r, In r (parseXmlFile xml cat) ->
  (forall k, In k ["name"; "category"; "categoryName"; "since"; "message"; "ruleClass";
                   "externalInfoUrl"; "description"]%string ->
     exists s, fieldOf k (ruleObject r) = Some (JStr s)) /\
  (exists p, fieldOf "priority" (ruleObject r) = Some (JNum p)) /\
  (exists l, fieldOf "examples" (ruleObject r) = Some (JArr (map JStr l))) /\
  (forall k, In k (objKeys (ruleObject r)) ->
     In k (map u ["name"; "category"; "categoryName"; "since"; "message"; "ruleClass";
                  "externalInfoUrl"; "description"; "priority"; "examples"; "properties";
                  "maxLanguageVersion"; "minLanguageVersion"]%string)) /\
  name r <> [] /\
  exists attrs body, In (attrs, body) (ruleBlocks xml) /\
    buildRule (rulesetNameOf xml cat) cat attrs body = Some r /\
    (execFrom true (attrRe "since") attrs 0 = None -> since r = []) /\
    (execFrom true (attrRe "message") attrs 0 = None -> message r = []) /\
    (execFrom true (attrRe "class") attrs 0 = None -> ruleClass r = []) /\
    (execFrom true (attrRe "externalInfoUrl") attrs 0 = None -> externalInfoUrl r = []) /\
    (execFrom true (elementRe "description") body 0 = None -> description r = []).
Proof.
  intros xml cat r H.
  destruct (parseXmlFile_name_ref _ _ _ H) as (_ & _ & _ & _ & _ & Hn).
  split; [|split; [|split; [|split; [|split]]]].
  - intros k Hk; simpl in Hk.
    destruct Hk as [<-|[<-|[<-|[<-|[<-|[<-|[<-|[<-|[]]]]]]]]]; eexists; reflexivity.
  - eexists; reflexivity.
  - eexists; reflexivity.
  - unfold objKeys, ruleObject.
    destruct (Nat.ltb 0 (List.length (properties r))), (isEmpty (maxLangVersion r)),
      (isEmpty (minLangVersion r)); simpl; intros k Hk; intuition.
  - exact Hn.
  - destruct (in_parseXmlFile _ _ _ H) as (attrs & body & Hin & Hb).
    exists attrs, body; split; [exact Hin|]; split; [exact Hb|].
    destruct (buildRule_Some _ _ _ _ _ Hb) as (_ & _ & ->).
    simpl; repeat split; auto.
    + apply extractAttr_none.
    + apply extractAttr_none.
    + apply extractAttr_none.
    + intros He; rewrite (extractAttr_none _ _ He); reflexivity.
    + apply extractFirstElement_none.
Qed.

Lemma C10_record_fields_witness :
  exists r, In r (parseXmlFile sampleDoc (u "bestpractices")) /\
  (forall k, In k ["name"; "category"; "categoryName"; "since"; "message"; "ruleClass";
                   "externalInfoUrl"; "description"]%string ->
     exists s, fieldOf k (ruleObject r) = Some (JStr s)) /\
  (exists p, fieldOf "priority" (ruleObject r) = Some (JNum p)) /\
  (exists l, fieldOf "examples" (ruleObject r) = Some (JArr (map JStr l))) /\
  (forall k, In k (objKeys (ruleObject r)) ->
     In k (map u ["name"; "category"; "categoryName"; "since"; "message"; "ruleClass";
                  "externalInfoUrl"; "description"; "priority"; "examples"; "properties";
                  "maxLanguageVersion"; "minLanguageVersion"]%string)) /\
  name r <> [] /\
  exists attrs body, In (attrs, body) (ruleBlocks sampleDoc) /\
    buildRule (rulesetNameOf sampleDoc (u "bestpractices")) (u "bestpractices") attrs body = Some r /\
    (execFrom true (attrRe "since") attrs 0 = None -> since r = []) /\
    (execFrom true (attrRe "message") attrs 0 = None -> message r = []) /\
    (execFrom true (attrRe "class") attrs 0 = None -> ruleClass r = []) /\
    (execFrom true (attrRe "externalInfoUrl") attrs 0 = None -> externalInfoUrl r = []) /\
    (execFrom true (elementRe "description") body 0 = None -> description r = []).
Proof.
  destruct (parseXmlFile sampleDoc (u "bestpractices")) as [|r l] eqn:E.
  - vm_compute in E; discriminate.
  - assert (H : In r (parseXmlFile sampleDoc (u "bestpractices")))
      by (rewrite E; left; reflexivity).
    exists r; split; [left; reflexivity | exact (C10_record_fields _ _ _ H)].
Defined.

Section BuilderOrder.

Variable localeCompare : jstr -> jstr -> Z.
Hypothesis localeCompare_eq : forall a b, localeCompare a b = 0 <-> a = b.
Hypothesis localeCompare_anti : forall a b, localeCompare a b < 0 <-> 0 < localeCompare b a.
Hypothesis localeCompare_trans : forall a b c,
  localeCompare a b < 0 -> localeCompare b c < 0 -> localeCompare a c < 0.

(** C2 (as the code behaves): for a [localeCompare] that is a strict total
    order on strings, the sorted records are a permutation of the parsed
    ones, ordered by category, then priority (numerically), then name; when
    no two records share category, priority and name, the written file is
    the same for every parse order of the same records.  Records that do
    share the three keys are not ordered by the comparator: the sort keeps
    them in the order they were collected, so swapping two of them in the
    source changes the written file (see [C2_tie_parse_order]). *)
Theorem C2_sorted_and_determined : forall files,
  Permutation (sortRules localeCompare (collectRules files)) (collectRules files) /\
  Sorted (fun a b =>
     localeCompare (category a) (category b) < 0
     \/ (category a = category b /\ numCompare (priority a) (priority b) < 0)
     \/ (category a = category b /\ priority a = priority b
         /\ localeCompare (name a) (name b) <= 0))
    (sortRules localeCompare (collectRules files)) /\
  (forall files', Permutation (collectRules files') (collectRules files) ->
     NoDup (map ruleKey (collectRules files)) ->
     builderMain localeCompare files' = builderMain localeCompare files) /\
  (forall k, filter (sameKey k) (sortRules localeCompare (collectRules files))
             = filter (sameKey k) (collectRules files)).
Proof.
  intros files; split; [|split; [|split]].
  - apply sortRules_perm.
  - eapply Sorted_impl; [|apply sortRules_sorted; eauto].
    intros a b H; unfold ruleLe in H.
    destruct (Z.lt_ge_cases (compareRules localeCompare a b) 0) as [L|L].
    + apply compareRules_lt in L; auto; intuition lia.
    + assert (E : ruleKey a = ruleKey b)
        by (apply (compareRules_zero localeCompare); auto; lia).
      unfold ruleKey in E; injection E as E1 E2 E3.
      right; right; rewrite E3, (proj2 (localeCompare_eq _ _) eq_refl); auto with zarith.
  - intros files' P N; unfold builderMain, catalogue.
    rewrite (sortRules_unique localeCompare localeCompare_eq localeCompare_anti
               localeCompare_trans (collectRules files') (collectRules files)); auto.
    apply (Permutation_NoDup (Permutation_map _ (Permutation_sym P))), N.
  - intros k; apply sortRules_stable; assumption.
Qed.

End BuilderOrder.

Lemma C2_sorted_and_determined_witness :
  Permutation (sortRules codeUnitCompare (collectRules sampleFiles)) (collectRules sampleFiles) /\
  Sorted (fun a b =>
     codeUnitCompare (category a) (category b) < 0
     \/ (category a = category b /\ numCompare (priority a) (priority b) < 0)
     \/ (category a = category b /\ priority a = priority b
         /\ codeUnitCompare (name a) (name b) <= 0))
    (sortRules codeUnitCompare (collectRules sampleFiles)) /\
  (forall files', Permutation (collectRules files') (collectRules sampleFiles) ->
     NoDup (map ruleKey (collectRules sampleFiles)) ->
     builderMain codeUnitCompare files' = builderMain codeUnitCompare sampleFiles) /\
  (forall k, filter (sameKey k) (sortRules codeUnitCompare (collectRules sampleFiles))
             = filter (sameKey k) (collectRules sampleFiles)).
Proof.
  exact (C2_sorted_and_determined codeUnitCompare codeUnitCompare_eq codeUnitCompare_sign
           codeUnitCompare_trans sampleFiles).
Defined.

(** C2 (counterexample): two rules of one file with the same category,
    priority and name but different [since] are a permutation of each
    other in the two parse orders, and for every [localeCompare] that
    returns 0 on equal strings the written files differ. *)
Lemma C2_tie_parse_order :
  Permutation (collectRules [(u "design_ko.xml", tieDocAB)])
              (collectRules [(u "design_ko.xml", tieDocBA)]) /\
  (forall lc, (forall s, lc s s = 0) ->
     builderMain lc [(u "design_ko.xml", tieDocAB)]
     <> builderMain lc [(u "design_ko.xml", tieDocBA)]).
Proof.
  unfold builderMain, catalogue; rewrite tie_collect_AB, tie_collect_BA.
  split; [apply perm_swap|].
  intros lc Hlc.
  rewrite !sortRules_two by (unfold compareRules; simpl; apply Hlc).
  intros H; vm_compute in H; discriminate H.
Qed.

(** C4 (as the code behaves): re-reading the written module the way the
    annotator does (prefix and trailing [;] stripped, then [JSON.parse])
    gives the in-memory catalogue with every infinite number replaced by
    [null] ([normalize]); when every priority is finite this is exactly the
    in-memory catalogue, records in the same order (see
    [C4_infinite_priority_null]). *)
Theorem C4_roundtrip : forall lc files,
  jsonParse (stripSemi (stripDecl (builderMain lc files))) = inr (normalize (catalogue lc files)) /\
  (Forall (fun r => exists z, priority r = Fin z) (collectRules files) ->
   jsonParse (stripSemi (stripDecl (builderMain lc files))) = inr (catalogue lc files)).
Proof.
  intros lc files.
  assert (H : jsonParse (stripSemi (stripDecl (builderMain lc files))) = inr (normalize (catalogue lc files)))
    by (apply render_parse, catalogue_wf).
  split; [exact H|]. intros Hf; rewrite H, normalize_catalogue by exact Hf; reflexivity.
Qed.

Lemma C4_roundtrip_witness :
  jsonParse (stripSemi (stripDecl (builderMain codeUnitCompare sampleFiles)))
    = inr (normalize (catalogue codeUnitCompare sampleFiles)) /\
  jsonParse (stripSemi (stripDecl (builderMain codeUnitCompare sampleFiles)))
    = inr (catalogue codeUnitCompare sampleFiles).
Proof.
  destruct (C4_roundtrip codeUnitCompare sampleFiles) as [H1 H2]. split; [exact H1|].
  apply H2. vm_compute. repeat constructor; eexists; reflexivity.
Defined.

(** C4 (counterexample): a priority of 400 nines is [Infinity] in memory;
    it is written as [null] and read back as [null]. *)
Lemma C4_infinite_priority_null :
  map (fieldOf "priority") (match catalogue codeUnitCompare bigPrioFiles with JArr l => l | _ => [] end)
    = [Some (JNum PosInf)] /\
  match jsonParse (stripSemi (stripDecl (builderMain codeUnitCompare bigPrioFiles))) with
  | inr (JArr l) => map (fieldOf "priority") l
  | _ => []
  end = [Some JNull].
Proof. split; vm_compute; reflexivity. Qed.

(** C5: after a successful run (exit status 0, file [out] written),
    running the annotator again on [out] succeeds and writes [out] again:
    the same [tier] and [claude_comment] values, the same file. *)
Theorem C5_annotator_idempotent : forall TIER_MAP raw out,
  annotatorMain TIER_MAP raw = Exit 0 out -> annotatorMain TIER_MAP out = Exit 0 out.
Proof.
  intros TM raw out H.
  destruct (annotator_reread TM raw out H) as (rules & Hp0 & Hf & Hp).
  destruct (annotatorMain_ok TM raw out H) as (rules0 & Hp1 & _ & Hout).
  assert (rules0 = rules) as -> by congruence.
  unfold annotatorMain at 1. rewrite Hp.
  assert (Hf' : forallb (inTierMap TM) (map normalize (map (annotate TM) rules)) = true).
  { rewrite map_map, forallb_forall; intros y Hy; apply in_map_iff in Hy as (r & <- & Hr).
    rewrite inTierMap_normalize_annotate. rewrite forallb_forall in Hf; apply Hf, Hr. }
  rewrite Hf'. f_equal.
  assert (E : map (annotate TM) (map normalize (map (annotate TM) rules))
              = map normalize (map (annotate TM) rules)).
  { rewrite !map_map; apply map_ext; intros r.
    rewrite annotate_normalize, annotate_idem; reflexivity. }
  rewrite E, Hout.
  change (JArr (map normalize (map (annotate TM) rules)))
    with (normalize (JArr (map (annotate TM) rules))).
  apply renderModule_normalize.
Qed.

Lemma C5_annotator_idempotent_witness :
  annotatorMain sampleTierMap sampleModuleA = Exit 0 annotatedA /\
  annotatorMain sampleTierMap annotatedA = Exit 0 annotatedA.
Proof.
  assert (H : annotatorMain sampleTierMap sampleModuleA = Exit 0 annotatedA)
    by (vm_compute; reflexivity).
  split; [exact H | exact (C5_annotator_idempotent sampleTierMap _ _ H)].
Defined.

(** C9: for every successful run on a file of the pipeline (written by the
    builder, or rewritten by an earlier successful run), the array read
    back from the written file has as many records as the array read in, in
    the same order, and every field of every record other than [tier] and
    [claude_comment] is present with the same value exactly when it was
    present in the record read in. *)
Theorem C9_only_tier_fields_change : forall TIER_MAP raw out,
  pipelineFile raw -> annotatorMain TIER_MAP raw = Exit 0 out ->
  exists rules rules', jsonParse (stripSemi (stripDecl raw)) = inr (JArr rules) /\
    jsonParse (stripSemi (stripDecl out)) = inr (JArr rules') /\
    Forall2 (fun r r' => forall k, k <> u "tier" -> k <> u "claude_comment" ->
                         fieldJ k r' = fieldJ k r) rules rules'.
Proof.
  intros TM raw out Hpf H.
  destruct (annotator_reread TM raw out H) as (rules0 & Hp0 & _ & Hp).
  destruct (pipeline_parse raw Hpf) as (rules & Hr & Hn).
  assert (rules0 = rules) as -> by congruence.
  exists rules, (map normalize (map (annotate TM) rules)); split; [exact Hr|]; split; [exact Hp|].
  rewrite map_map. apply Forall2_map_r, Forall_forall. intros r Hin k H1 H2.
  rewrite annotate_field by assumption.
  rewrite <- fieldJ_normalize, (map_fixed_In normalize rules r Hn Hin); reflexivity.
Qed.

Lemma C9_only_tier_fields_change_witness :
  exists out, (pipelineFile (builderMain codeUnitCompare sampleFiles) /\
               annotatorMain allTiers (builderMain codeUnitCompare sampleFiles) = Exit 0 out) /\
  exists rules rules',
    jsonParse (stripSemi (stripDecl (builderMain codeUnitCompare sampleFiles))) = inr (JArr rules) /\
    jsonParse (stripSemi (stripDecl out)) = inr (JArr rules') /\
    Forall2 (fun r r' => forall k, k <> u "tier" -> k <> u "claude_comment" ->
                         fieldJ k r' = fieldJ k r) rules rules'.
Proof.
  assert (P : pipelineFile (builderMain codeUnitCompare sampleFiles)) by apply pf_builder.
  destruct (annotatorMain allTiers (builderMain codeUnitCompare sampleFiles)) as [c out|] eqn:E in P;
    [|vm_compute in E; discriminate].
  assert (Hc : c = 0) by (vm_compute in E; injection E as Hc _; lia).
  subst c; exists out; split; [split; [exact P|exact E]|].
  exact (C9_only_tier_fields_change allTiers _ out P E).
Defined.

